(** * timescale-usage: the collection worker (pkg/worker/worker.go)

    A shallow embedding of the worker that measures the size of the
    hypertables and continuous aggregates of a TimescaleDB database, writes a
    usage row per object, removes the rows of objects that are gone and
    publishes the sizes as a gauge.

    The Go code talks to three things outside itself: the database (through
    a pgx connection pool), the wall clock and the logger.  They are gathered
    in one record, [World], which the embedded functions thread explicitly.
    Go errors are values and stay values here; a Go panic and a goroutine
    that is still blocked are outcomes of their own. *)

From Stdlib Require Import ZArith Floats Lia.
From stdpp Require Import base strings list gmap.

(** ** package time *)

Module GoTime.
Local Open Scope Z_scope.

(** A [time.Time] is an instant; it is represented by the nanoseconds
    elapsed since the Unix epoch.  A [time.Duration] is an int64 count of
    nanoseconds. *)
Definition Time : Type := Z.
Definition Duration : Type := Z.

Definition minDuration : Duration := - 2 ^ 63.
Definition maxDuration : Duration := 2 ^ 63 - 1.

Definition Second : Duration := 1000000000.
Definition Hour : Duration := 60 * 60 * Second.

(** [t.Sub(u)]: the difference, replaced by the smallest or largest
    duration when it does not fit an int64. *)
Definition Sub (t u : Time) : Duration :=
  let d := t - u in
  if d <? minDuration then minDuration
  else if maxDuration <? d then maxDuration
  else d.

(** The conversion [float64(n)] of an integer: the nearest binary64
    number, ties to even. *)
Definition float64 (n : Z) : float :=
  SF2Prim (binary_normalize prec emax n 0 false).

(** [d.Hours()]: the integral and the fractional hours are converted
    apart and added, as the library does. *)
Definition Hours (d : Duration) : float :=
  let hour := Z.quot d Hour in
  let nsec := Z.rem d Hour in
  PrimFloat.add (float64 hour)
                (PrimFloat.div (float64 nsec) (float64 (60 * 60 * 1000000000))).
End GoTime.
Import GoTime.

(** ** package strings *)

(** [strings.Contains(s, substr)]. *)
Fixpoint Contains (s substr : string) : bool :=
  String.prefix substr s ||
  match s with
  | EmptyString => false
  | String _ s' => Contains s' substr
  end.

(** ** Errors

    An [error] is known to the worker through three things only: whether it
    is nil, whether it is the sentinel [pgx.ErrNoRows], and its text
    [err.Error()]. *)

Inductive error : Type :=
| ErrNoRows
| PgError (Severity Message Code : string)
| errorString (s : string).

Definition Error (err : error) : string :=
  match err with
  | ErrNoRows => "no rows in result set"
  | PgError Severity Message Code =>
      Severity +:+ ": " +:+ Message +:+ " (SQLSTATE " +:+ Code +:+ ")"
  | errorString s => s
  end.

Definition errIsTableDoesNotExist (err : error) : bool :=
  Contains (Error err) "SQLSTATE 42P01".

Definition is_ErrNoRows (err : error) : bool :=
  match err with ErrNoRows => true | _ => false end.

(** ** package pgtype *)

(** A scanned [pgtype.Int8] is present or null. *)
Inductive Int8 : Type :=
| Int8Present (Int : Z)
| Int8Null.

(** [size.Get()]: the integer, or nil. *)
Definition Int8_Get (src : Int8) : option Z :=
  match src with
  | Int8Present n => Some n
  | Int8Null => None
  end.

(** A scanned [pgtype.Timestamptz] is a time, one of the two infinities,
    or null. *)
Inductive Timestamptz : Type :=
| TsPresent (t : Time)
| TsInfinity
| TsNegativeInfinity
| TsNull.

(** [pgdate.Get().(time.Time)]: [Get] yields the time, the infinity
    modifier or nil, and the type assertion panics on the last two. *)
Definition Timestamptz_Get_Time (src : Timestamptz) : option Time :=
  match src with
  | TsPresent t => Some t
  | _ => None
  end.

(** ** The database *)

(** A row of [timescaledb_information.hypertables] or of
    [timescaledb_information.continuous_aggregates], with the value that
    [hypertable_approximate_size] has for it. *)
Record CatalogRow : Type := {
  cat_schema : string;
  cat_name : string;
  cat_size : Int8;
}.

(** A relation that can be selected from.  [rel_time] is the content of
    its column named [time], if it has one. *)
Record Relation : Type := {
  rel_time : option (list Timestamptz);
}.

(** A row of the [usage] table. *)
Record UsageRow : Type := {
  u_table : string;
  u_bytes : Z;
  u_updated_at : Z;
  u_bytes_per_day : float;
}.

Record Database : Type := {
  hypertables : list CatalogRow;
  continuous_aggregates : list CatalogRow;
  relations : gmap (string * string) Relation;
  (** the [usage] table of each schema that has one *)
  usage : gmap string (list UsageRow);
}.

Definition set_usage (db : Database) (u : gmap string (list UsageRow)) : Database :=
  {| hypertables := hypertables db;
     continuous_aggregates := continuous_aggregates db;
     relations := relations db;
     usage := u |}.

(** The statements the worker sends.  The Go code builds their text with
    [fmt.Sprintf]; here a statement is the data that the text carries. *)
Inductive Stmt : Type :=
| CreateSchema (usageSchema : string)
| CreateUsageTable (usageSchema : string)
| SelectHypertables
| SelectContinuousAggregates
| SelectFirstTime (schema table : string)
| InsertUsage (usageSchema table : string) (bytes : Z) (updated_at : Z)
              (bytes_per_day : float)
| DeleteOutdated (usageSchema sourceSchema : string).

(** The text of the two server errors the worker can meet when it selects
    from an object: SQLSTATE 42P01 (undefined table) and 42703 (undefined
    column). *)
Definition dquote : string :=
  String (Ascii.Ascii false true false false false true false false) EmptyString.

Definition undefined_table (name : string) : error :=
  PgError "ERROR" ("relation " +:+ dquote +:+ name +:+ dquote +:+ " does not exist")
          "42P01".

Definition undefined_column (name : string) : error :=
  PgError "ERROR" ("column " +:+ dquote +:+ name +:+ dquote +:+ " does not exist")
          "42703".

(** [ORDER BY time ASC]: minus infinity, the finite times in order,
    infinity, and nulls last. *)
Definition ts_leb (a b : Timestamptz) : bool :=
  match a, b with
  | TsNegativeInfinity, _ => true
  | TsPresent x, TsPresent y => (x <=? y)%Z
  | TsPresent _, (TsInfinity | TsNull) => true
  | TsInfinity, (TsInfinity | TsNull) => true
  | TsNull, TsNull => true
  | _, _ => false
  end.

(** [ORDER BY time ASC LIMIT 1] over the values of the column. *)
Definition first_time (col : list Timestamptz) : option Timestamptz :=
  match col with
  | [] => None
  | v :: vs => Some (fold_left (fun m x => if ts_leb m x then m else x) vs v)
  end.

(** [SELECT time from "schema"."table" ORDER BY time ASC LIMIT 1], scanned
    into a [pgtype.Timestamptz]. *)
Definition select_first_time (db : Database) (schema table : string)
  : Timestamptz + error :=
  match relations db !! (schema, table) with
  | None => inr (undefined_table (schema +:+ "." +:+ table))
  | Some r =>
      match rel_time r with
      | None => inr (undefined_column "time")
      | Some col =>
          match first_time col with
          | None => inr ErrNoRows
          | Some v => inl v
          end
      end
  end.

(** [INSERT INTO usage ... VALUES (table, bytes, updated_at, bytes_per_day)
    ON CONFLICT ("table") DO UPDATE SET bytes = ..., updated_at = ...,
    bytes_per_day = ...]: a row whose key is [table] is overwritten, and the
    row is added when there is none. *)
Definition has_key (table : string) (rows : list UsageRow) : bool :=
  existsb (fun r => String.eqb (u_table r) table) rows.

(** [DO UPDATE SET bytes = ..., updated_at = ..., bytes_per_day = ...] on a
    row, which is in conflict when its key is [table]. *)
Definition overwrite (table : string) (bytes : Z) (updated_at : Z)
    (bytes_per_day : float) (r : UsageRow) : UsageRow :=
  if String.eqb (u_table r) table then
    {| u_table := u_table r; u_bytes := bytes;
       u_updated_at := updated_at; u_bytes_per_day := bytes_per_day |}
  else r.

Definition insert_usage (rows : list UsageRow) (table : string) (bytes : Z)
    (updated_at : Z) (bytes_per_day : float) : list UsageRow :=
  if has_key table rows then
    map (overwrite table bytes updated_at bytes_per_day) rows
  else
    rows ++ [ {| u_table := table; u_bytes := bytes;
                 u_updated_at := updated_at; u_bytes_per_day := bytes_per_day |} ].

(** The names that a catalog lists for one schema:
    [SELECT hypertable_name FROM ... WHERE hypertable_schema = 'schema']. *)
Definition names_in (schema : string) (catalog : list CatalogRow) : list string :=
  map cat_name (filter (fun c => cat_schema c = schema) catalog).

Definition mem (x : string) (l : list string) : bool :=
  existsb (String.eqb x) l.

(** [DELETE FROM usage where "table" NOT IN (hypertables of the schema)
    AND "table" NOT IN (continuous aggregates of the schema)]: the rows
    that stay. *)
Definition delete_outdated (db : Database) (sourceSchema : string)
    (rows : list UsageRow) : list UsageRow :=
  filter (fun r =>
            negb (negb (mem (u_table r) (names_in sourceSchema (hypertables db)))
                  && negb (mem (u_table r)
                             (names_in sourceSchema (continuous_aggregates db))))
            = true)
         rows.

(** What the server does with a statement that reached it: the new
    database, or the error it answers.  The three selects change nothing;
    their rows are read by [Query] and [QueryRow] below. *)
Definition execute (db : Database) (s : Stmt) : Database + error :=
  match s with
  | CreateSchema _ => inl db
  | CreateUsageTable usageSchema =>
      match usage db !! usageSchema with
      | Some _ => inl db
      | None => inl (set_usage db (<[usageSchema := []]> (usage db)))
      end
  | SelectHypertables | SelectContinuousAggregates | SelectFirstTime _ _ => inl db
  | InsertUsage usageSchema table bytes updated_at bytes_per_day =>
      match usage db !! usageSchema with
      | None => inr (undefined_table (usageSchema +:+ ".usage"))
      | Some rows =>
          inl (set_usage db
                 (<[usageSchema :=
                      insert_usage rows table bytes updated_at bytes_per_day]>
                    (usage db)))
      end
  | DeleteOutdated usageSchema sourceSchema =>
      match usage db !! usageSchema with
      | None => inr (undefined_table (usageSchema +:+ ".usage"))
      | Some rows =>
          inl (set_usage db
                 (<[usageSchema := delete_outdated db sourceSchema rows]> (usage db)))
      end
  end.

(** ** The world around the worker *)

(** A line written by package log: a plain text, or the line
    [log.Printf("%v %v %v\n", table, tableSizeBytes, bytesPerDay)] kept as
    its three values. *)
Inductive LogLine : Type :=
| Text (s : string)
| Measured (table : string) (tableSizeBytes : Z) (bytesPerDay : float).

(** Where an error strikes a listing that [upsertWithQuery] reads row by
    row: [conn.Query] itself returns it (the statement could not be prepared
    or sent); or [rows.Next()] meets it after [n] rows and ends the loop,
    leaving it in [rows.Err()]; or [rows.Scan] returns it at the row after
    the first [n]. *)
Inductive Reading : Type :=
| AtQuery
| AtNext (n : nat)
| AtScan (n : nat).

Record World : Type := {
  (** the database behind the connection pool *)
  database : Database;
  (** every statement sent so far, oldest first *)
  statements : list Stmt;
  (** [faults k]: the error, if any, that the k-th statement meets before
      the server has answered it in full (a lost connection, a timeout, a
      refused permission, ...) *)
  faults : nat -> option error;
  (** [readings k]: where the fault of the k-th statement strikes when that
      statement is a catalog listing read row by row *)
  readings : nat -> Reading;
  (** the error, if any, of opening the connection pool *)
  dial : option error;
  (** [clock k]: what the k-th call of [time.Now()] returns *)
  clock : nat -> Time;
  clock_reads : nat;
  (** the lines logged so far, oldest first *)
  logged : list LogLine;
  (** the gauge vector [timescale_table_size_bytes], by its label [table] *)
  bytesMetrics : gmap string float;
}.

Definition set_database (w : World) (db : Database) : World :=
  {| database := db; statements := statements w; faults := faults w;
     readings := readings w; dial := dial w; clock := clock w;
     clock_reads := clock_reads w; logged := logged w;
     bytesMetrics := bytesMetrics w |}.

Definition add_statement (w : World) (s : Stmt) : World :=
  {| database := database w; statements := statements w ++ [s];
     faults := faults w; readings := readings w; dial := dial w;
     clock := clock w; clock_reads := clock_reads w; logged := logged w;
     bytesMetrics := bytesMetrics w |}.

Definition add_clock_read (w : World) : World :=
  {| database := database w; statements := statements w; faults := faults w;
     readings := readings w; dial := dial w; clock := clock w;
     clock_reads := S (clock_reads w); logged := logged w;
     bytesMetrics := bytesMetrics w |}.

Definition add_logged (w : World) (l : LogLine) : World :=
  {| database := database w; statements := statements w; faults := faults w;
     readings := readings w; dial := dial w; clock := clock w;
     clock_reads := clock_reads w; logged := logged w ++ [l];
     bytesMetrics := bytesMetrics w |}.

Definition set_bytesMetrics (w : World) (m : gmap string float) : World :=
  {| database := database w; statements := statements w; faults := faults w;
     readings := readings w; dial := dial w; clock := clock w;
     clock_reads := clock_reads w; logged := logged w; bytesMetrics := m |}.

(** How a call ends: it returns, it panics, or it is still blocked when the
    observation stops. *)
Inductive outcome (A : Type) : Type :=
| Returns (a : A)
| Panics (v : string)
| Blocks.
Arguments Returns {A} a.
Arguments Panics {A} v.
Arguments Blocks {A}.

Definition M (A : Type) : Type := World -> outcome A * World.

Definition ret {A : Type} (a : A) : M A := fun w => (Returns a, w).

Definition bind {A B : Type} (m : M A) (k : A -> M B) : M B := fun w =>
  match m w with
  | (Returns a, w') => k a w'
  | (Panics v, w') => (Panics v, w')
  | (Blocks, w') => (Blocks, w')
  end.

Definition panic {A : Type} (v : string) : M A := fun w => (Panics v, w).

Declare Scope go_scope.
Delimit Scope go_scope with go.
Notation "x <- m ;; k" := (bind m (fun x => k))
  (at level 100, m at next level, right associativity) : go_scope.
Notation "m ;; k" := (bind m (fun _ => k))
  (at level 100, right associativity) : go_scope.
Local Open Scope go_scope.

(** [time.Now()]. *)
Definition Now : M Time := fun w =>
  (Returns (clock w (clock_reads w)), add_clock_read w).

(** [log.Println] and [log.Printf]. *)
Definition Println (l : LogLine) : M unit := fun w =>
  (Returns tt, add_logged w l).

(** Sending a statement: it is recorded, and it either meets the fault
    planned for it or reaches the server. *)
Definition send (s : Stmt) : M (option error) := fun w =>
  (Returns (faults w (length (statements w))), add_statement w s).

(** Where the fault of the statement sent next strikes, if that statement
    meets one. *)
Definition strikes : M Reading := fun w =>
  (Returns (readings w (length (statements w))), w).

(** [conn.Exec(s)]: nil, or the error. *)
Definition Exec (s : Stmt) : M (option error) :=
  fault <- send s ;;
  match fault with
  | Some err => ret (Some err)
  | None => fun w =>
      match execute (database w) s with
      | inl db => (Returns None, set_database w db)
      | inr err => (Returns (Some err), w)
      end
  end.

(** The rows in which a catalog listing answers. *)
Definition listing (db : Database) (s : Stmt) : list CatalogRow :=
  match s with
  | SelectHypertables => hypertables db
  | SelectContinuousAggregates => continuous_aggregates db
  | _ => []
  end.

(** What [rows.Next()] and [rows.Scan] hand to the loop of
    [upsertWithQuery]: the rows scanned one after the other, and the error
    the next [rows.Scan] returns, if one does. *)
Record Rows : Type := {
  scanned_rows : list CatalogRow;
  scan_error : option error;
}.

(** What the loop is handed of the rows of a listing.  Without a fault,
    every row.  A fault strikes where the reading says: at [conn.Query],
    which returns it; at a [rows.Next()], which then answers false after the
    rows delivered so far, and the error stays in [rows.Err()], which
    [upsertWithQuery] never reads; or at the [rows.Scan] of a row, which
    returns it (when the listing has no such row, nothing is scanned there
    and every row is delivered). *)
Definition delivered (rows : list CatalogRow) (fault : option error)
    (reading : Reading) : Rows + error :=
  match fault with
  | None => inl {| scanned_rows := rows; scan_error := None |}
  | Some err =>
      match reading with
      | AtQuery => inr err
      | AtNext n => inl {| scanned_rows := take n rows; scan_error := None |}
      | AtScan n =>
          if (n <? length rows)%nat then
            inl {| scanned_rows := take n rows; scan_error := Some err |}
          else inl {| scanned_rows := rows; scan_error := None |}
      end
  end.

(** [conn.Query(s)] for the two catalog listings, with what [rows.Next()]
    and [rows.Scan] then deliver. *)
Definition Query (s : Stmt) : M (Rows + error) :=
  reading <- strikes ;;
  fault <- send s ;;
  fun w => (Returns (delivered (listing (database w) s) fault reading), w).

(** [conn.QueryRow(SELECT time ...).Scan(&pgdate)]. *)
Definition QueryRow_Scan (schema table : string) : M (Timestamptz + error) :=
  fault <- send (SelectFirstTime schema table) ;;
  match fault with
  | Some err => ret (inr err)
  | None => fun w => (Returns (select_first_time (database w) schema table), w)
  end.

(** [bytesMetrics.WithLabelValues(table).Set(v)]. *)
Definition Gauge_Set (table : string) (v : float) : M unit := fun w =>
  (Returns tt, set_bytesMetrics w (<[table := v]> (bytesMetrics w))).

(** ** The worker *)

(** The part of [configuration.Config] that the worker reads once it is
    connected. *)
Module configuration.
Record Config : Type := {
  PostgresUsageSchema : string;
  PostgresSourceSchema : string;
  Duration : string;
}.
End configuration.

(** The fields [conn] and [bytesMetrics] of the Go struct are pointers;
    what they point to is in the [World]. *)
Record Worker : Type := {
  config : configuration.Config;
}.

Definition usageSchema (w : Worker) : string :=
  configuration.PostgresUsageSchema (config w).

Definition sourceSchema (w : Worker) : string :=
  configuration.PostgresSourceSchema (config w).

(** [now.Format(time.RFC3339)]: the instant to the second, kept as the
    whole seconds since the epoch that the text denotes. *)
Definition RFC3339 (now : Time) : Z := (now / Second)%Z.

(** [days := now.Sub(firstDate).Hours() / 24]. *)
Definition days_between (now firstDate : Time) : float :=
  PrimFloat.div (Hours (Sub now firstDate)) (float64 24).

(** [if days != 0 { bytesPerDay = float64(tableSizeBytes) / days }],
    starting from [bytesPerDay = 0]. *)
Definition bytes_per_day (tableSizeBytes : Z) (days : float) : float :=
  if negb (PrimFloat.eqb days (float64 0)) then
    PrimFloat.div (float64 tableSizeBytes) days
  else float64 0.

(** [var tableSizeBytes int64 = 0], replaced by [size.Get().(int64)]
    when [size.Get() != nil]. *)
Definition size_bytes (size : Int8) : Z :=
  match Int8_Get size with
  | Some n => n
  | None => 0%Z
  end.

(** [Worker.upsert].  [first] is the first date the function goes on
    with, or the error it returns at once: the error of the query unless it
    is [pgx.ErrNoRows], in which case the first date stays [now]. *)
Definition upsert (w : Worker) (schema table : string) (size : Int8)
  : M (option error) :=
  now <- Now ;;
  let tableSizeBytes := size_bytes size in
  scanned <- QueryRow_Scan schema table ;;
  first <- match scanned with
           | inr err =>
               if negb (is_ErrNoRows err) then ret (inr err) else ret (inl now)
           | inl pgdate =>
               match Timestamptz_Get_Time pgdate with
               | Some t => ret (inl t)
               | None => panic "interface conversion: interface {} is not time.Time"
               end
           end ;;
  match first with
  | inr err => ret (Some err)
  | inl firstDate =>
      let days := days_between now firstDate in
      let bytesPerDay := bytes_per_day tableSizeBytes days in
      Println (Measured table tableSizeBytes bytesPerDay) ;;
      let nowStr := RFC3339 now in
      err <- Exec (InsertUsage (usageSchema w) table tableSizeBytes nowStr
                               bytesPerDay) ;;
      match err with
      | Some e => ret (Some e)
      | None =>
          Gauge_Set table (float64 tableSizeBytes) ;;
          ret None
      end
  end.

Definition warning (table : string) : LogLine :=
  Text ("WARNING: Table " +:+ table +:+ " seems to no longer exist").

(** The loop [for rows.Next() { ... }] of [upsertWithQuery] over the rows
    that [rows.Scan] has read. *)
Fixpoint upsert_rows (w : Worker) (rows : list CatalogRow) : M (option error) :=
  match rows with
  | [] => ret None
  | row :: rest =>
      err <- upsert w (cat_schema row) (cat_name row) (cat_size row) ;;
      match err with
      | Some e =>
          if errIsTableDoesNotExist e then
            Println (warning (cat_name row)) ;;
            upsert_rows w rest
          else ret (Some e)
      | None => upsert_rows w rest
      end
  end.

(** [upsertWithQuery]: the error of [conn.Query] is returned at once;
    otherwise the loop runs over the rows scanned, and when none of its
    passes returns, the next pass returns the error of its [rows.Scan], or
    [rows.Next()] answers false and nil is returned. *)
Definition upsertWithQuery (w : Worker) (query : Stmt) : M (option error) :=
  opened <- Query query ;;
  match opened with
  | inr err => ret (Some err)
  | inl rows =>
      err <- upsert_rows w (scanned_rows rows) ;;
      match err with
      | Some e => ret (Some e)
      | None => ret (scan_error rows)
      end
  end.

Definition upsertTables (w : Worker) : M (option error) :=
  upsertWithQuery w SelectHypertables.

Definition upsertViews (w : Worker) : M (option error) :=
  upsertWithQuery w SelectContinuousAggregates.

Definition run (w : Worker) : M (option error) :=
  Println (Text "Starting Update..") ;;
  err <- upsertTables w ;;
  match err with
  | Some e => ret (Some e)
  | None =>
      err <- upsertViews w ;;
      match err with
      | Some e => ret (Some e)
      | None =>
          Println (Text "Cleanup") ;;
          err <- Exec (DeleteOutdated (usageSchema w) (sourceSchema w)) ;;
          match err with
          | Some e => ret (Some e)
          | None =>
              Println (Text "Done") ;;
              ret None
          end
      end
  end.

(** Modelled from the spec: [Worker.migrate], which [Start] calls and whose
    body is not among the sources.  By the spec it ensures, idempotently,
    that the usage schema and its one table exist, and its failure is
    fatal. *)
Definition migrate (w : Worker) : M (option error) :=
  err <- Exec (CreateSchema (usageSchema w)) ;;
  match err with
  | Some e => ret (Some e)
  | None => Exec (CreateUsageTable (usageSchema w))
  end.

(** What the [select] of [Start] receives, one element per pass of the
    loop: a tick of the ticker, or the end of the context. *)
Inductive Ready : Type :=
| Tick
| CtxDone.

(** The loop [for { select { ... } }] of [Start] over what its [select]
    receives.  When nothing more is received the goroutine stays blocked. *)
Fixpoint select_loop (w : Worker) (received : list Ready) : M (option error) :=
  match received with
  | [] => fun world => (Blocks, world)
  | Tick :: later =>
      err <- run w ;;
      match err with
      | Some e => ret (Some e)
      | None => select_loop w later
      end
  | CtxDone :: _ => ret None
  end.

(** [pgx.NewConnPool(...)]. *)
Definition NewConnPool : M (option error) := fun world =>
  (Returns (dial world), world).

(** [promauto.NewGaugeVec(...)]: a gauge vector without any series. *)
Definition NewGaugeVec : M unit := fun world =>
  (Returns tt, set_bytesMetrics world ∅).

(** [Start].  The context is given by what the [select] of the loop
    receives.  [defer conn.Close()] has no part in what follows and is left
    out. *)
Section Scheduler.
(** [time.ParseDuration], of the Go library. *)
Variable ParseDuration : string -> Duration + error.

Definition Start (ctx : list Ready) (config : configuration.Config)
  : M (option error) :=
  err <- NewConnPool ;;
  match err with
  | Some e => ret (Some e)
  | None =>
      NewGaugeVec ;;
      let w := {| config := config |} in
      err <- migrate w ;;
      match err with
      | Some e => ret (Some e)
      | None =>
          if (String.length (configuration.Duration config) =? 0)%nat then run w
          else
            match ParseDuration (configuration.Duration config) with
            | inr e => ret (Some e)
            | inl d =>
                if (d <=? 0)%Z then
                  panic "non-positive interval for NewTicker"
                else
                  err <- run w ;;
                  match err with
                  | Some e => ret (Some e)
                  | None => select_loop w ctx
                  end
            end
      end
  end.
End Scheduler.

(** * Vocabulary of the properties *)

Definition row_of (table : string) (bytes updated_at : Z) (bytes_per_day : float)
  : UsageRow :=
  {| u_table := table; u_bytes := bytes; u_updated_at := updated_at;
     u_bytes_per_day := bytes_per_day |}.

(** The rows of the table whose key is [table]. *)
Definition rows_of (table : string) (rows : list UsageRow) : list UsageRow :=
  filter (fun r => u_table r = table) rows.

(** The key of the table is unique. *)
Definition primary_key (rows : list UsageRow) : Prop :=
  NoDup (map u_table rows).

(** The first recorded timestamp of an object at the time [Tn]: the
    earliest value of its column [time], or [Tn] when it has no rows. *)
Inductive first_recorded (db : Database) (schema table : string) (Tn : Time)
  : Time -> Prop :=
| earliest_row (col : list Timestamptz) (T0 : Time) :
    relations db !! (schema, table) = Some {| rel_time := Some col |} ->
    first_time col = Some (TsPresent T0) ->
    first_recorded db schema table Tn T0
| no_rows :
    relations db !! (schema, table) = Some {| rel_time := Some [] |} ->
    first_recorded db schema table Tn Tn.

(** The world after an upsert that went through. *)
Definition upserted (w : Worker) (world : World) (schema table : string)
    (bytes : Z) (Tn T0 : Time) (rows : list UsageRow) : World :=
  let rate := bytes_per_day bytes (days_between Tn T0) in
  let db := database world in
  {| database :=
       set_usage db (<[usageSchema w :=
                         insert_usage rows table bytes (RFC3339 Tn) rate]> (usage db));
     statements :=
       (statements world ++ [SelectFirstTime schema table]) ++
       [InsertUsage (usageSchema w) table bytes (RFC3339 Tn) rate];
     faults := faults world;
     readings := readings world;
     dial := dial world;
     clock := clock world;
     clock_reads := S (clock_reads world);
     logged := logged world ++ [Measured table bytes rate];
     bytesMetrics := <[table := float64 bytes]> (bytesMetrics world) |}.


(** ** A small world, for the examples

    Schema [src] holds the hypertable [sensor_data], whose first row is two
    days old, the hypertable [empty], without rows and without a size, and
    the continuous aggregate [future], whose first row is dated tomorrow.
    The hypertable [gone] is still listed by the catalog but has been
    dropped.  The usage table holds a row for [old], an object that exists
    no more. *)

Definition sample_now : Time := (1700000000 * Second)%Z.

Definition sample_database : Database :=
  {| hypertables :=
       [ {| cat_schema := "src"; cat_name := "sensor_data";
            cat_size := Int8Present 1048576 |};
         {| cat_schema := "src"; cat_name := "gone"; cat_size := Int8Null |};
         {| cat_schema := "src"; cat_name := "empty"; cat_size := Int8Null |} ];
     continuous_aggregates :=
       [ {| cat_schema := "src"; cat_name := "future";
            cat_size := Int8Present 1024 |} ];
     relations :=
       {[ ("src", "sensor_data") :=
            {| rel_time := Some [TsPresent sample_now;
                                 TsPresent (sample_now - 2 * 24 * Hour)%Z] |};
          ("src", "empty") := {| rel_time := Some [] |};
          ("src", "future") :=
            {| rel_time := Some [TsPresent (sample_now + 24 * Hour)%Z] |} ]};
     usage := {[ "usage" := [ row_of "old" 1 0 (float64 0) ] ]} |}.

Definition sample_world : World :=
  {| database := sample_database;
     statements := [];
     faults := fun _ => None;
     readings := fun _ => AtQuery;
     dial := None;
     clock := fun _ => sample_now;
     clock_reads := 0;
     logged := [];
     bytesMetrics := ∅ |}.

Definition sample_config : configuration.Config :=
  {| configuration.PostgresUsageSchema := "usage";
     configuration.PostgresSourceSchema := "src";
     configuration.Duration := EmptyString |}.

Definition sample_worker : Worker := {| config := sample_config |}.

(** ** Ages, for the examples

    Schema [src] holds the hypertable [annals], whose first row is dated
    1600-01-01T00:00:00Z, and the hypertable [recent], whose first row is
    thirty-six hours old. *)

Definition year_1600 : Time := (-11676096000 * Second)%Z.

Definition annals_database : Database :=
  {| hypertables :=
       [ {| cat_schema := "src"; cat_name := "annals";
            cat_size := Int8Present 1048576 |};
         {| cat_schema := "src"; cat_name := "recent";
            cat_size := Int8Present 3145728 |} ];
     continuous_aggregates := [];
     relations :=
       {[ ("src", "annals") :=
            {| rel_time := Some [TsPresent sample_now; TsPresent year_1600] |};
          ("src", "recent") :=
            {| rel_time := Some [TsPresent (sample_now - 36 * Hour)%Z;
                                 TsPresent sample_now] |} ]};
     usage := {[ "usage" := [] ]} |}.

Definition annals_world : World :=
  {| database := annals_database;
     statements := [];
     faults := fun _ => None;
     readings := fun _ => AtQuery;
     dial := None;
     clock := fun _ => sample_now;
     clock_reads := 0;
     logged := [];
     bytesMetrics := ∅ |}.

(** The rate in the words of the specification, to compare the code with:
    the size divided by [(Tn - T0)] in days, a floating-point division, when
    that age is not zero, and [0] when it is. *)
Definition spec_age_in_days (Tn T0 : Time) : float :=
  PrimFloat.div (float64 (Tn - T0)) (float64 (24 * Hour)).

Definition spec_bytes_per_day (S : Z) (Tn T0 : Time) : float :=
  let age := spec_age_in_days Tn T0 in
  if PrimFloat.eqb age (float64 0) then float64 0
  else PrimFloat.div (float64 S) age.

(** ** What a computation leaves as it is *)

(** [preserves R m]: whatever [m] does and however it ends, the world it
    leaves is related by [R] to the world it started in. *)
Definition preserves (R : World -> World -> Prop) {A : Type} (m : M A) : Prop :=
  forall world, R world (snd (m world)).

(** The worker changes neither the faults to come, nor the clock, nor the
    catalogs, nor the relations it measures. *)
Record same_surroundings (a b : World) : Prop := {
  same_faults : faults a = faults b;
  same_readings : readings a = readings b;
  same_dial : dial a = dial b;
  same_clock : clock a = clock b;
  same_hypertables : hypertables (database a) = hypertables (database b);
  same_continuous_aggregates :
    continuous_aggregates (database a) = continuous_aggregates (database b);
  same_relations : relations (database a) = relations (database b);
}.

(** No series of the gauge vector disappears. *)
Definition gauge_grows (a b : World) : Prop :=
  dom (bytesMetrics a) ⊆ dom (bytesMetrics b).

(** The usage table of a schema, once there, stays. *)
Definition usage_stays (schema : string) (a b : World) : Prop :=
  is_Some (usage (database a) !! schema) -> is_Some (usage (database b) !! schema).

(** Statements are only ever added to the history. *)
Definition history_grows (a b : World) : Prop :=
  statements a `prefix_of` statements b.

(** ** The two halves of an upsert *)

(** What the scan of the first-time query of an object yields in a world:
    the fault planned for the statement, or the answer of the server. *)
Definition scanned (world : World) (schema table : string) : Timestamptz + error :=
  match faults world (length (statements world)) with
  | Some err => inr err
  | None => select_first_time (database world) schema table
  end.

(** The first date that the upsert works with, when it gets that far: the
    scanned time, or the current time when there are no rows. *)
Definition firstDate_of (world : World) (schema table : string) : option Time :=
  match scanned world schema table with
  | inl pgdate => Timestamptz_Get_Time pgdate
  | inr err => if is_ErrNoRows err then Some (clock world (clock_reads world)) else None
  end.

(** The world once the object is measured and the measure is logged. *)
Definition measured (world : World) (schema table : string) (bytes : Z)
    (rate : float) : World :=
  add_logged (add_statement (add_clock_read world) (SelectFirstTime schema table))
             (Measured table bytes rate).

(** The upsert statement of an object of [bytes] bytes at the time [Tn],
    first recorded at [T0]. *)
Definition insert_of (w : Worker) (table : string) (bytes : Z) (Tn T0 : Time)
  : Stmt :=
  InsertUsage (usageSchema w) table bytes (RFC3339 Tn)
              (bytes_per_day bytes (days_between Tn T0)).

(** ** The cycle, object by object *)

(** What the cycle does once the views are through, and once the tables
    are through. *)
Definition after_views (w : Worker) (err : option error) : M (option error) :=
  match err with
  | Some e => ret (Some e)
  | None =>
      Println (Text "Cleanup") ;;
      err <- Exec (DeleteOutdated (usageSchema w) (sourceSchema w)) ;;
      match err with
      | Some e => ret (Some e)
      | None =>
          Println (Text "Done") ;;
          ret None
      end
  end.

Definition after_tables (w : Worker) (err : option error) : M (option error) :=
  match err with
  | Some e => ret (Some e)
  | None =>
      err <- upsertViews w ;;
      after_views w err
  end.


(** ** The steps of a cycle *)

(** A statement without the values it carries over from the clock. *)
Inductive Step : Type :=
| Migrating
| Listing (views : bool)
| Measuring (schema table : string)
| Recording (table : string) (bytes : Z)
| Reconciling.

Definition step_of (s : Stmt) : Step :=
  match s with
  | CreateSchema _ | CreateUsageTable _ => Migrating
  | SelectHypertables => Listing false
  | SelectContinuousAggregates => Listing true
  | SelectFirstTime schema table => Measuring schema table
  | InsertUsage _ table bytes _ _ => Recording table bytes
  | DeleteOutdated _ _ => Reconciling
  end.

(** The steps of an upsert that goes through: the object is measured, then
    recorded. *)
Definition upsert_steps (row : CatalogRow) : list Step :=
  [ Measuring (cat_schema row) (cat_name row);
    Recording (cat_name row) (size_bytes (cat_size row)) ].

Definition is_Measuring (s : Step) : bool :=
  match s with Measuring _ _ => true | _ => false end.

Definition is_Recording (s : Step) : bool :=
  match s with Recording _ _ => true | _ => false end.

Definition is_Reconciling (s : Step) : bool :=
  match s with Reconciling => true | _ => false end.

(** The number of steps of a kind. *)
Definition count (kind : Step -> bool) (steps : list Step) : nat :=
  length (List.filter kind steps).

(** An object can be measured: it is there, it has a column [time], and the
    earliest value of the column, if any, is a time. *)
Definition measurable (db : Database) (row : CatalogRow) : bool :=
  match select_first_time db (cat_schema row) (cat_name row) with
  | inl (TsPresent _) => true
  | inr ErrNoRows => true
  | _ => false
  end.

(** Nothing fails: no statement meets a fault, the usage table is there,
    and every listed object can be measured. *)
Record no_failures (w : Worker) (world : World) : Prop := {
  no_fault : forall k, faults world k = None;
  usage_there : is_Some (usage (database world) !! usageSchema w);
  tables_measurable :
    forallb (measurable (database world)) (hypertables (database world)) = true;
  views_measurable :
    forallb (measurable (database world))
            (continuous_aggregates (database world)) = true;
}.

(** The same world once the catalog has forgotten the dropped hypertable. *)
Definition quiet_database : Database :=
  {| hypertables :=
       [ {| cat_schema := "src"; cat_name := "sensor_data";
            cat_size := Int8Present 1048576 |};
         {| cat_schema := "src"; cat_name := "empty"; cat_size := Int8Null |} ];
     continuous_aggregates := continuous_aggregates sample_database;
     relations := relations sample_database;
     usage := usage sample_database |}.

Definition quiet_world : World :=
  {| database := quiet_database;
     statements := [];
     faults := fun _ => None;
     readings := fun _ => AtQuery;
     dial := None;
     clock := fun _ => sample_now;
     clock_reads := 0;
     logged := [];
     bytesMetrics := ∅ |}.

(** ** The scheduler, by its cycles *)

(** Up to [n] cycles one after the other: the first error ends them. *)
Fixpoint cycles (w : Worker) (n : nat) : M (option error) :=
  match n with
  | 0 => ret None
  | S n' =>
      err <- run w ;;
      match err with
      | Some e => ret (Some e)
      | None => cycles w n'
      end
  end.

(** A stand-in for [time.ParseDuration] that knows one duration. *)
Definition sample_ParseDuration (s : string) : Duration + error :=
  if String.eqb s "1h" then inl Hour
  else inr (errorString "time: invalid duration").

Definition hourly_config : configuration.Config :=
  {| configuration.PostgresUsageSchema := "usage";
     configuration.PostgresSourceSchema := "src";
     configuration.Duration := "1h" |}.

(** ** The order of a cycle *)

Definition is_upsert_step (s : Step) : bool :=
  is_Measuring s || is_Recording s.

(** The steps of a cycle, however far it gets: the listing of the tables
    and steps of upserts; then, if the cycle goes on, the listing of the
    views and steps of upserts; then, if it goes on, the reconciling
    delete. *)
Definition in_cycle_order (steps : list Step) : Prop :=
  exists (ts vs after_ts after_vs : list Step),
    steps = Listing false :: ts ++ after_ts /\
    forallb is_upsert_step ts = true /\
    (after_ts = [] \/ after_ts = Listing true :: vs ++ after_vs) /\
    forallb is_upsert_step vs = true /\
    (after_vs = [] \/ after_vs = [Reconciling]).

(** The quiet world with a connection that is lost on the statement of
    index [k]. *)
Definition lossy_world (k : nat) : World :=
  {| database := quiet_database;
     statements := [];
     faults := fun i => if (i =? k)%nat then Some (errorString "unexpected EOF")
                        else None;
     readings := fun _ => AtQuery;
     dial := None;
     clock := fun _ => sample_now;
     clock_reads := 0;
     logged := [];
     bytesMetrics := ∅ |}.

(** * Vocabulary of the further properties *)

(** Every usage table of the world has a unique key. *)
Definition keyed (world : World) : Prop :=
  forall schema rows,
    usage (database world) !! schema = Some rows -> primary_key rows.

(** The rows of the usage table of a schema, none when there is no table. *)
Definition usage_rows (world : World) (schema : string) : list UsageRow :=
  default [] (usage (database world) !! schema).

(** The usage schema that a statement writes to, if it writes. *)
Definition written_schema (s : Stmt) : option string :=
  match s with
  | CreateSchema u | CreateUsageTable u => Some u
  | InsertUsage u _ _ _ _ => Some u
  | DeleteOutdated u _ => Some u
  | SelectHypertables | SelectContinuousAggregates | SelectFirstTime _ _ => None
  end.

(** The name whose usage row a statement can change: one name for an
    insert, any name for a delete. *)
Definition touches (other : string) (s : Stmt) : Prop :=
  match s with
  | InsertUsage _ table _ _ _ => table = other
  | DeleteOutdated _ _ => True
  | _ => False
  end.

Definition is_delete (s : Stmt) : Prop :=
  match s with
  | DeleteOutdated _ _ => True
  | _ => False
  end.

(** Nothing about the object named [other] changes: neither its usage rows
    in any schema nor its series of the gauge. *)
Definition other_untouched (other : string) (a b : World) : Prop :=
  bytesMetrics b !! other = bytesMetrics a !! other /\
  forall schema, rows_of other (usage_rows b schema) = rows_of other (usage_rows a schema).

(** The usage tables of the schemas other than [u] stay as they are. *)
Definition other_schemas_untouched (u : string) (a b : World) : Prop :=
  forall schema, schema ≠ u ->
    usage (database b) !! schema = usage (database a) !! schema.

(** No usage table loses a name. *)
Definition names_kept (a b : World) : Prop :=
  forall schema rows,
    usage (database a) !! schema = Some rows ->
    exists rows',
      usage (database b) !! schema = Some rows' /\
      forall table, table ∈ map u_table rows -> table ∈ map u_table rows'.

(** The invariant of the usage tables, as a relation between worlds. *)
Definition keyed_kept (a b : World) : Prop := keyed a -> keyed b.



(** The quiet world with a second relation named [sensor_data], in the
    schema [archive]. *)
Definition twin_world : World :=
  {| database :=
       {| hypertables := hypertables quiet_database;
          continuous_aggregates := continuous_aggregates quiet_database;
          relations :=
            <[("archive", "sensor_data") :=
                {| rel_time := Some [TsPresent (sample_now - 24 * Hour)%Z] |}]>
              (relations quiet_database);
          usage := usage quiet_database |};
     statements := [];
     faults := fun _ => None;
     readings := fun _ => AtQuery;
     dial := None;
     clock := fun _ => sample_now;
     clock_reads := 0;
     logged := [];
     bytesMetrics := ∅ |}.

(** A configuration whose interval no duration can be read from. *)
Definition vague_config : configuration.Config :=
  {| configuration.PostgresUsageSchema := "usage";
     configuration.PostgresSourceSchema := "src";
     configuration.Duration := "soon" |}.

(** The usage table of the worker has exactly one row for the object, and
    the row holds the listed size of the object. *)
Definition recorded_in (w : Worker) (world : World) (row : CatalogRow) : Prop :=
  exists updated_at rate,
    rows_of (cat_name row) (usage_rows world (usageSchema w)) =
    [row_of (cat_name row) (size_bytes (cat_size row)) updated_at rate].

(** The series of the object holds its listed size. *)
Definition gauged_in (world : World) (row : CatalogRow) : Prop :=
  bytesMetrics world !! cat_name row = Some (float64 (size_bytes (cat_size row))).

(** The quiet world without any usage table. *)
Definition bare_world : World :=
  {| database :=
       {| hypertables := hypertables quiet_database;
          continuous_aggregates := continuous_aggregates quiet_database;
          relations := relations quiet_database;
          usage := ∅ |};
     statements := [];
     faults := fun _ => None;
     readings := fun _ => AtQuery;
     dial := None;
     clock := fun _ => sample_now;
     clock_reads := 0;
     logged := [];
     bytesMetrics := ∅ |}.

(** The quiet world in which the first statement, the listing of the
    hypertables, meets an error that strikes as [reading] says. *)
Definition struck_world (reading : Reading) : World :=
  {| database := quiet_database;
     statements := [];
     faults := fun i => if (i =? 0)%nat then Some (errorString "unexpected EOF")
                        else None;
     readings := fun _ => reading;
     dial := None;
     clock := fun _ => sample_now;
     clock_reads := 0;
     logged := [];
     bytesMetrics := ∅ |}.

(** The name that [name] has a row under in the usage table of the schema
    [u] is kept, as long as one of the two catalogs lists it for the schema
    [source]; the catalogs stay as they are. *)
Definition listed_name_kept (u source name : string) (a b : World) : Prop :=
  hypertables (database b) = hypertables (database a) /\
  continuous_aggregates (database b) = continuous_aggregates (database a) /\
  (name ∈ names_in source (hypertables (database a)) \/
   name ∈ names_in source (continuous_aggregates (database a)) ->
   forall rows,
     usage (database a) !! u = Some rows -> name ∈ map u_table rows ->
     exists rows',
       usage (database b) !! u = Some rows' /\ name ∈ map u_table rows').
(** * Properties *)

(** ** Time and growth rate *)

Lemma Sub_diag (t : Time) : Sub t t = 0%Z.
Proof. unfold Sub. rewrite Z.sub_diag. reflexivity. Qed.

(** Within the range of an int64 the duration is the exact difference. *)
Lemma Sub_exact (t u : Time) :
  (minDuration <= t - u <= maxDuration)%Z -> Sub t u = (t - u)%Z.
Proof.
  intros [Hlo Hhi]. unfold Sub. cbv zeta.
  destruct (Z.ltb_spec (t - u) minDuration) as [Hlt|_]; [lia|].
  destruct (Z.ltb_spec maxDuration (t - u)) as [Hgt|_]; [lia|reflexivity].
Qed.

(** Beyond it, about 292 years, the duration is the bound. *)
Lemma Sub_saturates (t u : Time) :
  (maxDuration < t - u)%Z -> Sub t u = maxDuration.
Proof.
  intros Hgt. unfold Sub. cbv zeta.
  destruct (Z.ltb_spec (t - u) minDuration) as [Hlt|_].
  - unfold minDuration, maxDuration in *. lia.
  - destruct (Z.ltb_spec maxDuration (t - u)); [reflexivity|lia].
Qed.

Lemma days_between_diag (t : Time) : days_between t t = float64 0.
Proof. unfold days_between. rewrite Sub_diag. reflexivity. Qed.

Lemma bytes_per_day_zero_age (tableSizeBytes : Z) :
  bytes_per_day tableSizeBytes (float64 0) = float64 0.
Proof. reflexivity. Qed.

(** An age of one nanosecond, either way, is not zero. *)
Example days_between_one_nanosecond (now : Time) :
  PrimFloat.eqb (days_between (now + 1)%Z now) (float64 0) = false /\
  PrimFloat.eqb (days_between now (now + 1)%Z) (float64 0) = false.
Proof.
  unfold days_between. rewrite !Sub_exact.
  - replace (now + 1 - now)%Z with 1%Z by lia.
    replace (now - (now + 1))%Z with (-1)%Z by lia.
    split; vm_compute; reflexivity.
  - unfold minDuration, maxDuration. lia.
  - unfold minDuration, maxDuration. lia.
Qed.

(** The scenario of the spec: 1 MiB, first row two days ago. *)
Example bytes_per_day_two_days (now : Time) :
  bytes_per_day 1048576 (days_between now (now - 2 * 24 * Hour)%Z) = float64 524288.
Proof.
  unfold days_between. rewrite Sub_exact.
  - replace (now - (now - 2 * 24 * Hour))%Z with (2 * 24 * Hour)%Z by lia.
    vm_compute. reflexivity.
  - unfold minDuration, maxDuration, Hour, Second. lia.
Qed.

(** ** The earliest value of a column *)

Lemma ts_leb_refl (a : Timestamptz) : ts_leb a a = true.
Proof. destruct a; simpl; try reflexivity. apply Z.leb_refl. Qed.

Lemma ts_leb_total (a b : Timestamptz) : ts_leb a b = false -> ts_leb b a = true.
Proof.
  destruct a, b; simpl; try reflexivity; try discriminate.
  intros H. apply Z.leb_gt in H. apply Z.leb_le. lia.
Qed.

Lemma ts_leb_trans (a b c : Timestamptz) :
  ts_leb a b = true -> ts_leb b c = true -> ts_leb a c = true.
Proof.
  destruct a, b, c; simpl; try reflexivity; try discriminate.
  intros H1 H2. apply Z.leb_le in H1, H2. apply Z.leb_le. lia.
Qed.

Lemma fold_earliest (vs : list Timestamptz) (v : Timestamptz) :
  let m := fold_left (fun m x => if ts_leb m x then m else x) vs v in
  m ∈ v :: vs /\ forall x, x ∈ v :: vs -> ts_leb m x = true.
Proof.
  revert v. induction vs as [|y vs IH]; intros v; simpl.
  - split; [apply list_elem_of_here|].
    intros x Hx. apply list_elem_of_singleton in Hx. subst x. apply ts_leb_refl.
  - destruct (ts_leb v y) eqn:Hvy.
    + destruct (IH v) as [Hin Hle]. split.
      * apply elem_of_cons in Hin as [->|Hin];
          [apply list_elem_of_here|do 2 apply list_elem_of_further; exact Hin].
      * intros x Hx. apply elem_of_cons in Hx as [->|Hx].
        -- apply Hle. apply list_elem_of_here.
        -- apply elem_of_cons in Hx as [->|Hx].
           ++ eapply ts_leb_trans; [|exact Hvy]. apply Hle. apply list_elem_of_here.
           ++ apply Hle. apply list_elem_of_further. exact Hx.
    + destruct (IH y) as [Hin Hle]. split.
      * apply list_elem_of_further. exact Hin.
      * intros x Hx. apply elem_of_cons in Hx as [->|Hx].
        -- eapply ts_leb_trans; [|apply ts_leb_total; exact Hvy].
           apply Hle. apply list_elem_of_here.
        -- apply Hle. exact Hx.
Qed.

(** [first_time] is a value of the column that no other value precedes. *)
Lemma first_time_earliest (col : list Timestamptz) (v : Timestamptz) :
  first_time col = Some v -> v ∈ col /\ forall x, x ∈ col -> ts_leb v x = true.
Proof.
  destruct col as [|v0 vs]; [discriminate|]. simpl. intros [= <-].
  apply fold_earliest.
Qed.

(** ** The usage table *)

Lemma has_key_false (table : string) (rows : list UsageRow) :
  has_key table rows = false <-> table ∉ map u_table rows.
Proof.
  unfold has_key. induction rows as [|r rows IH]; simpl.
  - split; [intros _; apply not_elem_of_nil|reflexivity].
  - rewrite orb_false_iff, IH, not_elem_of_cons.
    destruct (String.eqb_spec (u_table r) table); split; intros [? ?];
      try discriminate; try congruence; auto.
Qed.

Lemma rows_of_absent (table : string) (rows : list UsageRow) :
  table ∉ map u_table rows -> rows_of table rows = [].
Proof.
  unfold rows_of. induction rows as [|r rows IH]; simpl; [reflexivity|].
  rewrite not_elem_of_cons. intros [Hne Hnotin].
  rewrite filter_cons. case_decide; [congruence|auto].
Qed.

Lemma insert_usage_keys (rows : list UsageRow) table bytes updated_at rate :
  map u_table (insert_usage rows table bytes updated_at rate) =
  if has_key table rows then map u_table rows else map u_table rows ++ [table].
Proof.
  unfold insert_usage. destruct (has_key table rows).
  - rewrite map_map. apply map_ext. intros r. unfold overwrite.
    destruct (String.eqb (u_table r) table); reflexivity.
  - rewrite map_app. reflexivity.
Qed.

Lemma insert_usage_has_key (rows : list UsageRow) table bytes updated_at rate :
  has_key table (insert_usage rows table bytes updated_at rate) = true.
Proof.
  destruct (has_key table (insert_usage rows table bytes updated_at rate)) eqn:E;
    [reflexivity|].
  apply has_key_false in E. rewrite insert_usage_keys in E.
  destruct (has_key table rows) eqn:E'.
  - apply has_key_false in E. congruence.
  - exfalso. apply E. apply elem_of_app. right. apply list_elem_of_singleton.
    reflexivity.
Qed.

Lemma insert_usage_primary_key (rows : list UsageRow) table bytes updated_at rate :
  primary_key rows -> primary_key (insert_usage rows table bytes updated_at rate).
Proof.
  unfold primary_key. intros Hkey. rewrite insert_usage_keys.
  destruct (has_key table rows) eqn:E; [exact Hkey|].
  apply has_key_false in E. apply NoDup_app. split; [exact Hkey|]. split.
  - intros x Hx Hx'. apply list_elem_of_singleton in Hx'. subst x. auto.
  - apply NoDup_singleton.
Qed.

Section InsertUsage.
Variables (table : string) (bytes updated_at : Z) (rate : float).

Local Abbreviation overwrite := (overwrite table bytes updated_at rate).

Lemma overwrite_key r : u_table (overwrite r) = u_table r.
Proof. unfold overwrite. destruct (String.eqb (u_table r) table); reflexivity. Qed.

Lemma overwrite_hit r : u_table r = table -> overwrite r = row_of table bytes updated_at rate.
Proof.
  intros H. unfold overwrite. rewrite H, String.eqb_refl. reflexivity.
Qed.

Lemma overwrite_miss r : u_table r ≠ table -> overwrite r = r.
Proof.
  intros H. unfold overwrite.
  destruct (String.eqb_spec (u_table r) table); [contradiction|reflexivity].
Qed.

Lemma overwrite_overwrite r : overwrite (overwrite r) = overwrite r.
Proof.
  destruct (decide (u_table r = table)) as [H|H].
  - rewrite (overwrite_hit r H). apply overwrite_hit. reflexivity.
  - rewrite (overwrite_miss r H). apply overwrite_miss. exact H.
Qed.

Lemma map_overwrite_absent rows :
  table ∉ map u_table rows -> map overwrite rows = rows.
Proof.
  induction rows as [|r rows IH]; simpl; [reflexivity|].
  rewrite not_elem_of_cons. intros [Hne Hnotin].
  rewrite overwrite_miss by congruence. rewrite IH by assumption. reflexivity.
Qed.

Lemma rows_of_map_overwrite rows :
  primary_key rows -> table ∈ map u_table rows ->
  rows_of table (map overwrite rows) = [row_of table bytes updated_at rate].
Proof.
  unfold primary_key, rows_of.
  induction rows as [|r rows IH]; simpl; intros Hkey Hin.
  - apply elem_of_nil in Hin. contradiction.
  - apply NoDup_cons in Hkey as [Hfresh Hkey]. rewrite filter_cons.
    destruct (decide (u_table r = table)) as [Heq|Hne].
    + rewrite (overwrite_hit r Heq). simpl.
      case_decide; [|congruence]. f_equal.
      rewrite map_overwrite_absent by congruence.
      apply rows_of_absent. congruence.
    + rewrite (overwrite_miss r Hne). case_decide; [congruence|].
      apply IH; [exact Hkey|].
      apply elem_of_cons in Hin as [Hin|Hin]; [congruence|exact Hin].
Qed.

Lemma insert_usage_eq rows :
  insert_usage rows table bytes updated_at rate =
  if has_key table rows then map overwrite rows
  else rows ++ [row_of table bytes updated_at rate].
Proof. reflexivity. Qed.

(** After the statement the table has exactly one row for [table], and it
    holds the values of the statement. *)
Lemma rows_of_insert_usage rows :
  primary_key rows ->
  rows_of table (insert_usage rows table bytes updated_at rate) =
  [row_of table bytes updated_at rate].
Proof.
  intros Hkey. rewrite insert_usage_eq. destruct (has_key table rows) eqn:E.
  - apply rows_of_map_overwrite; [exact Hkey|].
    destruct (decide (table ∈ map u_table rows)) as [Hin|Hnotin]; [exact Hin|].
    apply has_key_false in Hnotin. congruence.
  - apply has_key_false in E. unfold rows_of. rewrite filter_app.
    fold (rows_of table rows). rewrite rows_of_absent by exact E.
    rewrite filter_cons. simpl. case_decide; [reflexivity|congruence].
Qed.

(** Without the key constraint every row of [table] still holds the values
    of the statement, and there is one. *)
Lemma insert_usage_values rows r :
  r ∈ insert_usage rows table bytes updated_at rate -> u_table r = table ->
  r = row_of table bytes updated_at rate.
Proof.
  rewrite insert_usage_eq. destruct (has_key table rows) eqn:E; intros Hin Hk.
  - apply list_elem_of_fmap in Hin as [r0 [-> Hr0]].
    apply overwrite_hit. rewrite overwrite_key in Hk. exact Hk.
  - apply elem_of_app in Hin as [Hin|Hin].
    + apply has_key_false in E. exfalso. apply E. rewrite <- Hk.
      apply list_elem_of_fmap. exists r. auto.
    + apply list_elem_of_singleton in Hin. exact Hin.
Qed.

(** The rows of the other objects are not touched. *)
Lemma rows_of_insert_usage_other rows other :
  other ≠ table ->
  rows_of other (insert_usage rows table bytes updated_at rate) = rows_of other rows.
Proof.
  intros Hne. rewrite insert_usage_eq. unfold rows_of.
  destruct (has_key table rows).
  - induction rows as [|r rows IH]; simpl; [reflexivity|].
    rewrite !filter_cons, overwrite_key.
    case_decide as Hk.
    + rewrite overwrite_miss by congruence. f_equal. exact IH.
    + exact IH.
  - rewrite filter_app, filter_cons. simpl.
    case_decide; [congruence|]. rewrite filter_nil. apply app_nil_r.
Qed.

Lemma insert_usage_idempotent rows :
  insert_usage (insert_usage rows table bytes updated_at rate)
               table bytes updated_at rate =
  insert_usage rows table bytes updated_at rate.
Proof.
  rewrite (insert_usage_eq (insert_usage _ _ _ _ _)).
  rewrite insert_usage_has_key. rewrite insert_usage_eq.
  destruct (has_key table rows) eqn:E.
  - rewrite map_map. apply map_ext. intros r. apply overwrite_overwrite.
  - apply has_key_false in E. rewrite map_app. simpl.
    rewrite map_overwrite_absent by exact E.
    rewrite overwrite_hit by reflexivity. reflexivity.
Qed.
End InsertUsage.

(** ** One upsert *)

Lemma first_recorded_select db schema table Tn T0 :
  first_recorded db schema table Tn T0 ->
  select_first_time db schema table = inl (TsPresent T0) \/
  (select_first_time db schema table = inr ErrNoRows /\ T0 = Tn).
Proof.
  intros [col T0' Hrel Hfirst|Hrel]; unfold select_first_time; rewrite Hrel; simpl.
  - rewrite Hfirst. left. reflexivity.
  - right. split; reflexivity.
Qed.

Lemma upsert_returns (w : Worker) (world : World) (schema table : string)
    (size : Int8) (T0 : Time) (rows : list UsageRow) :
  let Tn := clock world (clock_reads world) in
  faults world (length (statements world)) = None ->
  faults world (S (length (statements world))) = None ->
  first_recorded (database world) schema table Tn T0 ->
  usage (database world) !! usageSchema w = Some rows ->
  upsert w schema table size world =
  (Returns None, upserted w world schema table (size_bytes size) Tn T0 rows).
Proof.
  intros Tn Hf1 Hf2 Hfirst Husage.
  apply first_recorded_select in Hfirst.
  unfold upsert, bind, Now, QueryRow_Scan, send, Exec, bind, Println, Gauge_Set, ret.
  simpl. rewrite Hf1. simpl.
  destruct Hfirst as [Hsel|[Hsel ->]]; rewrite Hsel; simpl;
    rewrite length_app, Nat.add_comm; simpl; rewrite Hf2; simpl;
    rewrite Husage; reflexivity.
Qed.

Lemma insert_usage_row_in (rows : list UsageRow) table bytes updated_at rate :
  row_of table bytes updated_at rate ∈ insert_usage rows table bytes updated_at rate.
Proof.
  rewrite insert_usage_eq. destruct (has_key table rows) eqn:E.
  - destruct (decide (table ∈ map u_table rows)) as [Hin|Hnotin].
    + apply list_elem_of_fmap in Hin as [r [Hk Hr]].
      apply list_elem_of_fmap. exists r. split; [|exact Hr].
      symmetry. apply overwrite_hit. congruence.
    + apply has_key_false in Hnotin. congruence.
  - apply elem_of_app. right. apply list_elem_of_singleton. reflexivity.
Qed.

(** The duration between two instants is their difference, brought into
    the range of an int64. *)
Lemma Sub_clamp (t u : Time) :
  Sub t u = Z.max (- 9223372036854775808) (Z.min 9223372036854775807 (t - u)).
Proof.
  unfold Sub. cbv zeta.
  change minDuration with (- 9223372036854775808)%Z.
  change maxDuration with 9223372036854775807%Z.
  destruct (Z.ltb_spec (t - u) (- 9223372036854775808)) as [Hlt|Hge]; [lia|].
  destruct (Z.ltb_spec 9223372036854775807 (t - u)) as [Hgt|Hle]; lia.
Qed.

(** The age in days, with the arithmetic of [Sub] and [Hours] written out. *)
Lemma days_between_clamp (now firstDate : Time) :
  let d := Z.max (- 9223372036854775808)
                 (Z.min 9223372036854775807 (now - firstDate)) in
  days_between now firstDate =
  PrimFloat.div
    (PrimFloat.add (float64 (Z.quot d 3600000000000))
                   (PrimFloat.div (float64 (Z.rem d 3600000000000))
                                  (float64 3600000000000)))
    (float64 24).
Proof.
  intros d. unfold days_between, Hours. cbv zeta. rewrite Sub_clamp. fold d.
  change Hour with 3600000000000%Z.
  change (60 * 60 * 1000000000)%Z with 3600000000000%Z. reflexivity.
Qed.

(** C1. An upsert of an object of size [S] at the time [Tn], whose first
    recorded timestamp is [T0] (the earliest value of its column [time], or
    [Tn] itself when it has no rows), returns without error or panic and
    leaves a usage row for the object; every usage row of the object then
    holds [S] and the rate [S / days], a floating-point division, when the
    age [days] is not zero, and exactly [0] when it is zero, which is the
    case when [T0] is [Tn].  The age is that of the duration [d] between the
    two instants: their difference [Tn - T0] in nanoseconds when it fits an
    int64, which it does up to about 292.47 years either way, and the
    nearest bound of the int64 range beyond; [days] is the whole hours of
    [d] plus the remaining fraction of an hour, divided by 24. *)
Theorem upsert_bytes_per_day (w : Worker) (world : World) (schema table : string)
    (size : Int8) (T0 : Time) (rows : list UsageRow) :
  let Tn := clock world (clock_reads world) in
  let S := size_bytes size in
  let d := Z.max (- 9223372036854775808)
                 (Z.min 9223372036854775807 (Tn - T0)) in
  let hours :=
    PrimFloat.add (float64 (Z.quot d 3600000000000))
                  (PrimFloat.div (float64 (Z.rem d 3600000000000))
                                 (float64 3600000000000)) in
  let days := PrimFloat.div hours (float64 24) in
  let rate := if PrimFloat.eqb days (float64 0) then float64 0
              else PrimFloat.div (float64 S) days in
  faults world (length (statements world)) = None ->
  faults world (Datatypes.S (length (statements world))) = None ->
  first_recorded (database world) schema table Tn T0 ->
  usage (database world) !! usageSchema w = Some rows ->
  exists (world' : World) (rows' : list UsageRow),
    upsert w schema table size world = (Returns None, world') /\
    usage (database world') !! usageSchema w = Some rows' /\
    (exists r, r ∈ rows' /\ u_table r = table) /\
    (forall r, r ∈ rows' -> u_table r = table ->
               u_bytes r = S /\ u_bytes_per_day r = rate) /\
    (T0 = Tn -> rate = float64 0) /\
    ((- 9223372036854775808 <= Tn - T0 <= 9223372036854775807)%Z ->
     d = (Tn - T0)%Z).
Proof.
  intros Tn S d hours days rate Hf1 Hf2 Hfirst Husage.
  assert (Hdays : days_between Tn T0 = days) by apply days_between_clamp.
  assert (Hrate : bytes_per_day S (days_between Tn T0) = rate).
  { rewrite Hdays. unfold bytes_per_day, rate.
    destruct (PrimFloat.eqb days (float64 0)); reflexivity. }
  eexists. eexists. split; [apply upsert_returns; eassumption|].
  unfold upserted. cbn [database set_usage usage]. fold Tn S. rewrite Hrate.
  split; [apply lookup_insert_eq|].
  split; [|split; [|split]].
  - eexists. split; [apply insert_usage_row_in|reflexivity].
  - intros r Hin Hk. apply insert_usage_values in Hin; [|exact Hk].
    subst r. split; reflexivity.
  - intros ->. unfold rate. rewrite <- Hdays, days_between_diag. reflexivity.
  - intros Hrange. unfold d. lia.
Qed.

Lemma upsert_bytes_per_day_witness :
  exists (world' : World) (rows' : list UsageRow),
    upsert sample_worker "src" "recent" (Int8Present 3145728) annals_world =
    (Returns None, world') /\
    usage (database world') !! "usage" = Some rows' /\
    (exists r, r ∈ rows' /\ u_table r = "recent") /\
    (forall r, r ∈ rows' -> u_table r = "recent" ->
               u_bytes r = 3145728%Z /\ u_bytes_per_day r = float64 2097152).
Proof.
  assert (Hfirst : first_recorded (database annals_world) "src" "recent"
                                  (clock annals_world (clock_reads annals_world))
                                  (sample_now - 36 * Hour)%Z)
    by (eapply earliest_row; vm_compute; reflexivity).
  assert (Husage : usage (database annals_world) !! usageSchema sample_worker =
                   Some []) by (vm_compute; reflexivity).
  destruct (upsert_bytes_per_day sample_worker annals_world "src" "recent"
              (Int8Present 3145728) (sample_now - 36 * Hour)%Z []
              eq_refl eq_refl Hfirst Husage)
    as (world' & rows' & Hupsert & Hrows' & Hrow & Hvalues & _).
  exists world', rows'. split; [exact Hupsert|]. split; [exact Hrows'|].
  split; [exact Hrow|]. intros r Hin Hname.
  destruct (Hvalues r Hin Hname) as [Hbytes Hrate].
  split; [exact Hbytes|]. rewrite Hrate. vm_compute. reflexivity.
Defined.

(** The rate recorded for an object whose first row is dated 1600-01-01,
    measured on 2023-11-14, is not its size divided by [(Tn - T0)] in days.
    The object is more than 154815 days old, its size of 1048576 bytes
    divided by that age is below 7 bytes a day, and the upsert records more
    than 9 bytes a day: the duration between the two instants does not fit
    an int64, and the age divided by is the 106751.99 days of the largest
    duration. *)
Lemma upsert_bytes_per_day_counterexample :
  let Tn := clock annals_world (clock_reads annals_world) in
  let T0 := year_1600 in
  first_recorded (database annals_world) "src" "annals" Tn T0 /\
  (154815 * 24 * Hour < Tn - T0)%Z /\
  exists (world' : World) (rows' : list UsageRow) (r : UsageRow),
    upsert sample_worker "src" "annals" (Int8Present 1048576) annals_world =
    (Returns None, world') /\
    usage (database world') !! "usage" = Some rows' /\
    rows_of "annals" rows' = [r] /\
    u_bytes_per_day r <> spec_bytes_per_day 1048576 Tn T0 /\
    PrimFloat.ltb (spec_bytes_per_day 1048576 Tn T0) (float64 7) = true /\
    PrimFloat.ltb (float64 9) (u_bytes_per_day r) = true.
Proof.
  cbv zeta.
  assert (Hfirst : first_recorded (database annals_world) "src" "annals"
                                  (clock annals_world (clock_reads annals_world))
                                  year_1600)
    by (eapply earliest_row; vm_compute; reflexivity).
  split; [exact Hfirst|]. split; [vm_compute; reflexivity|].
  exists (upserted sample_worker annals_world "src" "annals" 1048576
                   sample_now year_1600 []).
  eexists. eexists.
  split.
  { apply (upsert_returns sample_worker annals_world "src" "annals"
             (Int8Present 1048576) year_1600 []);
      [reflexivity|reflexivity|exact Hfirst|vm_compute; reflexivity]. }
  split; [vm_compute; reflexivity|].
  split; [vm_compute; reflexivity|].
  split; [|split; vm_compute; reflexivity].
  intros Heq.
  assert (Hlt : PrimFloat.ltb
                  (spec_bytes_per_day 1048576
                     (clock annals_world (clock_reads annals_world)) year_1600)
                  (spec_bytes_per_day 1048576
                     (clock annals_world (clock_reads annals_world)) year_1600)
                = false) by (vm_compute; reflexivity).
  rewrite <- Heq in Hlt at 2. vm_compute in Hlt. discriminate Hlt.
Qed.

(** Within the range of a duration the two agree on the examples: an age
    of thirty-six hours is 1.5 days either way. *)
Example spec_bytes_per_day_recent :
  bytes_per_day 3145728 (days_between sample_now (sample_now - 36 * Hour)%Z) =
    float64 2097152 /\
  spec_bytes_per_day 3145728 sample_now (sample_now - 36 * Hour)%Z =
    float64 2097152.
Proof. vm_compute. split; reflexivity. Qed.

(** C9. An object whose approximate size is null is upserted as an object
    of zero bytes: the upsert does in every world what it does for a size
    of [0], and where the measurement and the insert go through it returns
    without error, records [0] bytes and sets the gauge to [0]. *)
Theorem upsert_null_size (w : Worker) (world : World) (schema table : string)
    (T0 : Time) (rows : list UsageRow) :
  let Tn := clock world (clock_reads world) in
  faults world (length (statements world)) = None ->
  faults world (S (length (statements world))) = None ->
  first_recorded (database world) schema table Tn T0 ->
  usage (database world) !! usageSchema w = Some rows ->
  upsert w schema table Int8Null world =
  upsert w schema table (Int8Present 0) world /\
  exists (world' : World) (rows' : list UsageRow),
    upsert w schema table Int8Null world = (Returns None, world') /\
    usage (database world') !! usageSchema w = Some rows' /\
    (exists r, r ∈ rows' /\ u_table r = table) /\
    (forall r, r ∈ rows' -> u_table r = table -> u_bytes r = 0%Z) /\
    bytesMetrics world' !! table = Some (float64 0).
Proof.
  intros Tn Hf1 Hf2 Hfirst Husage. split; [reflexivity|].
  eexists. eexists. split; [apply upsert_returns; eassumption|].
  unfold upserted. cbn [database set_usage usage bytesMetrics].
  split; [apply lookup_insert_eq|]. split; [|split].
  - eexists. split; [apply insert_usage_row_in|reflexivity].
  - intros r Hin Hk. apply insert_usage_values in Hin; [|exact Hk].
    subst r. reflexivity.
  - apply lookup_insert_eq.
Qed.

Lemma upsert_null_size_witness :
  upsert sample_worker "src" "empty" Int8Null sample_world =
  upsert sample_worker "src" "empty" (Int8Present 0) sample_world /\
  exists (world' : World) (rows' : list UsageRow),
    upsert sample_worker "src" "empty" Int8Null sample_world =
    (Returns None, world') /\
    usage (database world') !! "usage" = Some rows' /\
    (exists r, r ∈ rows' /\ u_table r = "empty") /\
    (forall r, r ∈ rows' -> u_table r = "empty" -> u_bytes r = 0%Z) /\
    bytesMetrics world' !! "empty" = Some (float64 0).
Proof.
  apply (upsert_null_size sample_worker sample_world "src" "empty" sample_now
           [row_of "old" 1 0 (float64 0)]).
  - reflexivity.
  - reflexivity.
  - apply no_rows. vm_compute. reflexivity.
  - vm_compute. reflexivity.
Defined.

(** C10. There is an upsert of an object of positive size whose first
    recorded timestamp lies after the current time: its age in days is
    negative, the upsert returns without error all the same, and the rate
    it records is strictly negative. *)
Theorem upsert_future_first_time_negative_rate :
  exists (w : Worker) (world world' : World) (schema table : string)
         (S : Z) (T0 : Time) (rows' : list UsageRow) (r : UsageRow),
    let Tn := clock world (clock_reads world) in
    first_recorded (database world) schema table Tn T0 /\
    (Tn < T0)%Z /\ (0 < S)%Z /\
    PrimFloat.ltb (days_between Tn T0) (float64 0) = true /\
    upsert w schema table (Int8Present S) world = (Returns None, world') /\
    usage (database world') !! usageSchema w = Some rows' /\
    rows_of table rows' = [r] /\
    u_bytes_per_day r = bytes_per_day S (days_between Tn T0) /\
    PrimFloat.ltb (u_bytes_per_day r) (float64 0) = true.
Proof.
  assert (Hfirst : first_recorded sample_database "src" "future" sample_now
                                   (sample_now + 24 * Hour)%Z)
    by (eapply earliest_row; vm_compute; reflexivity).
  exists sample_worker, sample_world.
  exists (upserted sample_worker sample_world "src" "future" 1024 sample_now
                   (sample_now + 24 * Hour)%Z [row_of "old" 1 0 (float64 0)]).
  exists "src", "future", 1024%Z, (sample_now + 24 * Hour)%Z.
  exists [row_of "old" 1 0 (float64 0);
          row_of "future" 1024 1700000000 (float64 (-1024))].
  exists (row_of "future" 1024 1700000000 (float64 (-1024))).
  cbv zeta. split; [exact Hfirst|].
  split; [reflexivity|]. split; [reflexivity|].
  split; [vm_compute; reflexivity|].
  split.
  { apply (upsert_returns sample_worker sample_world "src" "future"
             (Int8Present 1024) (sample_now + 24 * Hour)%Z
             [row_of "old" 1 0 (float64 0)]);
      [reflexivity|reflexivity|exact Hfirst|vm_compute; reflexivity]. }
  split; [vm_compute; reflexivity|].
  split; [vm_compute; reflexivity|].
  split; vm_compute; reflexivity.
Qed.

(** ** The upsert statement *)

Lemma set_usage_set_usage (db : Database) (u u' : gmap string (list UsageRow)) :
  set_usage (set_usage db u) u' = set_usage db u'.
Proof. reflexivity. Qed.

(** C7. The upsert statement is idempotent.  On a usage table with a unique
    key the statement for (table, bytes, updated_at, bytes_per_day) succeeds,
    executing it a second time leaves the database as the first execution
    left it, and the table then has its unique key and exactly one row for
    [table], which holds the bytes, the time and the rate of the
    statement. *)
Theorem upsert_statement_idempotent (db : Database) (usageSchema table : string)
    (bytes updated_at : Z) (rate : float) (rows : list UsageRow) :
  let s := InsertUsage usageSchema table bytes updated_at rate in
  usage db !! usageSchema = Some rows ->
  primary_key rows ->
  exists (db1 : Database) (rows1 : list UsageRow),
    execute db s = inl db1 /\
    execute db1 s = inl db1 /\
    usage db1 !! usageSchema = Some rows1 /\
    primary_key rows1 /\
    rows_of table rows1 = [row_of table bytes updated_at rate].
Proof.
  intros s Husage Hkey.
  exists (set_usage db (<[usageSchema :=
                           insert_usage rows table bytes updated_at rate]> (usage db))).
  exists (insert_usage rows table bytes updated_at rate).
  split; [|split; [|split; [|split]]].
  - unfold s. simpl. rewrite Husage. reflexivity.
  - unfold s. simpl. rewrite lookup_insert_eq.
    rewrite insert_usage_idempotent, set_usage_set_usage, insert_insert_eq.
    reflexivity.
  - simpl. apply lookup_insert_eq.
  - apply insert_usage_primary_key. exact Hkey.
  - apply rows_of_insert_usage. exact Hkey.
Qed.

Lemma upsert_statement_idempotent_witness :
  exists (db1 : Database) (rows1 : list UsageRow),
    execute sample_database
            (InsertUsage "usage" "old" 4096 1700000000 (float64 7)) = inl db1 /\
    execute db1 (InsertUsage "usage" "old" 4096 1700000000 (float64 7)) = inl db1 /\
    usage db1 !! "usage" = Some rows1 /\
    primary_key rows1 /\
    rows_of "old" rows1 = [row_of "old" 4096 1700000000 (float64 7)].
Proof.
  apply (upsert_statement_idempotent sample_database "usage" "old" 4096 1700000000
           (float64 7) [row_of "old" 1 0 (float64 0)]).
  - vm_compute. reflexivity.
  - apply NoDup_singleton.
Defined.

(** ** What the worker leaves as it is *)

Global Instance same_surroundings_preorder : PreOrder same_surroundings.
Proof.
  split.
  - intros a. split; reflexivity.
  - intros a b c [] []. split; congruence.
Qed.

Global Instance gauge_grows_preorder : PreOrder gauge_grows.
Proof.
  split.
  - intros a. unfold gauge_grows. set_solver.
  - intros a b c. unfold gauge_grows. set_solver.
Qed.

Global Instance usage_stays_preorder (schema : string) : PreOrder (usage_stays schema).
Proof. split; unfold usage_stays; [intros a|intros a b c]; tauto. Qed.

Global Instance history_grows_preorder : PreOrder history_grows.
Proof.
  split.
  - intros a. unfold history_grows. reflexivity.
  - intros a b c. unfold history_grows. intros ? ?. etransitivity; eassumption.
Qed.

Section Preserves.
Context (R : World -> World -> Prop) `{!PreOrder R}.

Lemma preserves_ret {A : Type} (a : A) : preserves R (ret a).
Proof. intros world. simpl. reflexivity. Qed.

Lemma preserves_panic {A : Type} (v : string) : preserves R (@panic A v).
Proof. intros world. simpl. reflexivity. Qed.

Lemma preserves_bind {A B : Type} (m : M A) (k : A -> M B) :
  preserves R m -> (forall a, preserves R (k a)) -> preserves R (bind m k).
Proof.
  intros Hm Hk world. unfold bind. specialize (Hm world).
  destruct (m world) as [[a|v|] world1]; simpl in *; [|exact Hm|exact Hm].
  etransitivity; [exact Hm|apply Hk].
Qed.

(** The worker is built from six primitives; a relation that they preserve
    is preserved by all it does. *)
Hypothesis R_Now : preserves R Now.
Hypothesis R_Println : forall l, preserves R (Println l).
Hypothesis R_send : forall s, preserves R (send s).
Hypothesis R_execute : forall world s db,
  execute (database world) s = inl db -> R world (set_database world db).
Hypothesis R_Gauge_Set : forall table v, preserves R (Gauge_Set table v).

Lemma preserves_Exec (s : Stmt) : preserves R (Exec s).
Proof.
  unfold Exec. apply preserves_bind; [apply R_send|].
  intros [err|]; [apply preserves_ret|].
  intros world. destruct (execute (database world) s) eqn:E; simpl.
  - eapply R_execute. exact E.
  - reflexivity.
Qed.

Lemma preserves_strikes : preserves R strikes.
Proof. intros world. simpl. reflexivity. Qed.

Lemma preserves_Query (s : Stmt) : preserves R (Query s).
Proof.
  unfold Query. apply preserves_bind; [apply preserves_strikes|]. intros reading.
  apply preserves_bind; [apply (R_send s)|].
  intros fault world. simpl. reflexivity.
Qed.

Lemma preserves_QueryRow_Scan (schema table : string) :
  preserves R (QueryRow_Scan schema table).
Proof.
  unfold QueryRow_Scan.
  apply preserves_bind; [apply (R_send (SelectFirstTime schema table))|].
  intros [err|]; [apply preserves_ret|]. intros world. simpl. reflexivity.
Qed.

Lemma preserves_upsert (w : Worker) (schema table : string) (size : Int8) :
  preserves R (upsert w schema table size).
Proof.
  unfold upsert. apply preserves_bind; [apply R_Now|]. intros now. cbv zeta.
  apply preserves_bind; [apply preserves_QueryRow_Scan|]. intros scanned.
  apply preserves_bind.
  - destruct scanned as [pgdate|err].
    + destruct (Timestamptz_Get_Time pgdate);
        [apply preserves_ret|apply preserves_panic].
    + destruct (negb (is_ErrNoRows err)); apply preserves_ret.
  - intros [firstDate|err]; [|apply preserves_ret].
    apply preserves_bind; [apply R_Println|]. intros _.
    apply preserves_bind; [apply preserves_Exec|].
    intros [e|]; [apply preserves_ret|].
    apply preserves_bind; [apply R_Gauge_Set|]. intros _. apply preserves_ret.
Qed.

Lemma preserves_upsert_rows (w : Worker) (rows : list CatalogRow) :
  preserves R (upsert_rows w rows).
Proof.
  induction rows as [|row rest IH]; simpl; [apply preserves_ret|].
  apply preserves_bind; [apply preserves_upsert|].
  intros [e|]; [|exact IH].
  destruct (errIsTableDoesNotExist e); [|apply preserves_ret].
  apply preserves_bind; [apply R_Println|]. intros _. exact IH.
Qed.

Lemma preserves_upsertWithQuery (w : Worker) (query : Stmt) :
  preserves R (upsertWithQuery w query).
Proof.
  unfold upsertWithQuery. apply preserves_bind; [apply preserves_Query|].
  intros [rows|err]; [|apply preserves_ret].
  apply preserves_bind; [apply preserves_upsert_rows|].
  intros [e|]; apply preserves_ret.
Qed.

Lemma preserves_run (w : Worker) : preserves R (run w).
Proof.
  unfold run. apply preserves_bind; [apply R_Println|]. intros _.
  apply preserves_bind; [apply preserves_upsertWithQuery|].
  intros [e|]; [apply preserves_ret|].
  apply preserves_bind; [apply preserves_upsertWithQuery|].
  intros [e|]; [apply preserves_ret|].
  apply preserves_bind; [apply R_Println|]. intros _.
  apply preserves_bind; [apply preserves_Exec|].
  intros [e|]; [apply preserves_ret|].
  apply preserves_bind; [apply R_Println|]. intros _. apply preserves_ret.
Qed.

Lemma preserves_migrate (w : Worker) : preserves R (migrate w).
Proof.
  unfold migrate. apply preserves_bind; [apply preserves_Exec|].
  intros [e|]; [apply preserves_ret|apply preserves_Exec].
Qed.

Lemma preserves_select_loop (w : Worker) (received : list Ready) :
  preserves R (select_loop w received).
Proof.
  induction received as [|[|] later IH]; simpl.
  - intros world. simpl. reflexivity.
  - apply preserves_bind; [apply preserves_run|].
    intros [e|]; [apply preserves_ret|exact IH].
  - apply preserves_ret.
Qed.
End Preserves.

Lemma execute_catalogs (db db' : Database) (s : Stmt) :
  execute db s = inl db' ->
  hypertables db' = hypertables db /\
  continuous_aggregates db' = continuous_aggregates db /\
  relations db' = relations db.
Proof.
  destruct s as [u|u| | |sc tb|u tb b up r|u src]; simpl;
    try destruct (usage db !! u); intros [= <-]; repeat split.
Qed.

Lemma execute_usage_stays (db db' : Database) (s : Stmt) (schema : string) :
  execute db s = inl db' ->
  is_Some (usage db !! schema) -> is_Some (usage db' !! schema).
Proof.
  destruct s as [u|u| | |sc tb|u tb b up r|u src]; simpl;
    try destruct (usage db !! u) eqn:E;
    intros [= <-]; try tauto; simpl; intros Hsome;
    (destruct (decide (u = schema)) as [->|Hne];
     [rewrite lookup_insert_eq; eauto|rewrite lookup_insert_ne by exact Hne; exact Hsome]).
Qed.

(** Running the worker changes nothing around it. *)
Lemma run_same_surroundings (w : Worker) (world : World) :
  same_surroundings world (snd (run w world)).
Proof.
  apply (preserves_run same_surroundings); try (intros; intros ?; split; reflexivity).
  intros world0 s db Hexec. apply execute_catalogs in Hexec as (? & ? & ?).
  split; simpl; congruence.
Qed.

Lemma upsert_same_surroundings (w : Worker) schema table size (world : World) :
  same_surroundings world (snd (upsert w schema table size world)).
Proof.
  apply (preserves_upsert same_surroundings); try (intros; intros ?; split; reflexivity).
  intros world0 s db Hexec. apply execute_catalogs in Hexec as (? & ? & ?).
  split; simpl; congruence.
Qed.

Lemma upsert_rows_same_surroundings (w : Worker) rows (world : World) :
  same_surroundings world (snd (upsert_rows w rows world)).
Proof.
  apply (preserves_upsert_rows same_surroundings);
    try (intros; intros ?; split; reflexivity).
  intros world0 s db Hexec. apply execute_catalogs in Hexec as (? & ? & ?).
  split; simpl; congruence.
Qed.

Lemma upsertWithQuery_same_surroundings (w : Worker) query (world : World) :
  same_surroundings world (snd (upsertWithQuery w query world)).
Proof.
  apply (preserves_upsertWithQuery same_surroundings);
    try (intros; intros ?; split; reflexivity).
  intros world0 s db Hexec. apply execute_catalogs in Hexec as (? & ? & ?).
  split; simpl; congruence.
Qed.

Lemma migrate_same_surroundings (w : Worker) (world : World) :
  same_surroundings world (snd (migrate w world)).
Proof.
  apply (preserves_migrate same_surroundings);
    try (intros; intros ?; split; reflexivity).
  intros world0 s db Hexec. apply execute_catalogs in Hexec as (? & ? & ?).
  split; simpl; congruence.
Qed.

(** The usage table is never dropped. *)
Lemma upsert_rows_usage_stays (w : Worker) rows schema (world : World) :
  usage_stays schema world (snd (upsert_rows w rows world)).
Proof.
  apply (preserves_upsert_rows (usage_stays schema));
    try (intros; intros ?; unfold usage_stays; simpl; tauto).
  intros world0 s db Hexec. unfold usage_stays. simpl.
  eapply execute_usage_stays. exact Hexec.
Qed.

Lemma upsertWithQuery_usage_stays (w : Worker) query schema (world : World) :
  usage_stays schema world (snd (upsertWithQuery w query world)).
Proof.
  apply (preserves_upsertWithQuery (usage_stays schema));
    try (intros; intros ?; unfold usage_stays; simpl; tauto).
  intros world0 s db Hexec. unfold usage_stays. simpl.
  eapply execute_usage_stays. exact Hexec.
Qed.

(** ** The gauge *)

Lemma Exec_bytesMetrics (s : Stmt) (world : World) :
  bytesMetrics (snd (Exec s world)) = bytesMetrics world.
Proof.
  unfold Exec, bind, send. simpl.
  destruct (faults world (length (statements world))); simpl; [reflexivity|].
  destruct (execute (database world) s); reflexivity.
Qed.

Lemma gauge_grows_insert (world : World) (table : string) (v : float) :
  gauge_grows world (set_bytesMetrics world (<[table := v]> (bytesMetrics world))).
Proof. unfold gauge_grows. simpl. rewrite dom_insert. set_solver. Qed.

(** *** Equations of the primitives under [bind] *)

Lemma bind_ret {A B : Type} (a : A) (k : A -> M B) (world : World) :
  bind (ret a) k world = k a world.
Proof. reflexivity. Qed.

Lemma bind_panic {A B : Type} (v : string) (k : A -> M B) (world : World) :
  bind (panic v) k world = (Panics v, world).
Proof. reflexivity. Qed.

Lemma bind_Now {B : Type} (k : Time -> M B) (world : World) :
  bind Now k world = k (clock world (clock_reads world)) (add_clock_read world).
Proof. reflexivity. Qed.

Lemma bind_Println {B : Type} (l : LogLine) (k : unit -> M B) (world : World) :
  bind (Println l) k world = k tt (add_logged world l).
Proof. reflexivity. Qed.

Lemma bind_Gauge_Set {B : Type} table v (k : unit -> M B) (world : World) :
  bind (Gauge_Set table v) k world =
  k tt (set_bytesMetrics world (<[table := v]> (bytesMetrics world))).
Proof. reflexivity. Qed.

Lemma bind_QueryRow_Scan {B : Type} schema table
    (k : Timestamptz + error -> M B) (world : World) :
  bind (QueryRow_Scan schema table) k world =
  k (scanned world schema table) (add_statement world (SelectFirstTime schema table)).
Proof.
  unfold QueryRow_Scan, scanned, bind, send. simpl.
  destruct (faults world (length (statements world))); reflexivity.
Qed.

Lemma bind_Query {B : Type} (s : Stmt) (k : Rows + error -> M B)
    (world : World) :
  bind (Query s) k world =
  k (delivered (listing (database world) s)
               (faults world (length (statements world)))
               (readings world (length (statements world))))
    (add_statement world s).
Proof. reflexivity. Qed.

(** What follows the loop of [upsertWithQuery] leaves the world as the loop
    left it. *)
Lemma snd_bind_scan (m : M (option error)) (scan : option error) (world : World) :
  snd (bind m (fun err => match err with
                          | Some e => ret (Some e)
                          | None => ret scan
                          end) world) = snd (m world).
Proof.
  unfold bind. destruct (m world) as [[[e|]|v|] world1]; reflexivity.
Qed.

(** Handing on an error or nil as it is changes nothing. *)
Lemma bind_handed_on (m : M (option error)) (world : World) :
  bind m (fun err => match err with
                     | Some e => ret (Some e)
                     | None => ret None
                     end) world = m world.
Proof.
  unfold bind. destruct (m world) as [[[e|]|v|] world1]; reflexivity.
Qed.

(** An upsert that has measured its object sends the upsert statement, ends
    as the statement ends, and sets the gauge when the statement went
    through. *)
Lemma upsert_measured (w : Worker) (schema table : string) (size : Int8)
    (world : World) (T0 : Time) :
  let Tn := clock world (clock_reads world) in
  let S := size_bytes size in
  let sent := Exec (insert_of w table S Tn T0)
                   (measured world schema table S
                             (bytes_per_day S (days_between Tn T0))) in
  firstDate_of world schema table = Some T0 ->
  upsert w schema table size world =
  match fst sent with
  | Returns None =>
      (Returns None,
       set_bytesMetrics (snd sent) (<[table := float64 S]> (bytesMetrics (snd sent))))
  | _ => sent
  end.
Proof.
  intros Tn S sent Hfirst. unfold upsert.
  rewrite bind_Now. cbv zeta. rewrite bind_QueryRow_Scan.
  change (scanned (add_clock_read world) schema table)
    with (scanned world schema table).
  unfold firstDate_of in Hfirst.
  assert (Hsent : forall k : option error -> M (option error),
    bind (Println (Measured table S (bytes_per_day S (days_between Tn T0))))
         (fun _ => bind (Exec (insert_of w table S Tn T0)) k)
         (add_statement (add_clock_read world) (SelectFirstTime schema table)) =
    match sent with
    | (Returns a, world1) => k a world1
    | (Panics v, world1) => (Panics v, world1)
    | (Blocks, world1) => (Blocks, world1)
    end) by reflexivity.
  destruct (scanned world schema table) as [pgdate|err].
  - rewrite Hfirst. rewrite bind_ret. fold Tn S. unfold insert_of in Hsent.
    rewrite Hsent. destruct sent as [[[e|]|v|] world1]; reflexivity.
  - destruct (is_ErrNoRows err); [|discriminate]. injection Hfirst as <-.
    simpl negb. cbv iota. rewrite bind_ret. fold Tn S. unfold insert_of in Hsent.
    rewrite Hsent. destruct sent as [[[e|]|v|] world1]; reflexivity.
Qed.

(** An upsert that cannot measure its object ends there: with the error of
    the query, or in a panic when the scanned value is no time. *)
Lemma upsert_unmeasured (w : Worker) (schema table : string) (size : Int8)
    (world : World) :
  firstDate_of world schema table = None ->
  upsert w schema table size world =
  (match scanned world schema table with
   | inl _ => Panics "interface conversion: interface {} is not time.Time"
   | inr err => Returns (Some err)
   end,
   add_statement (add_clock_read world) (SelectFirstTime schema table)).
Proof.
  intros Hfirst. unfold upsert.
  rewrite bind_Now. cbv zeta. rewrite bind_QueryRow_Scan.
  change (scanned (add_clock_read world) schema table)
    with (scanned world schema table).
  unfold firstDate_of in Hfirst.
  destruct (scanned world schema table) as [pgdate|err].
  - rewrite Hfirst. reflexivity.
  - destruct (is_ErrNoRows err); [discriminate|]. reflexivity.
Qed.

Lemma upsert_bytesMetrics (w : Worker) (schema table : string) (size : Int8)
    (world : World) :
  bytesMetrics (snd (upsert w schema table size world)) =
  match fst (upsert w schema table size world) with
  | Returns None => <[table := float64 (size_bytes size)]> (bytesMetrics world)
  | _ => bytesMetrics world
  end.
Proof.
  destruct (firstDate_of world schema table) as [T0|] eqn:Hfirst.
  - rewrite (upsert_measured w schema table size world T0 Hfirst).
    match goal with
    | |- context [Exec ?s ?x] =>
        pose proof (Exec_bytesMetrics s x) as Hm;
        destruct (Exec s x) as [[[e|]|v|] world1]
    end; simpl in *; rewrite ?Hm; reflexivity.
  - rewrite (upsert_unmeasured w schema table size world Hfirst). simpl.
    destruct (scanned world schema table); reflexivity.
Qed.

Lemma run_gauge_grows (w : Worker) (world : World) :
  gauge_grows world (snd (run w world)).
Proof.
  apply (preserves_run gauge_grows);
    intros; try intros ?; unfold gauge_grows; simpl; set_solver.
Qed.

Lemma select_loop_gauge_grows (w : Worker) (received : list Ready) (world : World) :
  gauge_grows world (snd (select_loop w received world)).
Proof.
  apply (preserves_select_loop gauge_grows);
    intros; try intros ?; unfold gauge_grows; simpl; set_solver.
Qed.

(** C6. Once an upsert has measured its object it sends the upsert
    statement, and it sets the series of the object to the new size exactly
    when the statement succeeds: the upsert ends as the statement ends, the
    statement itself leaves the gauge alone, and the series is overwritten
    when the statement returned no error and only then.  In every world an
    upsert that does not return nil leaves the gauge as it was; no statement,
    the reconciling delete among them, changes the gauge; and no cycle and no
    run of the scheduler's loop removes a series. *)
Theorem gauge_overwritten_when_upserted (w : Worker) (world : World)
    (schema table : string) (size : Int8) (T0 : Time) :
  let Tn := clock world (clock_reads world) in
  let S := size_bytes size in
  let sent := Exec (insert_of w table S Tn T0)
                   (measured world schema table S
                             (bytes_per_day S (days_between Tn T0))) in
  firstDate_of world schema table = Some T0 ->
  upsert w schema table size world =
    (fst sent,
     match fst sent with
     | Returns None =>
         set_bytesMetrics (snd sent) (<[table := float64 S]> (bytesMetrics world))
     | _ => snd sent
     end) /\
  bytesMetrics (snd sent) = bytesMetrics world /\
  (forall world0 schema0 table0 size0,
      fst (upsert w schema0 table0 size0 world0) ≠ Returns None ->
      bytesMetrics (snd (upsert w schema0 table0 size0 world0)) =
      bytesMetrics world0) /\
  (forall s world0, bytesMetrics (snd (Exec s world0)) = bytesMetrics world0) /\
  (forall world0,
      dom (bytesMetrics world0) ⊆ dom (bytesMetrics (snd (run w world0)))) /\
  (forall received world0,
      dom (bytesMetrics world0) ⊆
      dom (bytesMetrics (snd (select_loop w received world0)))).
Proof.
  intros Tn S sent Hfirst.
  assert (Hsent : bytesMetrics (snd sent) = bytesMetrics world).
  { unfold sent. rewrite Exec_bytesMetrics. reflexivity. }
  split; [|split; [exact Hsent|split; [|split; [|split]]]].
  - rewrite (upsert_measured w schema table size world T0 Hfirst).
    fold Tn S sent. rewrite Hsent.
    destruct sent as [[[e|]|v|] world1]; reflexivity.
  - intros world0 schema0 table0 size0 Hfail. rewrite upsert_bytesMetrics.
    destruct (fst (upsert w schema0 table0 size0 world0)) as [[e|]|v|];
      try reflexivity.
    contradiction.
  - apply Exec_bytesMetrics.
  - apply run_gauge_grows.
  - apply select_loop_gauge_grows.
Qed.

Lemma gauge_overwritten_when_upserted_witness :
  firstDate_of sample_world "src" "sensor_data" =
    Some (sample_now - 2 * 24 * Hour)%Z /\
  bytesMetrics
    (snd (upsert sample_worker "src" "sensor_data" (Int8Present 1048576)
                 sample_world)) =
  <["sensor_data" := float64 1048576]> ∅.
Proof.
  assert (H : firstDate_of sample_world "src" "sensor_data" =
              Some (sample_now - 2 * 24 * Hour)%Z) by (vm_compute; reflexivity).
  split; [exact H|].
  destruct (gauge_overwritten_when_upserted sample_worker sample_world "src"
              "sensor_data" (Int8Present 1048576) _ H) as [Hupsert _].
  rewrite Hupsert. vm_compute. reflexivity.
Defined.

(** ** One cycle *)

(** The cycle, by the outcome of its three steps. *)
Lemma run_eq (w : Worker) (world : World) :
  run w world =
  match upsertTables w (add_logged world (Text "Starting Update..")) with
  | (Returns None, world1) =>
      match upsertViews w world1 with
      | (Returns None, world2) =>
          match Exec (DeleteOutdated (usageSchema w) (sourceSchema w))
                     (add_logged world2 (Text "Cleanup")) with
          | (Returns None, world3) => (Returns None, add_logged world3 (Text "Done"))
          | other => other
          end
      | other => other
      end
  | other => other
  end.
Proof.
  unfold run. rewrite bind_Println. unfold bind at 1.
  destruct (upsertTables w _) as [[[e|]|v|] world1]; try reflexivity.
  unfold bind at 1.
  destruct (upsertViews w world1) as [[[e|]|v|] world2]; try reflexivity.
  rewrite bind_Println. unfold bind at 1.
  destruct (Exec _ _) as [[[e|]|v|] world3]; reflexivity.
Qed.

Lemma mem_elem_of (x : string) (l : list string) : mem x l = true <-> x ∈ l.
Proof.
  unfold mem. induction l as [|y l IH]; simpl.
  - split; [discriminate|]. intros H. apply elem_of_nil in H. contradiction.
  - rewrite orb_true_iff, IH, elem_of_cons.
    destruct (String.eqb_spec x y); split; intros [?|?]; auto; discriminate.
Qed.

(** What the reconciling delete leaves is listed by one of the two
    catalogs of the source schema. *)
Lemma delete_outdated_listed (db : Database) (sourceSchema : string)
    (rows : list UsageRow) (r : UsageRow) :
  r ∈ delete_outdated db sourceSchema rows ->
  r ∈ rows /\
  (u_table r ∈ names_in sourceSchema (hypertables db) \/
   u_table r ∈ names_in sourceSchema (continuous_aggregates db)).
Proof.
  unfold delete_outdated. rewrite list_elem_of_filter. intros [Hkeep Hin].
  split; [exact Hin|].
  rewrite negb_true_iff, andb_false_iff, !negb_false_iff, !mem_elem_of in Hkeep.
  exact Hkeep.
Qed.

(** And it leaves every row that is listed. *)
Lemma delete_outdated_keeps (db : Database) (sourceSchema : string)
    (rows : list UsageRow) (r : UsageRow) :
  r ∈ rows ->
  u_table r ∈ names_in sourceSchema (hypertables db) \/
  u_table r ∈ names_in sourceSchema (continuous_aggregates db) ->
  r ∈ delete_outdated db sourceSchema rows.
Proof.
  intros Hin Hlisted. unfold delete_outdated. rewrite list_elem_of_filter.
  split; [|exact Hin].
  rewrite negb_true_iff, andb_false_iff, !negb_false_iff, !mem_elem_of.
  exact Hlisted.
Qed.

Lemma Exec_DeleteOutdated_nil (usageSchema sourceSchema : string)
    (world world' : World) :
  Exec (DeleteOutdated usageSchema sourceSchema) world = (Returns None, world') ->
  exists rows,
    usage (database world) !! usageSchema = Some rows /\
    world' =
    set_database
      (add_statement world (DeleteOutdated usageSchema sourceSchema))
      (set_usage (database world)
         (<[usageSchema := delete_outdated (database world) sourceSchema rows]>
            (usage (database world)))).
Proof.
  unfold Exec, bind, send. simpl.
  destruct (faults world (length (statements world))); simpl; [discriminate|].
  destruct (usage (database world) !! usageSchema) as [rows|]; [|discriminate].
  intros [= <-]. exists rows. split; reflexivity.
Qed.

(** C4. When a cycle has completed, its reconciliation included, the usage
    table holds no row whose name is neither a hypertable nor a continuous
    aggregate that the catalogs list for the source schema. *)
Theorem run_reconciles (w : Worker) (world world' : World) :
  run w world = (Returns None, world') ->
  exists rows,
    usage (database world') !! usageSchema w = Some rows /\
    forall r, r ∈ rows ->
      u_table r ∈ names_in (sourceSchema w) (hypertables (database world')) ++
                  names_in (sourceSchema w)
                           (continuous_aggregates (database world')).
Proof.
  rewrite run_eq.
  destruct (upsertTables w _) as [[[e|]|v|] world1]; try discriminate.
  destruct (upsertViews w world1) as [[[e|]|v|] world2]; try discriminate.
  destruct (Exec _ _) as [[[e|]|v|] world3] eqn:Hdelete; try discriminate.
  intros [= <-]. apply Exec_DeleteOutdated_nil in Hdelete as [rows0 [Hrows0 ->]].
  simpl. eexists. split; [apply lookup_insert_eq|].
  intros r Hr. apply delete_outdated_listed in Hr as [_ Hlisted].
  apply elem_of_app. exact Hlisted.
Qed.

Lemma run_reconciles_witness :
  exists rows,
    usage (database (snd (run sample_worker sample_world))) !! "usage" = Some rows /\
    forall r, r ∈ rows ->
      u_table r ∈
        names_in "src" (hypertables (database (snd (run sample_worker sample_world)))) ++
        names_in "src"
          (continuous_aggregates (database (snd (run sample_worker sample_world)))).
Proof.
  apply (run_reconciles sample_worker sample_world).
  vm_compute. reflexivity.
Defined.

(** ** Vanished objects *)

Lemma prefix_append (s t : string) : String.prefix s (s +:+ t) = true.
Proof.
  induction s as [|a s IH]; simpl; [destruct t; reflexivity|].
  destruct (Ascii.ascii_dec a a); [exact IH|contradiction].
Qed.

Lemma Contains_prefix (s t : string) : Contains (s +:+ t) s = true.
Proof.
  destruct s as [|a s]; [destruct t; reflexivity|].
  change (Contains (String a s +:+ t) (String a s))
    with (String.prefix (String a s) (String a s +:+ t) ||
          Contains (s +:+ t) (String a s)).
  rewrite prefix_append. reflexivity.
Qed.

Lemma Contains_append (s t substr : string) :
  Contains t substr = true -> Contains (s +:+ t) substr = true.
Proof.
  intros H. induction s as [|a s IH]; [exact H|].
  change (Contains (String a s +:+ t) substr)
    with (String.prefix substr (String a (s +:+ t)) || Contains (s +:+ t) substr).
  rewrite IH. apply orb_true_r.
Qed.

(** The warning names its object. *)
Lemma warning_names (table : string) :
  exists line, warning table = Text line /\ Contains line table = true.
Proof.
  eexists. split; [reflexivity|]. apply Contains_append, Contains_prefix.
Qed.

(** A server error of SQLSTATE 42P01 is taken for a vanished object. *)
Lemma errIsTableDoesNotExist_42P01 (Severity Message : string) :
  errIsTableDoesNotExist (PgError Severity Message "42P01") = true.
Proof.
  unfold errIsTableDoesNotExist, Error.
  apply Contains_append, Contains_append, Contains_append. reflexivity.
Qed.


(** ** The loop over a listing *)

Lemma upsert_rows_cons (w : Worker) (row : CatalogRow) (rest : list CatalogRow)
    (world : World) :
  upsert_rows w (row :: rest) world =
  match upsert w (cat_schema row) (cat_name row) (cat_size row) world with
  | (Returns (Some e), world1) =>
      if errIsTableDoesNotExist e then
        upsert_rows w rest (add_logged world1 (warning (cat_name row)))
      else (Returns (Some e), world1)
  | (Returns None, world1) => upsert_rows w rest world1
  | (Panics v, world1) => (Panics v, world1)
  | (Blocks, world1) => (Blocks, world1)
  end.
Proof.
  simpl. unfold bind at 1.
  destruct (upsert w _ _ _ world) as [[[e|]|v|] world1]; try reflexivity.
  destruct (errIsTableDoesNotExist e); reflexivity.
Qed.


Lemma upsertWithQuery_listing (w : Worker) (query : Stmt) (world : World) :
  faults world (length (statements world)) = None ->
  upsertWithQuery w query world =
  upsert_rows w match query with
                | SelectHypertables => hypertables (database world)
                | SelectContinuousAggregates => continuous_aggregates (database world)
                | _ => []
                end (add_statement world query).
Proof.
  intros Hfault. unfold upsertWithQuery. rewrite bind_Query, Hfault. simpl.
  apply bind_handed_on.
Qed.

Lemma run_after_tables (w : Worker) (world : World) :
  run w world =
  bind (upsertTables w) (after_tables w) (add_logged world (Text "Starting Update..")).
Proof. reflexivity. Qed.


(** ** A cycle without failures *)

Lemma select_first_time_relations (db db' : Database) (schema table : string) :
  relations db = relations db' ->
  select_first_time db schema table = select_first_time db' schema table.
Proof. intros H. unfold select_first_time. rewrite H. reflexivity. Qed.

Lemma measurable_relations (db db' : Database) (row : CatalogRow) :
  relations db = relations db' -> measurable db row = measurable db' row.
Proof.
  intros H. unfold measurable.
  rewrite (select_first_time_relations db db' _ _ H). reflexivity.
Qed.

Lemma first_time_None (col : list Timestamptz) : first_time col = None -> col = [].
Proof. destruct col; [reflexivity|discriminate]. Qed.

Lemma measurable_first_recorded (db : Database) (row : CatalogRow) (Tn : Time) :
  measurable db row = true ->
  exists T0, first_recorded db (cat_schema row) (cat_name row) Tn T0.
Proof.
  unfold measurable, select_first_time.
  destruct (relations db !! (cat_schema row, cat_name row)) as [[[col|]]|] eqn:Hrel;
    simpl; intros Hm; try discriminate Hm.
  destruct (first_time col) as [[T0| | |]|] eqn:Hfirst; try discriminate Hm.
  - exists T0. eapply earliest_row; eassumption.
  - exists Tn. apply first_time_None in Hfirst. subst col. apply no_rows. exact Hrel.
Qed.

Lemma forallb_measurable_relations (db db' : Database) (rows : list CatalogRow) :
  relations db = relations db' ->
  forallb (measurable db) rows = forallb (measurable db') rows.
Proof.
  intros H. induction rows as [|row rows IH]; simpl; [reflexivity|].
  rewrite IH, (measurable_relations db db' row H). reflexivity.
Qed.

Lemma upsert_ok (w : Worker) (world : World) (row : CatalogRow) :
  (forall k, faults world k = None) ->
  is_Some (usage (database world) !! usageSchema w) ->
  measurable (database world) row = true ->
  exists world' new,
    upsert w (cat_schema row) (cat_name row) (cat_size row) world =
      (Returns None, world') /\
    same_surroundings world world' /\
    is_Some (usage (database world') !! usageSchema w) /\
    statements world' = statements world ++ new /\
    map step_of new = upsert_steps row.
Proof.
  intros Hfaults [rows Husage] Hmeasurable.
  destruct (measurable_first_recorded _ _ (clock world (clock_reads world))
              Hmeasurable) as [T0 Hfirst].
  pose proof (upsert_returns w world (cat_schema row) (cat_name row) (cat_size row)
                T0 rows (Hfaults _) (Hfaults _) Hfirst Husage) as Hupsert.
  eexists. eexists. split; [exact Hupsert|]. split; [|split; [|split]].
  - pose proof (upsert_same_surroundings w (cat_schema row) (cat_name row)
                  (cat_size row) world) as Hsame.
    rewrite Hupsert in Hsame. exact Hsame.
  - simpl. rewrite lookup_insert_eq. eauto.
  - simpl. rewrite <- app_assoc. reflexivity.
  - reflexivity.
Qed.

Lemma upsert_rows_ok (w : Worker) (rows : list CatalogRow) (world : World) :
  (forall k, faults world k = None) ->
  is_Some (usage (database world) !! usageSchema w) ->
  forallb (measurable (database world)) rows = true ->
  exists world' new,
    upsert_rows w rows world = (Returns None, world') /\
    same_surroundings world world' /\
    is_Some (usage (database world') !! usageSchema w) /\
    statements world' = statements world ++ new /\
    map step_of new = flat_map upsert_steps rows.
Proof.
  revert world. induction rows as [|row rows IH]; intros world Hfaults Husage Hrows.
  - exists world, []. simpl. rewrite app_nil_r. repeat split; try reflexivity.
    exact Husage.
  - simpl in Hrows. apply andb_true_iff in Hrows as [Hrow Hrows].
    destruct (upsert_ok w world row Hfaults Husage Hrow)
      as (world1 & new1 & Hupsert & Hsame1 & Husage1 & Hstmts1 & Hsteps1).
    destruct (IH world1) as (world2 & new2 & Hrest & Hsame2 & Husage2 & Hstmts2 & Hsteps2).
    + intros k. rewrite <- (same_faults _ _ Hsame1). apply Hfaults.
    + exact Husage1.
    + rewrite <- Hrows. apply forallb_measurable_relations.
      symmetry. apply (same_relations _ _ Hsame1).
    + exists world2, (new1 ++ new2).
      rewrite upsert_rows_cons, Hupsert. split; [exact Hrest|].
      split; [etransitivity; eassumption|]. split; [exact Husage2|]. split.
      * rewrite Hstmts2, Hstmts1, app_assoc. reflexivity.
      * rewrite map_app, Hsteps1, Hsteps2. reflexivity.
Qed.

Lemma count_app (kind : Step -> bool) (l l' : list Step) :
  count kind (l ++ l') = count kind l + count kind l'.
Proof. unfold count. rewrite List.filter_app, length_app. reflexivity. Qed.

Lemma count_upsert_steps (rows : list CatalogRow) :
  count is_Measuring (flat_map upsert_steps rows) = length rows /\
  count is_Recording (flat_map upsert_steps rows) = length rows /\
  count is_Reconciling (flat_map upsert_steps rows) = 0.
Proof.
  induction rows as [|row rows (IH1 & IH2 & IH3)]; [repeat split|].
  unfold count in *. simpl. rewrite IH1, IH2, IH3. repeat split.
Qed.

(** A cycle without failures returns nil, and its statements are those of
    the two listings, of the upserts and of the delete, in that order. *)
Lemma run_ok (w : Worker) (world : World) :
  no_failures w world ->
  exists world' new,
    run w world = (Returns None, world') /\
    same_surroundings world world' /\
    statements world' = statements world ++ new /\
    map step_of new =
      Listing false :: flat_map upsert_steps (hypertables (database world)) ++
      Listing true :: flat_map upsert_steps (continuous_aggregates (database world)) ++
      [Reconciling].
Proof.
  intros [Hfaults Husage Htables Hviews].
  set (tables := hypertables (database world)) in *.
  set (views := continuous_aggregates (database world)) in *.
  set (world_q := add_statement (add_logged world (Text "Starting Update.."))
                                SelectHypertables).
  destruct (upsert_rows_ok w tables world_q Hfaults Husage Htables)
    as (world1 & new1 & Hrows1 & Hsame1 & Husage1 & Hstmts1 & Hsteps1).
  assert (Hfaults1 : forall k, faults world1 k = None).
  { intros k. rewrite <- (same_faults _ _ Hsame1). apply Hfaults. }
  set (world_v := add_statement world1 SelectContinuousAggregates).
  destruct (upsert_rows_ok w views world_v Hfaults1 Husage1)
    as (world2 & new2 & Hrows2 & Hsame2 & Husage2 & Hstmts2 & Hsteps2).
  { rewrite <- Hviews. apply forallb_measurable_relations.
    symmetry. apply (same_relations _ _ Hsame1). }
  assert (Hfaults2 : forall k, faults world2 k = None).
  { intros k. rewrite <- (same_faults _ _ Hsame2). apply Hfaults1. }
  destruct Husage2 as [rows2 Husage2].
  assert (Htables_run :
    upsertTables w (add_logged world (Text "Starting Update..")) =
    (Returns None, world1)).
  { unfold upsertTables. rewrite upsertWithQuery_listing by apply Hfaults.
    exact Hrows1. }
  assert (Hviews_run : upsertViews w world1 = (Returns None, world2)).
  { unfold upsertViews. rewrite upsertWithQuery_listing by apply Hfaults1.
    rewrite <- (same_continuous_aggregates _ _ Hsame1). exact Hrows2. }
  assert (Hrun : run w world =
    (Returns None,
     add_logged
       (set_database
          (add_statement (add_logged world2 (Text "Cleanup"))
                         (DeleteOutdated (usageSchema w) (sourceSchema w)))
          (set_usage (database world2)
             (<[usageSchema w :=
                  delete_outdated (database world2) (sourceSchema w) rows2]>
                (usage (database world2)))))
       (Text "Done"))).
  { rewrite run_eq, Htables_run, Hviews_run.
    unfold Exec, bind, send. simpl.
    rewrite Hfaults2. simpl. rewrite Husage2. reflexivity. }
  eexists. exists (SelectHypertables :: new1 ++ SelectContinuousAggregates :: new2 ++
                   [DeleteOutdated (usageSchema w) (sourceSchema w)]).
  split; [exact Hrun|]. split; [|split].
  - pose proof (run_same_surroundings w world) as Hsame. rewrite Hrun in Hsame.
    exact Hsame.
  - simpl. rewrite Hstmts2. simpl. rewrite Hstmts1. simpl.
    rewrite <- !app_assoc. reflexivity.
  - simpl. rewrite map_app. simpl. rewrite map_app. simpl.
    rewrite Hsteps1, Hsteps2. reflexivity.
Qed.

(** *** The order of every cycle *)

Lemma Exec_statements (s : Stmt) (world : World) :
  statements (snd (Exec s world)) = statements world ++ [s].
Proof.
  unfold Exec, bind, send. simpl.
  destruct (faults world (length (statements world))); simpl; [reflexivity|].
  destruct (execute (database world) s); reflexivity.
Qed.

(** An upsert attempt measures its object and then, at most, records it. *)
Lemma upsert_statements (w : Worker) (schema table : string) (size : Int8)
    (world : World) :
  exists us,
    statements (snd (upsert w schema table size world)) = statements world ++ us /\
    (map step_of us = [Measuring schema table] \/
     map step_of us = [Measuring schema table; Recording table (size_bytes size)]).
Proof.
  destruct (firstDate_of world schema table) as [T0|] eqn:Hfirst.
  - rewrite (upsert_measured w schema table size world T0 Hfirst).
    match goal with
    | |- context [Exec ?s ?x] =>
        pose proof (Exec_statements s x) as Hsent;
        destruct (Exec s x) as [[[e|]|v|] world1]
    end; simpl in *; rewrite Hsent, <- app_assoc;
      eexists; (split; [reflexivity|]); right; reflexivity.
  - rewrite (upsert_unmeasured w schema table size world Hfirst). simpl.
    eexists. split; [reflexivity|]. left. reflexivity.
Qed.

Lemma upsert_rows_statements (w : Worker) (rows : list CatalogRow) (world : World) :
  exists us,
    statements (snd (upsert_rows w rows world)) = statements world ++ us /\
    forallb is_upsert_step (map step_of us) = true.
Proof.
  revert world. induction rows as [|row rows IH]; intros world.
  - exists []. simpl. rewrite app_nil_r. split; reflexivity.
  - rewrite upsert_rows_cons.
    destruct (upsert_statements w (cat_schema row) (cat_name row) (cat_size row) world)
      as (us & Hus & Hsteps).
    assert (Hups : forallb is_upsert_step (map step_of us) = true)
      by (destruct Hsteps as [-> | ->]; reflexivity).
    destruct (upsert w _ _ _ world) as [[[e|]|v|] world1]; simpl in Hus.
    + destruct (errIsTableDoesNotExist e).
      * destruct (IH (add_logged world1 (warning (cat_name row)))) as (us' & Hus' & Hups').
        exists (us ++ us'). simpl in Hus'. rewrite Hus', Hus, app_assoc.
        split; [reflexivity|]. rewrite map_app, forallb_app, Hups, Hups'. reflexivity.
      * exists us. split; assumption.
    + destruct (IH world1) as (us' & Hus' & Hups').
      exists (us ++ us'). rewrite Hus', Hus, app_assoc.
      split; [reflexivity|]. rewrite map_app, forallb_app, Hups, Hups'. reflexivity.
    + exists us. split; assumption.
    + exists us. split; assumption.
Qed.

Lemma upsertWithQuery_statements (w : Worker) (query : Stmt) (world : World) :
  exists us,
    statements (snd (upsertWithQuery w query world)) =
      statements world ++ query :: us /\
    forallb is_upsert_step (map step_of us) = true.
Proof.
  unfold upsertWithQuery. rewrite bind_Query.
  destruct (delivered _ _ _) as [rows|err]; cbv beta iota.
  - rewrite snd_bind_scan.
    destruct (upsert_rows_statements w (scanned_rows rows) (add_statement world query))
      as (us & Hus & Hups).
    exists us. rewrite Hus. simpl. rewrite <- app_assoc. split; [reflexivity|exact Hups].
  - exists []. split; reflexivity.
Qed.

(** Every cycle, complete or not, sends its statements in the order of
    [in_cycle_order]. *)
Lemma run_order (w : Worker) (world : World) :
  exists new,
    statements (snd (run w world)) = statements world ++ new /\
    in_cycle_order (map step_of new).
Proof.
  destruct (upsertWithQuery_statements w SelectHypertables
              (add_logged world (Text "Starting Update.."))) as (ts & Hts & Hups_t).
  fold (upsertTables w) in Hts. simpl in Hts.
  assert (Htables_only :
    in_cycle_order (map step_of (SelectHypertables :: ts))).
  { exists (map step_of ts), [], [], []. simpl. rewrite app_nil_r.
    repeat split; auto. }
  rewrite run_eq.
  destruct (upsertTables w _) as [[[e|]|v|] world1]; simpl in Hts;
    try (exists (SelectHypertables :: ts); split; [exact Hts|exact Htables_only]).
  destruct (upsertWithQuery_statements w SelectContinuousAggregates world1)
    as (vs & Hvs & Hups_v).
  fold (upsertViews w) in Hvs.
  assert (Hviews :
    statements world1 ++ SelectContinuousAggregates :: vs =
    statements world ++ SelectHypertables :: ts ++ SelectContinuousAggregates :: vs).
  { rewrite Hts, <- app_assoc. reflexivity. }
  assert (Hviews_only :
    in_cycle_order
      (map step_of (SelectHypertables :: ts ++ SelectContinuousAggregates :: vs))).
  { exists (map step_of ts), (map step_of vs),
           (Listing true :: map step_of vs ++ []), [].
    simpl. rewrite map_app. simpl. rewrite app_nil_r. repeat split; auto. }
  destruct (upsertViews w world1) as [[[e|]|v|] world2]; simpl in Hvs;
    try (exists (SelectHypertables :: ts ++ SelectContinuousAggregates :: vs);
         split; [simpl; rewrite Hvs; exact Hviews|exact Hviews_only]).
  exists (SelectHypertables :: ts ++ SelectContinuousAggregates :: vs ++
          [DeleteOutdated (usageSchema w) (sourceSchema w)]).
  split.
  - match goal with
    | |- context [Exec ?s ?x] => pose proof (Exec_statements s x) as Hdelete
    end.
    assert (Hall :
      statements (add_logged world2 (Text "Cleanup")) ++
      [DeleteOutdated (usageSchema w) (sourceSchema w)] =
      statements world ++
      SelectHypertables :: ts ++ SelectContinuousAggregates :: vs ++
      [DeleteOutdated (usageSchema w) (sourceSchema w)]).
    { simpl. rewrite Hvs, Hviews, <- !app_assoc. simpl.
      rewrite <- !app_assoc. reflexivity. }
    destruct (Exec _ _) as [[[e|]|v|] world3]; simpl in Hdelete |- *;
      rewrite Hdelete; exact Hall.
  - exists (map step_of ts), (map step_of vs),
           (Listing true :: map step_of vs ++ [Reconciling]), [Reconciling].
    simpl. rewrite map_app. simpl. rewrite map_app. simpl. repeat split; auto.
Qed.

(** What the order implies for the counts: at most one delete. *)
Lemma in_cycle_order_one_delete (steps : list Step) :
  in_cycle_order steps -> count is_Reconciling steps <= 1.
Proof.
  assert (Hnone : forall l, forallb is_upsert_step l = true ->
                            count is_Reconciling l = 0).
  { induction l as [|[] l IH]; simpl; intros H; try discriminate;
      unfold count in *; simpl; auto. }
  intros (ts & vs & after_ts & after_vs & -> & Hts & Hafter_ts & Hvs & Hafter_vs).
  change (Listing false :: ts ++ after_ts) with ([Listing false] ++ ts ++ after_ts).
  rewrite !count_app, (Hnone ts Hts).
  destruct Hafter_ts as [-> | ->]; [unfold count; simpl; lia|].
  change (Listing true :: vs ++ after_vs) with ([Listing true] ++ vs ++ after_vs).
  rewrite !count_app, (Hnone vs Hvs).
  destruct Hafter_vs as [-> | ->]; unfold count; simpl; lia.
Qed.

(** C5. Every cycle, however far it gets, sends its statements in one
    order: the listing of the tables and the upserts of tables, then the
    listing of the views and the upserts of views, then the reconciling
    delete, which is sent at most once.  In a cycle without failures over a
    catalog of N hypertables and M continuous aggregates the statements are
    exactly the listing of the tables, the upsert of each table in the order
    of the listing, the listing of the views, the upsert of each view, and
    the delete; the cycle returns nil and makes exactly N+M upsert attempts,
    each measuring and then recording its object. *)
Theorem run_steps (w : Worker) (world : World) :
  let tables := hypertables (database world) in
  let views := continuous_aggregates (database world) in
  no_failures w world ->
  (forall world0, exists new0,
      statements (snd (run w world0)) = statements world0 ++ new0 /\
      in_cycle_order (map step_of new0) /\
      count is_Reconciling (map step_of new0) <= 1) /\
  exists world' new,
    run w world = (Returns None, world') /\
    statements world' = statements world ++ new /\
    map step_of new =
      Listing false :: flat_map upsert_steps tables ++
      Listing true :: flat_map upsert_steps views ++ [Reconciling] /\
    count is_Measuring (map step_of new) = length tables + length views /\
    count is_Recording (map step_of new) = length tables + length views /\
    count is_Reconciling (map step_of new) <= 1.
Proof.
  intros tables views Hok. split.
  { intros world0. destruct (run_order w world0) as (new0 & Hnew0 & Horder).
    exists new0. split; [exact Hnew0|]. split; [exact Horder|].
    apply in_cycle_order_one_delete. exact Horder. }
  destruct (run_ok w world Hok) as (world' & new & Hrun & _ & Hstmts & Hsteps).
  exists world', new. fold tables views in Hsteps.
  split; [exact Hrun|]. split; [exact Hstmts|]. split; [exact Hsteps|].
  rewrite Hsteps.
  destruct (count_upsert_steps tables) as (Ht1 & Ht2 & Ht3).
  destruct (count_upsert_steps views) as (Hv1 & Hv2 & Hv3).
  change (Listing false :: flat_map upsert_steps tables ++
          Listing true :: flat_map upsert_steps views ++ [Reconciling])
    with ([Listing false] ++ flat_map upsert_steps tables ++
          [Listing true] ++ flat_map upsert_steps views ++ [Reconciling]).
  rewrite !count_app, Ht1, Ht2, Ht3, Hv1, Hv2, Hv3. unfold count. simpl.
  repeat split; lia.
Qed.


Lemma run_steps_witness :
  exists world' new,
    run sample_worker quiet_world = (Returns None, world') /\
    statements world' = [] ++ new /\
    map step_of new =
      Listing false :: flat_map upsert_steps (hypertables quiet_database) ++
      Listing true :: flat_map upsert_steps (continuous_aggregates quiet_database) ++
      [Reconciling] /\
    count is_Measuring (map step_of new) = 2 + 1 /\
    count is_Recording (map step_of new) = 2 + 1 /\
    count is_Reconciling (map step_of new) <= 1.
Proof.
  apply (run_steps sample_worker quiet_world). split.
  - intros k. reflexivity.
  - eexists. vm_compute. reflexivity.
  - vm_compute. reflexivity.
  - vm_compute. reflexivity.
Defined.

(** ** The scheduler *)

Lemma select_loop_ticks (w : Worker) (n : nat) (later : list Ready) (world : World) :
  select_loop w (repeat Tick n ++ CtxDone :: later) world = cycles w n world.
Proof.
  revert world. induction n as [|n IH]; intros world; [reflexivity|].
  simpl. unfold bind.
  destruct (run w world) as [[[e|]|v|] world1]; try reflexivity. apply IH.
Qed.

Lemma cycles_error (w : Worker) (k j : nat) (world world_k world_e : World)
    (e : error) :
  cycles w k world = (Returns None, world_k) ->
  run w world_k = (Returns (Some e), world_e) ->
  cycles w (k + S j) world = (Returns (Some e), world_e).
Proof.
  revert world. induction k as [|k IH]; intros world Hk Hrun.
  - injection Hk as <-. simpl. unfold bind. rewrite Hrun. reflexivity.
  - simpl in *. unfold bind in *.
    destruct (run w world) as [[[e'|]|v|] world1]; try discriminate.
    apply IH; assumption.
Qed.

(** [Start], once the pool is open and the schema migrated. *)
Lemma Start_migrated (ParseDuration : string -> Duration + error)
    (ctx : list Ready) (cfg : configuration.Config) (world world_m : World) :
  let w := {| config := cfg |} in
  dial world = None ->
  migrate w (set_bytesMetrics world ∅) = (Returns None, world_m) ->
  Start ParseDuration ctx cfg world =
  if (String.length (configuration.Duration cfg) =? 0)%nat then run w world_m
  else
    match ParseDuration (configuration.Duration cfg) with
    | inr e => (Returns (Some e), world_m)
    | inl d =>
        if (d <=? 0)%Z then
          (Panics "non-positive interval for NewTicker", world_m)
        else
          bind (run w)
               (fun err => match err with
                           | Some e => ret (Some e)
                           | None => select_loop w ctx
                           end) world_m
    end.
Proof.
  intros w Hdial Hmigrate. unfold Start, NewConnPool, NewGaugeVec.
  unfold bind at 1. rewrite Hdial. unfold bind at 1. unfold bind at 1.
  fold w. rewrite Hmigrate.
  destruct (String.length (configuration.Duration cfg) =? 0)%nat; [reflexivity|].
  destruct (ParseDuration (configuration.Duration cfg)) as [d|e]; [|reflexivity].
  destruct (d <=? 0)%Z; reflexivity.
Qed.

(** C3. With an interval configured, the pool open and the schema
    migrated, the scheduler that receives [n] ticks and then the end of its
    context runs one cycle at once and one cycle per tick, [n + 1] cycles in
    all unless one of them fails; at the end of the context the loop returns
    nil in the world it is in, without a further cycle; and the error of a
    cycle, the first or a later one, ends the scheduler and is its
    result. *)
Theorem Start_repeating (ParseDuration : string -> Duration + error)
    (cfg : configuration.Config) (world world_m : World) (d : Duration)
    (n : nat) (later : list Ready) :
  let w := {| config := cfg |} in
  let ctx := repeat Tick n ++ CtxDone :: later in
  dial world = None ->
  migrate w (set_bytesMetrics world ∅) = (Returns None, world_m) ->
  String.length (configuration.Duration cfg) ≠ 0 ->
  ParseDuration (configuration.Duration cfg) = inl d ->
  (0 < d)%Z ->
  Start ParseDuration ctx cfg world = cycles w (S n) world_m /\
  (forall world_n,
      cycles w (S n) world_m = (Returns None, world_n) ->
      Start ParseDuration ctx cfg world = (Returns None, world_n)) /\
  (forall world', select_loop w (CtxDone :: later) world' = (Returns None, world')) /\
  (forall k world_k e world_e,
      k <= n ->
      cycles w k world_m = (Returns None, world_k) ->
      run w world_k = (Returns (Some e), world_e) ->
      Start ParseDuration ctx cfg world = (Returns (Some e), world_e)).
Proof.
  intros w ctx Hdial Hmigrate Hinterval Hparse Hpositive.
  assert (Hstart : Start ParseDuration ctx cfg world = cycles w (S n) world_m).
  { rewrite (Start_migrated ParseDuration ctx cfg world world_m Hdial Hmigrate).
    destruct (Nat.eqb_spec (String.length (configuration.Duration cfg)) 0);
      [contradiction|].
    rewrite Hparse. destruct (Z.leb_spec d 0); [lia|].
    simpl. unfold bind. fold w.
    destruct (run w world_m) as [[[e|]|v|] world1]; try reflexivity.
    apply select_loop_ticks. }
  split; [exact Hstart|]. split; [|split].
  - intros world_n Hn. rewrite Hstart. exact Hn.
  - reflexivity.
  - intros k world_k e world_e Hk Hcycles Hrun. rewrite Hstart.
    replace (S n) with (k + S (n - k)) by lia.
    eapply cycles_error; eassumption.
Qed.

Lemma Start_repeating_witness :
  Start sample_ParseDuration [Tick; CtxDone] hourly_config quiet_world =
  cycles {| config := hourly_config |} 2
         (snd (migrate {| config := hourly_config |}
                       (set_bytesMetrics quiet_world ∅))).
Proof.
  assert (Hmigrate :
    migrate {| config := hourly_config |} (set_bytesMetrics quiet_world ∅) =
    (Returns None,
     snd (migrate {| config := hourly_config |} (set_bytesMetrics quiet_world ∅))))
    by (vm_compute; reflexivity).
  assert (Hinterval : String.length (configuration.Duration hourly_config) ≠ 0)
    by (vm_compute; discriminate).
  assert (Hparse : sample_ParseDuration (configuration.Duration hourly_config) =
                   inl Hour) by (vm_compute; reflexivity).
  assert (Hpositive : (0 < Hour)%Z) by (vm_compute; reflexivity).
  exact (proj1 (Start_repeating sample_ParseDuration hourly_config quiet_world _
                  Hour 1 [] eq_refl Hmigrate Hinterval Hparse Hpositive)).
Defined.

Lemma migrate_ok (w : Worker) (world : World) :
  (forall k, faults world k = None) ->
  exists world_m,
    migrate w world = (Returns None, world_m) /\
    same_surroundings world world_m /\
    is_Some (usage (database world_m) !! usageSchema w).
Proof.
  intros Hfaults.
  assert (Hmigrate : exists world_m,
    migrate w world = (Returns None, world_m) /\
    is_Some (usage (database world_m) !! usageSchema w)).
  { unfold migrate, Exec, bind, send. simpl. rewrite Hfaults. simpl.
    rewrite Hfaults. simpl.
    destruct (usage (database world) !! usageSchema w) as [rows|] eqn:Husage.
    - eexists. split; [reflexivity|]. simpl. rewrite Husage. eauto.
    - eexists. split; [reflexivity|]. simpl. rewrite lookup_insert_eq. eauto. }
  destruct Hmigrate as (world_m & Hmigrate & Husage).
  exists world_m. split; [exact Hmigrate|]. split; [|exact Husage].
  pose proof (migrate_same_surroundings w world) as Hsame.
  rewrite Hmigrate in Hsame. exact Hsame.
Qed.

(** C8. Without an interval, and with the pool open, the scheduler runs
    one cycle and returns what the cycle returns: once the schema is
    migrated, [Start] is one [run].  When moreover no statement meets a fault
    and every listed object can be measured, the migration and the cycle go
    through and [Start] returns nil. *)
Theorem Start_one_shot (ParseDuration : string -> Duration + error)
    (ctx : list Ready) (cfg : configuration.Config) (world : World) :
  let w := {| config := cfg |} in
  String.length (configuration.Duration cfg) = 0 ->
  dial world = None ->
  (forall world_m,
      migrate w (set_bytesMetrics world ∅) = (Returns None, world_m) ->
      Start ParseDuration ctx cfg world = run w world_m) /\
  ((forall k, faults world k = None) ->
   forallb (measurable (database world)) (hypertables (database world)) = true ->
   forallb (measurable (database world))
           (continuous_aggregates (database world)) = true ->
   exists world_m world',
     migrate w (set_bytesMetrics world ∅) = (Returns None, world_m) /\
     run w world_m = (Returns None, world') /\
     Start ParseDuration ctx cfg world = (Returns None, world')).
Proof.
  intros w Hinterval Hdial.
  assert (Hstart : forall world_m,
    migrate w (set_bytesMetrics world ∅) = (Returns None, world_m) ->
    Start ParseDuration ctx cfg world = run w world_m).
  { intros world_m Hmigrate.
    rewrite (Start_migrated ParseDuration ctx cfg world world_m Hdial Hmigrate).
    rewrite Hinterval. reflexivity. }
  split; [exact Hstart|].
  intros Hfaults Htables Hviews.
  destruct (migrate_ok w (set_bytesMetrics world ∅) Hfaults)
    as (world_m & Hmigrate & Hsame & Husage).
  assert (Hok : no_failures w world_m).
  { split.
    - intros k. rewrite <- (same_faults _ _ Hsame). apply Hfaults.
    - exact Husage.
    - rewrite <- (same_hypertables _ _ Hsame).
      rewrite <- (forallb_measurable_relations _ _ _ (same_relations _ _ Hsame)).
      exact Htables.
    - rewrite <- (same_continuous_aggregates _ _ Hsame).
      rewrite <- (forallb_measurable_relations _ _ _ (same_relations _ _ Hsame)).
      exact Hviews. }
  destruct (run_ok w world_m Hok) as (world' & new & Hrun & _).
  exists world_m, world'. split; [exact Hmigrate|]. split; [exact Hrun|].
  rewrite (Hstart world_m Hmigrate). exact Hrun.
Qed.

Lemma Start_one_shot_witness :
  exists world',
    Start sample_ParseDuration [] sample_config quiet_world = (Returns None, world').
Proof.
  destruct (Start_one_shot sample_ParseDuration [] sample_config quiet_world
              eq_refl eq_refl) as [_ Hok].
  destruct Hok as (world_m & world' & _ & _ & Hstart).
  - intros k. reflexivity.
  - vm_compute. reflexivity.
  - vm_compute. reflexivity.
  - exists world'. exact Hstart.
Defined.

(** ** The sample worlds at work *)

(** A cycle over the sample world: the dropped hypertable is skipped with
    a warning, the empty one is recorded with a rate of zero, and the row of
    the object that exists no more is deleted. *)
Example run_sample_world :
  fst (run sample_worker sample_world) = Returns None /\
  logged (snd (run sample_worker sample_world)) =
    [ Text "Starting Update..";
      Measured "sensor_data" 1048576 (float64 524288);
      Text "WARNING: Table gone seems to no longer exist";
      Measured "empty" 0 (float64 0);
      Measured "future" 1024 (float64 (-1024));
      Text "Cleanup";
      Text "Done" ] /\
  usage (database (snd (run sample_worker sample_world))) !! "usage" =
    Some [ row_of "sensor_data" 1048576 1700000000 (float64 524288);
           row_of "empty" 0 1700000000 (float64 0);
           row_of "future" 1024 1700000000 (float64 (-1024)) ].
Proof. vm_compute. repeat split. Qed.

(** A cycle that loses its connection at the first measurement returns
    the error and sends nothing more. *)
Example run_lossy_world :
  fst (run sample_worker (lossy_world 1)) =
    Returns (Some (errorString "unexpected EOF")) /\
  map step_of (statements (snd (run sample_worker (lossy_world 1)))) =
    [Listing false; Measuring "src" "sensor_data"] /\
  bytesMetrics (snd (run sample_worker (lossy_world 1))) = ∅.
Proof. vm_compute. repeat split. Qed.

(** The repeating scheduler over a world that loses its connection in the
    second cycle: the first cycle is complete, the second one fails at its
    first measurement, the third tick is never served, and the error is the
    result of [Start]. *)
Example Start_lossy_world :
  let result := Start sample_ParseDuration [Tick; Tick; CtxDone] hourly_config
                      (lossy_world 12) in
  fst result = Returns (Some (errorString "unexpected EOF")) /\
  map step_of (statements (snd result)) =
    [ Migrating; Migrating;
      Listing false;
      Measuring "src" "sensor_data"; Recording "sensor_data" 1048576;
      Measuring "src" "empty"; Recording "empty" 0;
      Listing true;
      Measuring "src" "future"; Recording "future" 1024;
      Reconciling;
      Listing false;
      Measuring "src" "sensor_data" ].
Proof. vm_compute. repeat split. Qed.

(** * Further properties of the worker *)

(** ** The test for a vanished object *)

Lemma prefix_iff (p s : string) :
  String.prefix p s = true <-> exists b, s = p +:+ b.
Proof.
  revert s. induction p as [|a p IH]; intros s.
  - split; [intros _; exists s; reflexivity|intros _; destruct s; reflexivity].
  - destruct s as [|c s]; simpl.
    + split; [discriminate|intros [b Hb]; discriminate].
    + destruct (Ascii.ascii_dec a c) as [->|Hne].
      * rewrite IH. split; intros [b Hb]; exists b;
          [rewrite Hb; reflexivity|injection Hb as Hs; exact Hs].
      * split; [discriminate|]. intros [b Hb]. injection Hb as Hc _. congruence.
Qed.

Lemma append_assoc_string (a b c : string) : (a +:+ b) +:+ c = a +:+ b +:+ c.
Proof.
  induction a as [|x a IH]; [reflexivity|].
  change (String x ((a +:+ b) +:+ c) = String x (a +:+ b +:+ c)).
  rewrite IH. reflexivity.
Qed.

Lemma Contains_iff (s substr : string) :
  Contains s substr = true <-> exists a b, s = a +:+ substr +:+ b.
Proof.
  induction s as [|c s IH].
  - change (Contains EmptyString substr)
      with (String.prefix substr EmptyString || false).
    rewrite orb_false_r, prefix_iff. split.
    + intros [b Hb]. exists EmptyString, b. exact Hb.
    + intros (a & b & Hab). destruct a as [|c a]; [|discriminate].
      exists b. exact Hab.
  - change (Contains (String c s) substr)
      with (String.prefix substr (String c s) || Contains s substr).
    rewrite orb_true_iff, prefix_iff, IH. split.
    + intros [[b Hb]|(a & b & Hab)].
      * exists EmptyString, b. exact Hb.
      * exists (String c a), b. simpl. rewrite Hab. reflexivity.
    + intros (a & b & Hab). destruct a as [|c' a].
      * left. exists b. exact Hab.
      * right. simpl in Hab. injection Hab as _ Hs. exists a, b. exact Hs.
Qed.

(** X1. [errIsTableDoesNotExist] holds of an error exactly when the text
    [SQLSTATE 42P01] occurs somewhere in the text of the error.  So it holds
    of a server error of that code whatever its message, and it holds as well
    of an error of any other code whose message happens to quote that
    text. *)
Theorem errIsTableDoesNotExist_iff (err : error) :
  (errIsTableDoesNotExist err = true <->
   exists a b, Error err = a +:+ "SQLSTATE 42P01" +:+ b) /\
  (forall Severity Message,
      errIsTableDoesNotExist (PgError Severity Message "42P01") = true) /\
  (forall Severity before after Code,
      errIsTableDoesNotExist
        (PgError Severity (before +:+ "SQLSTATE 42P01" +:+ after) Code) = true).
Proof.
  split; [apply Contains_iff|]. split; [apply errIsTableDoesNotExist_42P01|].
  intros Severity before after Code. unfold errIsTableDoesNotExist, Error.
  apply Contains_append, Contains_append.
  rewrite !append_assoc_string. apply Contains_append, Contains_prefix.
Qed.

(** ** Relations that only some statements preserve *)

Section PreservesOn.
Context (R : World -> World -> Prop) `{!PreOrder R}.

(** The statements whose execution preserves [R]. *)
Variable allowed : Stmt -> Prop.

Hypothesis R_Now : preserves R Now.
Hypothesis R_Println : forall l, preserves R (Println l).
Hypothesis R_send : forall s, preserves R (send s).
Hypothesis R_execute : forall world s db,
  allowed s -> execute (database world) s = inl db -> R world (set_database world db).
Hypothesis R_Gauge_Set : forall table v, preserves R (Gauge_Set table v).

Lemma on_Exec (s : Stmt) : allowed s -> preserves R (Exec s).
Proof.
  intros Hs. unfold Exec. apply preserves_bind; [exact _|apply R_send|].
  intros [err|]; [apply preserves_ret; exact _|].
  intros world. destruct (execute (database world) s) eqn:E; simpl.
  - eapply R_execute; [exact Hs|exact E].
  - reflexivity.
Qed.

Lemma on_upsert (w : Worker) (schema table : string) (size : Int8) :
  (forall bytes updated_at rate,
      allowed (InsertUsage (usageSchema w) table bytes updated_at rate)) ->
  (forall v, preserves R (Gauge_Set table v)) ->
  preserves R (upsert w schema table size).
Proof.
  intros Hinsert Hgauge. unfold upsert.
  apply preserves_bind; [exact _|apply R_Now|]. intros now. cbv zeta.
  apply preserves_bind; [exact _| |].
  { unfold QueryRow_Scan.
    apply preserves_bind; [exact _|apply (R_send (SelectFirstTime schema table))|].
    intros [err|]; [apply preserves_ret; exact _|].
    intros world. simpl. reflexivity. }
  intros scanned. apply preserves_bind; [exact _| |].
  - destruct scanned as [pgdate|err].
    + destruct (Timestamptz_Get_Time pgdate);
        [apply preserves_ret|apply preserves_panic]; exact _.
    + destruct (negb (is_ErrNoRows err)); apply preserves_ret; exact _.
  - intros [firstDate|err]; [|apply preserves_ret; exact _].
    apply preserves_bind; [exact _|apply R_Println|]. intros _.
    apply preserves_bind; [exact _|apply on_Exec; apply Hinsert|].
    intros [e|]; [apply preserves_ret; exact _|].
    apply preserves_bind; [exact _|apply Hgauge|]. intros _.
    apply preserves_ret; exact _.
Qed.

Lemma on_upsert_rows (w : Worker) (rows : list CatalogRow) :
  (forall row bytes updated_at rate,
      row ∈ rows ->
      allowed (InsertUsage (usageSchema w) (cat_name row) bytes updated_at rate)) ->
  (forall row v, row ∈ rows -> preserves R (Gauge_Set (cat_name row) v)) ->
  preserves R (upsert_rows w rows).
Proof.
  induction rows as [|row rest IH]; intros Hinsert Hgauge; simpl;
    [apply preserves_ret; exact _|].
  assert (Hrest : preserves R (upsert_rows w rest)).
  { apply IH.
    - intros r b u x Hr. apply Hinsert. apply list_elem_of_further. exact Hr.
    - intros r v Hr. apply Hgauge. apply list_elem_of_further. exact Hr. }
  apply preserves_bind; [exact _| |].
  - apply on_upsert.
    + intros b u x. apply Hinsert. apply list_elem_of_here.
    + intros v. apply Hgauge. apply list_elem_of_here.
  - intros [e|]; [|exact Hrest].
    destruct (errIsTableDoesNotExist e); [|apply preserves_ret; exact _].
    apply preserves_bind; [exact _|apply R_Println|]. intros _. exact Hrest.
Qed.

Lemma on_upsertWithQuery (w : Worker) (query : Stmt) :
  (forall table bytes updated_at rate,
      allowed (InsertUsage (usageSchema w) table bytes updated_at rate)) ->
  preserves R (upsertWithQuery w query).
Proof.
  intros Hinsert. unfold upsertWithQuery. apply preserves_bind; [exact _| |].
  - unfold Query. apply preserves_bind; [exact _|apply preserves_strikes; exact _|].
    intros reading. apply preserves_bind; [exact _|apply (R_send query)|].
    intros fault world. simpl. reflexivity.
  - intros [rows|err]; [|apply preserves_ret; exact _].
    apply preserves_bind; [exact _| |intros [e|]; apply preserves_ret; exact _].
    apply on_upsert_rows; intros; [apply Hinsert|apply R_Gauge_Set].
Qed.

Lemma on_run (w : Worker) :
  (forall table bytes updated_at rate,
      allowed (InsertUsage (usageSchema w) table bytes updated_at rate)) ->
  allowed (DeleteOutdated (usageSchema w) (sourceSchema w)) ->
  preserves R (run w).
Proof.
  intros Hinsert Hdelete. unfold run.
  apply preserves_bind; [exact _|apply R_Println|]. intros _.
  apply preserves_bind; [exact _|apply on_upsertWithQuery; exact Hinsert|].
  intros [e|]; [apply preserves_ret; exact _|].
  apply preserves_bind; [exact _|apply on_upsertWithQuery; exact Hinsert|].
  intros [e|]; [apply preserves_ret; exact _|].
  apply preserves_bind; [exact _|apply R_Println|]. intros _.
  apply preserves_bind; [exact _|apply on_Exec; exact Hdelete|].
  intros [e|]; [apply preserves_ret; exact _|].
  apply preserves_bind; [exact _|apply R_Println|]. intros _.
  apply preserves_ret; exact _.
Qed.

Lemma on_select_loop (w : Worker) (received : list Ready) :
  (forall table bytes updated_at rate,
      allowed (InsertUsage (usageSchema w) table bytes updated_at rate)) ->
  allowed (DeleteOutdated (usageSchema w) (sourceSchema w)) ->
  preserves R (select_loop w received).
Proof.
  intros Hinsert Hdelete. induction received as [|[|] later IH]; simpl.
  - intros world. simpl. reflexivity.
  - apply preserves_bind; [exact _|apply on_run; assumption|].
    intros [e|]; [apply preserves_ret; exact _|exact IH].
  - apply preserves_ret; exact _.
Qed.

Lemma on_migrate (w : Worker) :
  allowed (CreateSchema (usageSchema w)) ->
  allowed (CreateUsageTable (usageSchema w)) ->
  preserves R (migrate w).
Proof.
  intros Hschema Htable. unfold migrate.
  apply preserves_bind; [exact _|apply on_Exec; exact Hschema|].
  intros [e|]; [apply preserves_ret; exact _|apply on_Exec; exact Htable].
Qed.

(** [Start], for a relation that the fresh gauge vector preserves too. *)
Lemma on_Start (ParseDuration : string -> Duration + error) (ctx : list Ready)
    (cfg : configuration.Config) :
  let w := {| config := cfg |} in
  preserves R NewGaugeVec ->
  (forall s, written_schema s = Some (usageSchema w) -> allowed s) ->
  preserves R (Start ParseDuration ctx cfg).
Proof.
  intros w Hgauge Hallowed. unfold Start.
  apply preserves_bind; [exact _|intros world; simpl; reflexivity|].
  intros [e|]; [apply preserves_ret; exact _|].
  apply preserves_bind; [exact _|exact Hgauge|]. intros _. cbv zeta.
  apply preserves_bind; [exact _|apply on_migrate; apply Hallowed; reflexivity|].
  intros [e|]; [apply preserves_ret; exact _|].
  assert (Hrun : preserves R (run w)).
  { apply on_run; [intros|]; apply Hallowed; reflexivity. }
  destruct (String.length (configuration.Duration cfg) =? 0)%nat; [exact Hrun|].
  destruct (ParseDuration (configuration.Duration cfg)) as [d|e];
    [|apply preserves_ret; exact _].
  destruct (d <=? 0)%Z; [apply preserves_panic; exact _|].
  apply preserves_bind; [exact _|exact Hrun|].
  intros [e|]; [apply preserves_ret; exact _|].
  apply on_select_loop; [intros|]; apply Hallowed; reflexivity.
Qed.
End PreservesOn.

(** ** The unique key of the usage tables *)

Global Instance keyed_kept_preorder : PreOrder keyed_kept.
Proof. split; unfold keyed_kept; [intros a|intros a b c]; tauto. Qed.

Lemma delete_outdated_primary_key (db : Database) (sourceSchema : string)
    (rows : list UsageRow) :
  primary_key rows -> primary_key (delete_outdated db sourceSchema rows).
Proof.
  unfold primary_key, delete_outdated.
  induction rows as [|r rows IH]; simpl; intros Hkey; [apply NoDup_nil_2|].
  apply NoDup_cons in Hkey as [Hfresh Hkey]. rewrite filter_cons.
  case_decide; [|apply IH; exact Hkey].
  simpl. apply NoDup_cons. split; [|apply IH; exact Hkey].
  intros Hin. apply Hfresh.
  apply list_elem_of_fmap in Hin as (r' & Hr' & Hin).
  apply list_elem_of_filter in Hin as [_ Hin].
  apply list_elem_of_fmap. exists r'. split; assumption.
Qed.

Lemma execute_keyed (world : World) (s : Stmt) (db : Database) :
  execute (database world) s = inl db ->
  keyed_kept world (set_database world db).
Proof.
  intros Hexec Hkeyed schema rows. simpl.
  destruct s as [u|u| | |sc tb|u tb b up r|u src]; simpl in Hexec;
    try (injection Hexec as <-; apply Hkeyed);
    destruct (usage (database world) !! u) as [rows0|] eqn:Hrows0;
    try discriminate; injection Hexec as <-; try apply Hkeyed; simpl;
    (destruct (decide (u = schema)) as [->|Hne];
     [rewrite lookup_insert_eq; intros [= <-]
     |rewrite lookup_insert_ne by exact Hne; apply Hkeyed]).
  - apply NoDup_nil_2.
  - apply insert_usage_primary_key. eapply Hkeyed. exact Hrows0.
  - apply delete_outdated_primary_key. eapply Hkeyed. exact Hrows0.
Qed.

(** The steps of a proof that a computation keeps the unique key. *)
Ltac keyed_kept_steps :=
  auto;
  try (intros; match goal with
               | |- preserves keyed_kept _ =>
                   let world0 := fresh "world0" in
                   let Hk := fresh "Hk" in
                   intros world0 Hk; exact Hk
               end);
  try (intros ? ? ? _; apply execute_keyed).

Lemma upsert_keyed (w : Worker) (schema table : string) (size : Int8) :
  preserves keyed_kept (upsert w schema table size).
Proof. apply (on_upsert keyed_kept (fun _ => True)); keyed_kept_steps. Qed.

Lemma upsert_rows_keyed (w : Worker) (rows : list CatalogRow) :
  preserves keyed_kept (upsert_rows w rows).
Proof. apply (on_upsert_rows keyed_kept (fun _ => True)); keyed_kept_steps. Qed.

Lemma run_keyed (w : Worker) : preserves keyed_kept (run w).
Proof. apply (on_run keyed_kept (fun _ => True)); keyed_kept_steps. Qed.

Lemma select_loop_keyed (w : Worker) (received : list Ready) :
  preserves keyed_kept (select_loop w received).
Proof. apply (on_select_loop keyed_kept (fun _ => True)); keyed_kept_steps. Qed.

Lemma Start_keyed (ParseDuration : string -> Duration + error)
    (ctx : list Ready) (cfg : configuration.Config) :
  preserves keyed_kept (Start ParseDuration ctx cfg).
Proof. apply (on_Start keyed_kept (fun _ => True)); keyed_kept_steps. Qed.

(** X2. The unique key of the usage tables is an invariant of the worker:
    when every usage table has at most one row per name, this is still so
    after an upsert, after a cycle, after any run of the scheduler's loop and
    after [Start], however they end. *)
Theorem keyed_invariant (ParseDuration : string -> Duration + error)
    (w : Worker) (world : World) :
  keyed world ->
  (forall schema table size, keyed (snd (upsert w schema table size world))) /\
  keyed (snd (run w world)) /\
  (forall received, keyed (snd (select_loop w received world))) /\
  (forall ctx, keyed (snd (Start ParseDuration ctx (config w) world))).
Proof.
  intros Hkeyed. split; [|split; [|split]].
  - intros schema table size. apply upsert_keyed. exact Hkeyed.
  - apply run_keyed. exact Hkeyed.
  - intros received. apply select_loop_keyed. exact Hkeyed.
  - intros ctx. apply Start_keyed. exact Hkeyed.
Qed.

Lemma keyed_sample_world : keyed sample_world.
Proof.
  intros schema rows Hrows. simpl in Hrows.
  apply lookup_singleton_Some in Hrows as [_ <-]. apply NoDup_singleton.
Qed.

Lemma keyed_invariant_witness : keyed (snd (run sample_worker sample_world)).
Proof.
  exact (proj1 (proj2 (keyed_invariant sample_ParseDuration sample_worker
                         sample_world keyed_sample_world))).
Defined.

(** ** What an upsert leaves alone *)

Global Instance other_untouched_preorder (other : string) :
  PreOrder (other_untouched other).
Proof.
  split.
  - intros a. split; reflexivity.
  - intros a b c [Hg1 Hu1] [Hg2 Hu2]. split; [congruence|].
    intros schema. rewrite Hu2. apply Hu1.
Qed.

Global Instance other_schemas_untouched_preorder (u : string) :
  PreOrder (other_schemas_untouched u).
Proof.
  split.
  - intros a schema _. reflexivity.
  - intros a b c H1 H2 schema Hne. rewrite (H2 schema Hne). apply H1. exact Hne.
Qed.

Lemma execute_other_schemas (db db' : Database) (s : Stmt) (u : string) :
  (forall u', written_schema s = Some u' -> u' = u) ->
  execute db s = inl db' ->
  forall schema, schema ≠ u -> usage db' !! schema = usage db !! schema.
Proof.
  intros Hs Hexec schema Hne.
  destruct s as [u0|u0| | |sc tb|u0 tb b up r|u0 src]; simpl in Hexec;
    try (injection Hexec as <-; reflexivity);
    specialize (Hs u0 eq_refl); subst u0;
    (destruct (usage db !! u) as [rows0|] eqn:Hrows0;
     try discriminate; injection Hexec as <-; try reflexivity; simpl;
     apply lookup_insert_ne; congruence).
Qed.

Lemma execute_other_untouched (db db' : Database) (s : Stmt) (other : string) :
  ~ touches other s ->
  execute db s = inl db' ->
  forall schema,
    rows_of other (default [] (usage db' !! schema)) =
    rows_of other (default [] (usage db !! schema)).
Proof.
  intros Hs Hexec schema.
  destruct s as [u|u| | |sc tb|u tb b up r|u src]; simpl in Hexec, Hs;
    try (injection Hexec as <-; reflexivity); try tauto;
    (destruct (usage db !! u) as [rows0|] eqn:Hrows0;
     try discriminate; injection Hexec as <-; try reflexivity; simpl;
     destruct (decide (u = schema)) as [<-|Hne];
     [rewrite lookup_insert_eq, Hrows0; simpl
     |rewrite lookup_insert_ne by exact Hne; reflexivity]).
  - reflexivity.
  - apply rows_of_insert_usage_other. congruence.
Qed.

Lemma Exec_failed_database (s : Stmt) (world : World) :
  fst (Exec s world) ≠ Returns None ->
  database (snd (Exec s world)) = database world.
Proof.
  unfold Exec, bind, send. simpl.
  destruct (faults world (length (statements world))); simpl; [reflexivity|].
  destruct (execute (database world) s); simpl; [contradiction|reflexivity].
Qed.

(** An upsert that does not return nil has changed nothing in the
    database. *)
Lemma upsert_failed_database (w : Worker) (schema table : string) (size : Int8)
    (world : World) :
  fst (upsert w schema table size world) ≠ Returns None ->
  database (snd (upsert w schema table size world)) = database world.
Proof.
  destruct (firstDate_of world schema table) as [T0|] eqn:Hfirst.
  - rewrite (upsert_measured w schema table size world T0 Hfirst).
    match goal with
    | |- context [Exec ?s ?x] =>
        pose proof (Exec_failed_database s x) as Hdb;
        destruct (Exec s x) as [[[e|]|v|] world1]
    end; simpl in *; intros Hfail; try contradiction;
      rewrite Hdb by discriminate; reflexivity.
  - rewrite (upsert_unmeasured w schema table size world Hfirst). reflexivity.
Qed.

(** X3. An upsert, however it ends, changes nothing but the usage row and
    the gauge series of its own object: the catalogs, the measured relations,
    the clock and the faults to come are as before, the usage tables of the
    other schemas are as before, and for every other name the usage rows and
    the series of the gauge are as before.  An upsert that does not return
    nil has changed neither the database nor the gauge at all. *)
Theorem upsert_frame (w : Worker) (world : World) (schema table : string)
    (size : Int8) :
  let world' := snd (upsert w schema table size world) in
  same_surroundings world world' /\
  other_schemas_untouched (usageSchema w) world world' /\
  (forall other, other ≠ table -> other_untouched other world world') /\
  (fst (upsert w schema table size world) ≠ Returns None ->
   database world' = database world /\ bytesMetrics world' = bytesMetrics world).
Proof.
  intros world'. split; [apply upsert_same_surroundings|]. split; [|split].
  - apply (on_upsert (other_schemas_untouched (usageSchema w))
             (fun s => forall u', written_schema s = Some u' -> u' = usageSchema w));
      try (intros; intros ? ? ?; reflexivity).
    + intros world0 s db Hs Hexec schema0 Hne. simpl.
      eapply execute_other_schemas; eassumption.
    + intros bytes updated_at rate u' [= <-]. reflexivity.
  - intros other Hne.
    apply (on_upsert (other_untouched other) (fun s => ~ touches other s));
      try (intros; intros ?; split; reflexivity).
    + intros world0 s db Hs Hexec. split; [reflexivity|]. intros schema0.
      unfold usage_rows. simpl. eapply execute_other_untouched; eassumption.
    + intros bytes updated_at rate. simpl. congruence.
    + intros v world0. split; [|reflexivity]. simpl.
      apply lookup_insert_ne. congruence.
  - intros Hfail. split; [apply upsert_failed_database; exact Hfail|].
    unfold world'. rewrite upsert_bytesMetrics.
    destruct (fst (upsert w schema table size world)) as [[e|]|v|];
      try reflexivity. contradiction.
Qed.

(** ** What the worker never writes *)

Ltac other_schemas_steps :=
  try (intros; match goal with
               | |- preserves (other_schemas_untouched _) _ =>
                   intros ? ? ?; reflexivity
               end);
  try (intros ? ? ? ? ? ? ?; simpl; eapply execute_other_schemas; eassumption);
  try (intros; simpl in *;
       match goal with
       | E : Some _ = Some _ |- _ => injection E as <-; reflexivity
       end).

Ltac same_surroundings_steps :=
  try (intros; match goal with
               | |- preserves same_surroundings _ => intros ?; split; reflexivity
               end);
  try (intros ? ? ? _ Hexec; apply execute_catalogs in Hexec as (? & ? & ?);
       split; simpl; congruence);
  try (intros; exact I).

Lemma Start_same_surroundings (ParseDuration : string -> Duration + error)
    (ctx : list Ready) (cfg : configuration.Config) :
  preserves same_surroundings (Start ParseDuration ctx cfg).
Proof.
  apply (on_Start same_surroundings (fun _ => True)); same_surroundings_steps.
Qed.

Lemma select_loop_same_surroundings (w : Worker) (received : list Ready) :
  preserves same_surroundings (select_loop w received).
Proof.
  apply (on_select_loop same_surroundings (fun _ => True)); same_surroundings_steps.
Qed.

Lemma run_other_schemas (w : Worker) :
  preserves (other_schemas_untouched (usageSchema w)) (run w).
Proof.
  apply (on_run (other_schemas_untouched (usageSchema w))
           (fun s => forall u', written_schema s = Some u' -> u' = usageSchema w));
    other_schemas_steps.
Qed.

Lemma select_loop_other_schemas (w : Worker) (received : list Ready) :
  preserves (other_schemas_untouched (usageSchema w)) (select_loop w received).
Proof.
  apply (on_select_loop (other_schemas_untouched (usageSchema w))
           (fun s => forall u', written_schema s = Some u' -> u' = usageSchema w));
    other_schemas_steps.
Qed.

Lemma Start_other_schemas (ParseDuration : string -> Duration + error)
    (ctx : list Ready) (cfg : configuration.Config) :
  preserves (other_schemas_untouched (configuration.PostgresUsageSchema cfg))
            (Start ParseDuration ctx cfg).
Proof.
  apply (on_Start (other_schemas_untouched (configuration.PostgresUsageSchema cfg))
           (fun s => forall u', written_schema s = Some u' ->
                                u' = configuration.PostgresUsageSchema cfg));
    other_schemas_steps.
  intros s Hs u' Hu'. rewrite Hs in Hu'. injection Hu' as <-. reflexivity.
Qed.

(** X4. The worker writes nothing but the usage table of its usage schema.
    After [Start], after a cycle and after any run of the scheduler's loop,
    however they end, the two catalogs and every measured relation are as
    they were, and so is the usage table of every other schema. *)
Theorem worker_writes_only_usage (ParseDuration : string -> Duration + error)
    (w : Worker) (world : World) :
  (forall ctx,
      let world' := snd (Start ParseDuration ctx (config w) world) in
      same_surroundings world world' /\
      other_schemas_untouched (usageSchema w) world world') /\
  (let world' := snd (run w world) in
   same_surroundings world world' /\
   other_schemas_untouched (usageSchema w) world world') /\
  (forall received,
      let world' := snd (select_loop w received world) in
      same_surroundings world world' /\
      other_schemas_untouched (usageSchema w) world world').
Proof.
  split; [|split].
  - intros ctx. split; [apply Start_same_surroundings|apply Start_other_schemas].
  - split; [apply run_same_surroundings|apply run_other_schemas].
  - intros received.
    split; [apply select_loop_same_surroundings|apply select_loop_other_schemas].
Qed.

(** ** The log of a cycle *)

Lemma Exec_logged (s : Stmt) (world : World) :
  logged (snd (Exec s world)) = logged world.
Proof.
  unfold Exec, bind, send. simpl.
  destruct (faults world (length (statements world))); simpl; [reflexivity|].
  destruct (execute (database world) s); reflexivity.
Qed.

Lemma warning_not_Done (table : string) : warning table ≠ Text "Done".
Proof. unfold warning. simpl. discriminate. Qed.

Lemma upsert_logged (w : Worker) (schema table : string) (size : Int8)
    (world : World) :
  exists new,
    logged (snd (upsert w schema table size world)) = logged world ++ new /\
    Text "Done" ∉ new.
Proof.
  destruct (firstDate_of world schema table) as [T0|] eqn:Hfirst.
  - rewrite (upsert_measured w schema table size world T0 Hfirst).
    eexists [Measured table _ _].
    split.
    + match goal with
      | |- context [Exec ?s ?x] =>
          pose proof (Exec_logged s x) as Hlog;
          destruct (Exec s x) as [[[e|]|v|] world1]
      end; simpl in *; rewrite Hlog; reflexivity.
    + intros Hin. apply list_elem_of_singleton in Hin. discriminate.
  - rewrite (upsert_unmeasured w schema table size world Hfirst).
    exists []. simpl. rewrite app_nil_r. split; [reflexivity|apply not_elem_of_nil].
Qed.

Lemma upsert_rows_logged (w : Worker) (rows : list CatalogRow) (world : World) :
  exists new,
    logged (snd (upsert_rows w rows world)) = logged world ++ new /\
    Text "Done" ∉ new.
Proof.
  revert world. induction rows as [|row rows IH]; intros world.
  - exists []. simpl. rewrite app_nil_r. split; [reflexivity|apply not_elem_of_nil].
  - rewrite upsert_rows_cons.
    destruct (upsert_logged w (cat_schema row) (cat_name row) (cat_size row) world)
      as (new1 & Hnew1 & Hno1).
    destruct (upsert w _ _ _ world) as [[[e|]|v|] world1]; simpl in Hnew1;
      try (exists new1; split; assumption).
    + destruct (errIsTableDoesNotExist e); [|exists new1; split; assumption].
      destruct (IH (add_logged world1 (warning (cat_name row))))
        as (new2 & Hnew2 & Hno2).
      exists (new1 ++ warning (cat_name row) :: new2). split.
      * rewrite Hnew2. simpl. rewrite Hnew1, <- !app_assoc. reflexivity.
      * rewrite elem_of_app, elem_of_cons. intros [H|[H|H]]; auto.
        symmetry in H. exact (warning_not_Done _ H).
    + destruct (IH world1) as (new2 & Hnew2 & Hno2).
      exists (new1 ++ new2). split.
      * rewrite Hnew2, Hnew1, <- app_assoc. reflexivity.
      * rewrite elem_of_app. tauto.
Qed.

Lemma upsertWithQuery_logged (w : Worker) (query : Stmt) (world : World) :
  exists new,
    logged (snd (upsertWithQuery w query world)) = logged world ++ new /\
    Text "Done" ∉ new.
Proof.
  unfold upsertWithQuery. rewrite bind_Query.
  destruct (delivered _ _ _) as [rows|err]; cbv beta iota.
  - rewrite snd_bind_scan.
    destruct (upsert_rows_logged w (scanned_rows rows) (add_statement world query))
      as (new & Hnew & Hno).
    exists new. split; [exact Hnew|exact Hno].
  - exists []. simpl. rewrite app_nil_r. split; [reflexivity|apply not_elem_of_nil].
Qed.

(** X5. Every cycle logs [Starting Update..] first.  A cycle that returns
    nil has logged [Cleanup] and then [Done] as its last two lines, and
    [Done] nowhere before; a cycle that ends in any other way has not logged
    [Done] at all. *)
Theorem run_logs_done (w : Worker) (world : World) :
  exists middle,
    logged (snd (run w world)) =
      logged world ++ Text "Starting Update.." :: middle /\
    (fst (run w world) = Returns None ->
     exists lines,
       middle = lines ++ [Text "Cleanup"; Text "Done"] /\ Text "Done" ∉ lines) /\
    (fst (run w world) ≠ Returns None -> Text "Done" ∉ middle).
Proof.
  rewrite run_eq.
  destruct (upsertWithQuery_logged w SelectHypertables
              (add_logged world (Text "Starting Update.."))) as (ts & Hts & Hno_t).
  fold (upsertTables w) in Hts. simpl in Hts. rewrite <- app_assoc in Hts.
  destruct (upsertTables w _) as [[[e|]|v|] world1]; simpl in Hts;
    try (exists ts; split; [exact Hts|]; split; [discriminate|intros _; exact Hno_t]).
  destruct (upsertWithQuery_logged w SelectContinuousAggregates world1)
    as (vs & Hvs & Hno_v).
  fold (upsertViews w) in Hvs. rewrite Hts, <- app_assoc in Hvs.
  assert (Hno : Text "Done" ∉ ts ++ vs) by (rewrite elem_of_app; tauto).
  destruct (upsertViews w world1) as [[[e|]|v|] world2]; simpl in Hvs;
    try (exists (ts ++ vs); split; [exact Hvs|];
         split; [discriminate|intros _; exact Hno]).
  match goal with
  | |- context [Exec ?s ?x] => pose proof (Exec_logged s x) as Hdelete
  end.
  simpl in Hdelete. rewrite Hvs, <- app_assoc in Hdelete.
  assert (Hno' : Text "Done" ∉ (ts ++ vs) ++ [Text "Cleanup"]).
  { rewrite elem_of_app, list_elem_of_singleton. intros [H|H]; [auto|discriminate]. }
  destruct (Exec _ _) as [[[e|]|v|] world3]; simpl in Hdelete |- *;
    try (exists ((ts ++ vs) ++ [Text "Cleanup"]);
         split; [rewrite Hdelete; simpl; rewrite <- !app_assoc; reflexivity|];
         split; [discriminate|intros _; exact Hno']).
  exists ((ts ++ vs) ++ [Text "Cleanup"; Text "Done"]). split.
  - rewrite Hdelete. rewrite <- !app_assoc. simpl. rewrite <- !app_assoc.
    reflexivity.
  - split; [|intros H; contradiction]. intros _. exists (ts ++ vs).
    split; [reflexivity|exact Hno].
Qed.

(** ** What a failed cycle leaves *)

Global Instance names_kept_preorder : PreOrder names_kept.
Proof.
  split.
  - intros a schema rows Hrows. exists rows. split; [exact Hrows|auto].
  - intros a b c Hab Hbc schema rows Hrows.
    destruct (Hab schema rows Hrows) as (rows1 & Hrows1 & Hsub1).
    destruct (Hbc schema rows1 Hrows1) as (rows2 & Hrows2 & Hsub2).
    exists rows2. split; [exact Hrows2|auto].
Qed.

Lemma names_kept_database (a b : World) :
  database b = database a -> names_kept a b.
Proof.
  intros Hdb schema rows Hrows. exists rows. rewrite Hdb. split; [exact Hrows|auto].
Qed.

Lemma insert_usage_keeps_names (rows : list UsageRow) table bytes updated_at rate
    (name : string) :
  name ∈ map u_table rows ->
  name ∈ map u_table (insert_usage rows table bytes updated_at rate).
Proof.
  rewrite insert_usage_keys. destruct (has_key table rows); [auto|].
  intros H. apply elem_of_app. left. exact H.
Qed.

Lemma execute_names_kept (world : World) (s : Stmt) (db : Database) :
  ~ is_delete s ->
  execute (database world) s = inl db ->
  names_kept world (set_database world db).
Proof.
  intros Hs Hexec schema rows Hrows. simpl.
  destruct s as [u|u| | |sc tb|u tb b up r|u src]; simpl in Hexec, Hs;
    try tauto;
    try (injection Hexec as <-; exists rows; split; [exact Hrows|auto]).
  - destruct (usage (database world) !! u) as [rows0|] eqn:Hrows0;
      injection Hexec as <-; simpl.
    + exists rows. split; [exact Hrows|auto].
    + exists rows. split; [|auto]. rewrite lookup_insert_ne; [exact Hrows|].
      congruence.
  - destruct (usage (database world) !! u) as [rows0|] eqn:Hrows0;
      [|discriminate]. injection Hexec as <-. simpl.
    destruct (decide (u = schema)) as [->|Hne].
    + rewrite lookup_insert_eq. eexists. split; [reflexivity|].
      assert (rows0 = rows) by congruence. subst rows0.
      intros name. apply insert_usage_keeps_names.
    + rewrite lookup_insert_ne by exact Hne. exists rows. split; [exact Hrows|auto].
Qed.

Ltac names_kept_steps :=
  try (intros; match goal with
               | |- preserves names_kept _ =>
                   intros ?; apply names_kept_database; reflexivity
               end);
  try (intros ? ? ? ?; apply execute_names_kept; assumption);
  try (intros; simpl; tauto).

Lemma upsert_names_kept (w : Worker) (schema table : string) (size : Int8) :
  preserves names_kept (upsert w schema table size).
Proof.
  apply (on_upsert names_kept (fun s => ~ is_delete s)); names_kept_steps.
Qed.

Lemma upsert_rows_names_kept (w : Worker) (rows : list CatalogRow) :
  preserves names_kept (upsert_rows w rows).
Proof.
  apply (on_upsert_rows names_kept (fun s => ~ is_delete s)); names_kept_steps.
Qed.

Lemma upsertWithQuery_names_kept (w : Worker) (query : Stmt) :
  preserves names_kept (upsertWithQuery w query).
Proof.
  apply (on_upsertWithQuery names_kept (fun s => ~ is_delete s)); names_kept_steps.
Qed.

(** X6. A cycle that does not return nil has deleted nothing: every usage
    table still has a row for every name it had a row for.  Rows are deleted
    by the reconciliation only, which is the last step and which a cycle that
    fails has either not reached or not got through. *)
Theorem failed_run_deletes_nothing (w : Worker) (world : World) :
  fst (run w world) ≠ Returns None ->
  names_kept world (snd (run w world)).
Proof.
  rewrite run_eq.
  pose proof (upsertWithQuery_names_kept w SelectHypertables
                (add_logged world (Text "Starting Update.."))) as Htables.
  fold (upsertTables w) in Htables.
  assert (Hstart : names_kept world (add_logged world (Text "Starting Update..")))
    by (apply names_kept_database; reflexivity).
  destruct (upsertTables w _) as [[[e|]|v|] world1]; simpl in Htables;
    try (intros _; simpl; exact (transitivity Hstart Htables)).
  pose proof (upsertWithQuery_names_kept w SelectContinuousAggregates world1)
    as Hviews.
  fold (upsertViews w) in Hviews.
  destruct (upsertViews w world1) as [[[e|]|v|] world2]; simpl in Hviews;
    try (intros _; simpl;
         exact (transitivity Hstart (transitivity Htables Hviews))).
  match goal with
  | |- context [Exec ?s ?x] => pose proof (Exec_failed_database s x) as Hdelete
  end.
  destruct (Exec _ _) as [[[e|]|v|] world3]; simpl in Hdelete |- *;
    intros Hfail; try contradiction;
    (refine (transitivity Hstart (transitivity Htables (transitivity Hviews _)));
     apply names_kept_database; rewrite Hdelete by discriminate; reflexivity).
Qed.

Lemma failed_run_deletes_nothing_witness :
  names_kept (lossy_world 1) (snd (run sample_worker (lossy_world 1))).
Proof.
  apply (failed_run_deletes_nothing sample_worker (lossy_world 1)).
  vm_compute. discriminate.
Defined.

(** ** Two objects of one name *)

Lemma Exec_nil (s : Stmt) (world world' : World) :
  Exec s world = (Returns None, world') ->
  exists db,
    execute (database world) s = inl db /\
    world' = set_database (add_statement world s) db.
Proof.
  unfold Exec, bind, send. simpl.
  destruct (faults world (length (statements world))); simpl; [discriminate|].
  destruct (execute (database world) s) as [db|e]; [|discriminate].
  intros [= <-]. exists db. split; reflexivity.
Qed.

(** What an upsert that returns nil has done. *)
Lemma upsert_nil (w : Worker) (schema table : string) (size : Int8)
    (world world' : World) :
  upsert w schema table size world = (Returns None, world') ->
  exists T0 rows,
    let Tn := clock world (clock_reads world) in
    let S := size_bytes size in
    firstDate_of world schema table = Some T0 /\
    usage (database world) !! usageSchema w = Some rows /\
    usage (database world') !! usageSchema w =
      Some (insert_usage rows table S (RFC3339 Tn)
                         (bytes_per_day S (days_between Tn T0))) /\
    bytesMetrics world' = <[table := float64 S]> (bytesMetrics world).
Proof.
  destruct (firstDate_of world schema table) as [T0|] eqn:Hfirst.
  - rewrite (upsert_measured w schema table size world T0 Hfirst).
    match goal with
    | |- context [Exec ?s ?x] =>
        pose proof (Exec_bytesMetrics s x) as Hgauge;
        destruct (Exec s x) as [[[e|]|v|] world1] eqn:Hexec
    end; simpl; try discriminate.
    intros [= <-]. apply Exec_nil in Hexec as (db & Hdb & ->).
    unfold insert_of in Hdb. simpl in Hdb.
    destruct (usage (database world) !! usageSchema w) as [rows|] eqn:Hrows;
      [|discriminate].
    injection Hdb as <-. exists T0, rows. cbv zeta.
    split; [reflexivity|]. split; [reflexivity|]. split; [|reflexivity].
    simpl. apply lookup_insert_eq.
  - rewrite (upsert_unmeasured w schema table size world Hfirst).
    destruct (scanned world schema table); discriminate.
Qed.

(** X7. The usage table and the gauge know an object by its name only.
    When two objects of one name, in whatever schemas, are upserted one after
    the other, the usage table (its key being unique) has one row for the
    name after the first upsert and one row after the second, and after the
    second the row and the series of the gauge hold the size of the second
    object: what was recorded for the first is gone. *)
Theorem upsert_same_name (w : Worker) (world world1 world2 : World)
    (schema1 schema2 table : string) (size1 size2 : Int8) :
  keyed world ->
  upsert w schema1 table size1 world = (Returns None, world1) ->
  upsert w schema2 table size2 world1 = (Returns None, world2) ->
  (exists updated_at rate,
      rows_of table (usage_rows world1 (usageSchema w)) =
      [row_of table (size_bytes size1) updated_at rate]) /\
  (exists updated_at rate,
      rows_of table (usage_rows world2 (usageSchema w)) =
      [row_of table (size_bytes size2) updated_at rate]) /\
  bytesMetrics world2 !! table = Some (float64 (size_bytes size2)).
Proof.
  intros Hkeyed Hfirst Hsecond.
  assert (Hkeyed1 : keyed world1).
  { pose proof (upsert_keyed w schema1 table size1 world Hkeyed) as H.
    rewrite Hfirst in H. exact H. }
  apply upsert_nil in Hfirst as (T1 & rows & _ & Hrows & Hrows1 & _).
  apply upsert_nil in Hsecond as (T2 & rows1 & _ & Hrows1' & Hrows2 & Hgauge).
  unfold usage_rows. rewrite Hrows1, Hrows2, Hgauge. simpl.
  split; [|split].
  - eexists. eexists. apply rows_of_insert_usage. eapply Hkeyed. exact Hrows.
  - eexists. eexists. apply rows_of_insert_usage. eapply Hkeyed1. exact Hrows1'.
  - apply lookup_insert_eq.
Qed.

Lemma keyed_singleton (world : World) (schema : string) (r : UsageRow) :
  usage (database world) = {[ schema := [r] ]} -> keyed world.
Proof.
  intros Husage schema0 rows Hrows. rewrite Husage in Hrows.
  apply lookup_singleton_Some in Hrows as [_ <-]. apply NoDup_singleton.
Qed.

Lemma upsert_same_name_witness :
  let world1 :=
    snd (upsert sample_worker "src" "sensor_data" (Int8Present 1048576) twin_world) in
  let world2 :=
    snd (upsert sample_worker "archive" "sensor_data" (Int8Present 7) world1) in
  bytesMetrics world2 !! "sensor_data" = Some (float64 7).
Proof.
  intros world1 world2.
  assert (Hkeyed : keyed twin_world) by (eapply keyed_singleton; reflexivity).
  assert (Hfirst :
    upsert sample_worker "src" "sensor_data" (Int8Present 1048576) twin_world =
    (Returns None, world1)) by (vm_compute; reflexivity).
  assert (Hsecond :
    upsert sample_worker "archive" "sensor_data" (Int8Present 7) world1 =
    (Returns None, world2)) by (vm_compute; reflexivity).
  exact (proj2 (proj2 (upsert_same_name sample_worker twin_world world1 world2
                         "src" "archive" "sensor_data" _ _
                         Hkeyed Hfirst Hsecond))).
Defined.

(** ** Objects that cannot be measured *)






(** ** [Start] before the first cycle *)

Lemma migrate_trace (w : Worker) (world : World) :
  logged (snd (migrate w world)) = logged world /\
  exists new,
    statements (snd (migrate w world)) = statements world ++ new /\
    Forall (fun s => step_of s = Migrating) new.
Proof.
  unfold migrate, bind.
  pose proof (Exec_logged (CreateSchema (usageSchema w)) world) as Hlog1.
  pose proof (Exec_statements (CreateSchema (usageSchema w)) world) as Hsent1.
  destruct (Exec (CreateSchema (usageSchema w)) world) as [[[e|]|v|] world1];
    simpl in Hlog1, Hsent1;
    try (split; [exact Hlog1|];
         exists [CreateSchema (usageSchema w)]; split; [exact Hsent1|];
         repeat constructor).
  pose proof (Exec_logged (CreateUsageTable (usageSchema w)) world1) as Hlog2.
  pose proof (Exec_statements (CreateUsageTable (usageSchema w)) world1) as Hsent2.
  split; [rewrite Hlog2; exact Hlog1|].
  exists [CreateSchema (usageSchema w); CreateUsageTable (usageSchema w)].
  split; [|repeat constructor].
  rewrite Hsent2, Hsent1, <- app_assoc. reflexivity.
Qed.

Lemma Start_undialed (ParseDuration : string -> Duration + error)
    (ctx : list Ready) (cfg : configuration.Config) (world : World) (e : error) :
  dial world = Some e ->
  Start ParseDuration ctx cfg world = (Returns (Some e), world).
Proof.
  intros Hdial. unfold Start, NewConnPool. unfold bind at 1. rewrite Hdial.
  reflexivity.
Qed.

Lemma Start_unmigrated (ParseDuration : string -> Duration + error)
    (ctx : list Ready) (cfg : configuration.Config) (world : World) :
  dial world = None ->
  fst (migrate {| config := cfg |} (set_bytesMetrics world ∅)) ≠ Returns None ->
  Start ParseDuration ctx cfg world =
  migrate {| config := cfg |} (set_bytesMetrics world ∅).
Proof.
  intros Hdial Hmigrate. unfold Start, NewConnPool, NewGaugeVec.
  unfold bind at 1. rewrite Hdial. unfold bind at 1. unfold bind at 1.
  destruct (migrate _ _) as [[[e|]|v|] world_m]; try reflexivity.
  contradiction.
Qed.

(** X10. [Start] does not get to a cycle when the connection pool cannot
    be opened, when the migration does not return nil, or when an interval is
    configured from which no positive duration can be read.  It then does not
    return nil (it returns the error, or panics on an interval that is not
    positive), it has logged nothing, and the statements it has sent, if any,
    are those of the migration: an interval that cannot be read is found only
    after the schema has been migrated. *)
Theorem Start_without_cycle (ParseDuration : string -> Duration + error)
    (ctx : list Ready) (cfg : configuration.Config) (world : World) :
  let w := {| config := cfg |} in
  let started := Start ParseDuration ctx cfg world in
  dial world ≠ None \/
  fst (migrate w (set_bytesMetrics world ∅)) ≠ Returns None \/
  (String.length (configuration.Duration cfg) ≠ 0 /\
   forall d, ParseDuration (configuration.Duration cfg) = inl d -> (d <= 0)%Z) ->
  fst started ≠ Returns None /\
  logged (snd started) = logged world /\
  exists new,
    statements (snd started) = statements world ++ new /\
    Forall (fun s => step_of s = Migrating) new.
Proof.
  intros w started Hwhy. unfold started.
  destruct (dial world) as [e|] eqn:Hdial.
  { rewrite (Start_undialed ParseDuration ctx cfg world e Hdial). simpl.
    split; [discriminate|]. split; [reflexivity|].
    exists []. rewrite app_nil_r. split; [reflexivity|constructor]. }
  destruct (migrate_trace w (set_bytesMetrics world ∅)) as (Hlog & new & Hsent & Hnew).
  simpl in Hlog, Hsent.
  assert (Hcases : fst (migrate w (set_bytesMetrics world ∅)) = Returns None \/
                   fst (migrate w (set_bytesMetrics world ∅)) ≠ Returns None).
  { destruct (fst (migrate w (set_bytesMetrics world ∅))) as [[e|]|v|];
      [right; discriminate|left; reflexivity|right; discriminate|right; discriminate]. }
  destruct Hcases as [Hmigrated|Hmigrated].
  - destruct (migrate w (set_bytesMetrics world ∅)) as [r world_m] eqn:Hmigrate.
    simpl in Hmigrated, Hlog, Hsent. subst r.
    destruct Hwhy as [Hwhy|[Hwhy|[Hinterval Hparse]]]; try contradiction.
    rewrite (Start_migrated ParseDuration ctx cfg world world_m Hdial Hmigrate).
    destruct (Nat.eqb_spec (String.length (configuration.Duration cfg)) 0);
      [contradiction|].
    destruct (ParseDuration (configuration.Duration cfg)) as [d|e].
    + specialize (Hparse d eq_refl). destruct (Z.leb_spec d 0); [|lia]. simpl.
      split; [discriminate|]. split; [exact Hlog|].
      exists new. split; [exact Hsent|exact Hnew].
    + simpl. split; [discriminate|]. split; [exact Hlog|].
      exists new. split; [exact Hsent|exact Hnew].
  - rewrite (Start_unmigrated ParseDuration ctx cfg world Hdial Hmigrated).
    split; [exact Hmigrated|]. split; [exact Hlog|].
    exists new. split; [exact Hsent|exact Hnew].
Qed.

Lemma Start_without_cycle_witness :
  fst (Start sample_ParseDuration [Tick; CtxDone] vague_config quiet_world) ≠
  Returns None.
Proof.
  refine (proj1 (Start_without_cycle sample_ParseDuration [Tick; CtxDone]
                   vague_config quiet_world _)).
  right. right. split; [vm_compute; discriminate|].
  intros d Hd. vm_compute in Hd. discriminate Hd.
Defined.

(** ** What a cycle without failures records *)

Lemma other_untouched_recorded (w : Worker) (a b : World) (row : CatalogRow) :
  other_untouched (cat_name row) a b ->
  (recorded_in w a row -> recorded_in w b row) /\
  (gauged_in a row -> gauged_in b row).
Proof.
  intros [Hgauge Hrows]. split.
  - intros (updated_at & rate & H). exists updated_at, rate.
    rewrite Hrows. exact H.
  - unfold gauged_in. rewrite Hgauge. auto.
Qed.

Lemma upsert_rows_other_untouched (w : Worker) (rows : list CatalogRow)
    (other : string) :
  other ∉ map cat_name rows ->
  preserves (other_untouched other) (upsert_rows w rows).
Proof.
  intros Hother.
  assert (Hne : forall row, row ∈ rows -> cat_name row ≠ other).
  { intros row Hrow Heq. apply Hother. rewrite <- Heq.
    apply list_elem_of_fmap. exists row. auto. }
  apply (on_upsert_rows (other_untouched other) (fun s => ~ touches other s));
    try (intros; intros ?; split; reflexivity).
  - intros world0 s db Hs Hexec. split; [reflexivity|]. intros schema0.
    unfold usage_rows. simpl. eapply execute_other_untouched; eassumption.
  - intros row bytes updated_at rate Hrow. simpl. apply Hne. exact Hrow.
  - intros row v Hrow world0. split; [|reflexivity]. simpl.
    apply lookup_insert_ne. apply Hne. exact Hrow.
Qed.

Lemma upsert_ok_values (w : Worker) (world : World) (row : CatalogRow) :
  (forall k, faults world k = None) ->
  keyed world ->
  is_Some (usage (database world) !! usageSchema w) ->
  measurable (database world) row = true ->
  exists world',
    upsert w (cat_schema row) (cat_name row) (cat_size row) world =
      (Returns None, world') /\
    same_surroundings world world' /\
    keyed world' /\
    is_Some (usage (database world') !! usageSchema w) /\
    recorded_in w world' row /\
    gauged_in world' row.
Proof.
  intros Hfaults Hkeyed [rows Husage] Hmeasurable.
  destruct (measurable_first_recorded _ _ (clock world (clock_reads world))
              Hmeasurable) as [T0 Hfirst].
  pose proof (upsert_returns w world (cat_schema row) (cat_name row) (cat_size row)
                T0 rows (Hfaults _) (Hfaults _) Hfirst Husage) as Hupsert.
  eexists. split; [exact Hupsert|]. split; [|split; [|split; [|split]]].
  - pose proof (upsert_same_surroundings w (cat_schema row) (cat_name row)
                  (cat_size row) world) as Hsame.
    rewrite Hupsert in Hsame. exact Hsame.
  - pose proof (upsert_keyed w (cat_schema row) (cat_name row) (cat_size row)
                  world Hkeyed) as Hk.
    rewrite Hupsert in Hk. exact Hk.
  - simpl. rewrite lookup_insert_eq. eauto.
  - eexists. eexists. unfold usage_rows. simpl. rewrite lookup_insert_eq. simpl.
    apply rows_of_insert_usage. eapply Hkeyed. exact Husage.
  - unfold gauged_in. simpl. apply lookup_insert_eq.
Qed.

Lemma upsert_rows_ok_values (w : Worker) (rows : list CatalogRow) (world : World) :
  (forall k, faults world k = None) ->
  keyed world ->
  is_Some (usage (database world) !! usageSchema w) ->
  forallb (measurable (database world)) rows = true ->
  NoDup (map cat_name rows) ->
  exists world',
    upsert_rows w rows world = (Returns None, world') /\
    same_surroundings world world' /\
    keyed world' /\
    is_Some (usage (database world') !! usageSchema w) /\
    forall row, row ∈ rows -> recorded_in w world' row /\ gauged_in world' row.
Proof.
  revert world.
  induction rows as [|row rows IH]; intros world Hfaults Hkeyed Husage Hrows Hnames.
  - exists world. split; [reflexivity|]. split; [reflexivity|].
    split; [exact Hkeyed|]. split; [exact Husage|].
    intros row Hrow. apply elem_of_nil in Hrow. contradiction.
  - simpl in Hrows. apply andb_true_iff in Hrows as [Hrow Hrows].
    simpl in Hnames. apply NoDup_cons in Hnames as [Hfresh Hnames].
    destruct (upsert_ok_values w world row Hfaults Hkeyed Husage Hrow)
      as (world1 & Hupsert & Hsame1 & Hkeyed1 & Husage1 & Hrec1 & Hgauge1).
    destruct (IH world1) as (world2 & Hrest & Hsame2 & Hkeyed2 & Husage2 & Hall);
      try assumption.
    + intros k. rewrite <- (same_faults _ _ Hsame1). apply Hfaults.
    + rewrite <- Hrows. apply forallb_measurable_relations.
      symmetry. apply (same_relations _ _ Hsame1).
    + exists world2. rewrite upsert_rows_cons, Hupsert.
      split; [exact Hrest|]. split; [etransitivity; eassumption|].
      split; [exact Hkeyed2|]. split; [exact Husage2|].
      intros r Hr. apply elem_of_cons in Hr as [->|Hr]; [|apply Hall; exact Hr].
      pose proof (upsert_rows_other_untouched w rows (cat_name row) Hfresh world1)
        as Hother.
      rewrite Hrest in Hother. simpl in Hother.
      destruct (other_untouched_recorded w world1 world2 row Hother) as [Hr1 Hg1].
      split; [apply Hr1; exact Hrec1|apply Hg1; exact Hgauge1].
Qed.

Lemma rows_of_delete_outdated (db : Database) (sourceSchema name : string)
    (rows : list UsageRow) :
  name ∈ names_in sourceSchema (hypertables db) \/
  name ∈ names_in sourceSchema (continuous_aggregates db) ->
  rows_of name (delete_outdated db sourceSchema rows) = rows_of name rows.
Proof.
  intros Hlisted. unfold rows_of.
  induction rows as [|r rows IH]; [reflexivity|].
  destruct (decide (u_table r = name)) as [Heq|Hne].
  - assert (Hin : r ∈ delete_outdated db sourceSchema (r :: rows)).
    { apply delete_outdated_keeps; [apply list_elem_of_here|].
      rewrite Heq. exact Hlisted. }
    unfold delete_outdated in *. rewrite filter_cons in Hin |- *.
    case_decide as Hkeep.
    + rewrite !filter_cons. case_decide; [|contradiction]. f_equal. exact IH.
    + exfalso. apply list_elem_of_filter in Hin as [Hkeep' _]. contradiction.
  - unfold delete_outdated in *. rewrite (filter_cons _ r).
    case_decide; rewrite !filter_cons; case_decide; try contradiction; exact IH.
Qed.

Lemma names_in_elem_of (schema name : string) (catalog : list CatalogRow) :
  name ∈ names_in schema catalog <->
  exists row, row ∈ catalog /\ cat_schema row = schema /\ cat_name row = name.
Proof.
  unfold names_in. rewrite list_elem_of_fmap. split.
  - intros (row & -> & Hrow). apply list_elem_of_filter in Hrow as [Hs Hrow].
    exists row. auto.
  - intros (row & Hrow & Hs & <-). exists row. split; [reflexivity|].
    apply list_elem_of_filter. auto.
Qed.

Lemma NoDup_names_eq (rows : list CatalogRow) (a b : CatalogRow) :
  NoDup (map cat_name rows) -> a ∈ rows -> b ∈ rows ->
  cat_name a = cat_name b -> a = b.
Proof.
  induction rows as [|r rows IH]; simpl; intros Hnames Ha Hb Heq.
  - apply elem_of_nil in Ha. contradiction.
  - apply NoDup_cons in Hnames as [Hfresh Hnames].
    apply elem_of_cons in Ha as [->|Ha]; apply elem_of_cons in Hb as [->|Hb].
    + reflexivity.
    + exfalso. apply Hfresh. rewrite Heq. apply list_elem_of_fmap. exists b. auto.
    + exfalso. apply Hfresh. rewrite <- Heq. apply list_elem_of_fmap. exists a. auto.
    + apply IH; assumption.
Qed.

(** X11. In a cycle without failures over objects of distinct names, on
    usage tables of unique key, the cycle returns nil and leaves this: the
    gauge has a series for every listed object, of whatever schema, with the
    listed size of the object; the usage table has exactly one row for every
    listed object of the source schema, with its listed size; it has no row
    for a listed object of another schema, which has been recorded and
    deleted again; and every row it has is the row of a listed object of the
    source schema. *)
Theorem run_records_listing (w : Worker) (world : World) :
  let listed :=
    hypertables (database world) ++ continuous_aggregates (database world) in
  no_failures w world ->
  keyed world ->
  NoDup (map cat_name listed) ->
  exists world',
    run w world = (Returns None, world') /\
    (forall row, row ∈ listed -> gauged_in world' row) /\
    (forall row, row ∈ listed -> cat_schema row = sourceSchema w ->
                 recorded_in w world' row) /\
    (forall row, row ∈ listed -> cat_schema row ≠ sourceSchema w ->
                 rows_of (cat_name row) (usage_rows world' (usageSchema w)) = []) /\
    (forall r, r ∈ usage_rows world' (usageSchema w) ->
               exists row, row ∈ listed /\ cat_schema row = sourceSchema w /\
                           cat_name row = u_table r).
Proof.
  intros listed [Hfaults Husage Htables Hviews] Hkeyed Hnames.
  set (tables := hypertables (database world)) in *.
  set (views := continuous_aggregates (database world)) in *.
  pose proof Hnames as Hsplit. unfold listed in Hsplit.
  rewrite map_app in Hsplit. apply NoDup_app in Hsplit as (Hnames_t & Hdisjoint & Hnames_v).
  set (world_q := add_statement (add_logged world (Text "Starting Update.."))
                                SelectHypertables).
  destruct (upsert_rows_ok_values w tables world_q Hfaults Hkeyed Husage Htables
              Hnames_t)
    as (world1 & Hrows1 & Hsame1 & Hkeyed1 & Husage1 & Hall1).
  assert (Hfaults1 : forall k, faults world1 k = None).
  { intros k. rewrite <- (same_faults _ _ Hsame1). apply Hfaults. }
  set (world_v := add_statement world1 SelectContinuousAggregates).
  destruct (upsert_rows_ok_values w views world_v Hfaults1 Hkeyed1 Husage1)
    as (world2 & Hrows2 & Hsame2 & Hkeyed2 & Husage2 & Hall2).
  { rewrite <- Hviews. apply forallb_measurable_relations.
    symmetry. apply (same_relations _ _ Hsame1). }
  { exact Hnames_v. }
  assert (Hfaults2 : forall k, faults world2 k = None).
  { intros k. rewrite <- (same_faults _ _ Hsame2). apply Hfaults1. }
  destruct Husage2 as [rows2 Husage2].
  assert (Htables_run :
    upsertTables w (add_logged world (Text "Starting Update..")) =
    (Returns None, world1)).
  { unfold upsertTables. rewrite upsertWithQuery_listing by apply Hfaults.
    exact Hrows1. }
  assert (Hviews_run : upsertViews w world1 = (Returns None, world2)).
  { unfold upsertViews. rewrite upsertWithQuery_listing by apply Hfaults1.
    rewrite <- (same_continuous_aggregates _ _ Hsame1). exact Hrows2. }
  set (db3 := set_usage (database world2)
                (<[usageSchema w :=
                     delete_outdated (database world2) (sourceSchema w) rows2]>
                   (usage (database world2)))).
  set (world' :=
    add_logged
      (set_database
         (add_statement (add_logged world2 (Text "Cleanup"))
                        (DeleteOutdated (usageSchema w) (sourceSchema w)))
         db3)
      (Text "Done")).
  assert (Hrun : run w world = (Returns None, world')).
  { rewrite run_eq, Htables_run, Hviews_run.
    unfold Exec, bind, send. simpl.
    rewrite Hfaults2. simpl. rewrite Husage2. reflexivity. }
  assert (Htables2 : hypertables (database world2) = tables).
  { rewrite <- (same_hypertables _ _ Hsame2). simpl.
    rewrite <- (same_hypertables _ _ Hsame1). reflexivity. }
  assert (Hviews2 : continuous_aggregates (database world2) = views).
  { rewrite <- (same_continuous_aggregates _ _ Hsame2). simpl.
    rewrite <- (same_continuous_aggregates _ _ Hsame1). reflexivity. }
  assert (Hall : forall row, row ∈ listed ->
                             recorded_in w world2 row /\ gauged_in world2 row).
  { intros row Hrow. unfold listed in Hrow.
    apply elem_of_app in Hrow as [Hrow|Hrow]; [|apply Hall2; exact Hrow].
    destruct (Hall1 row Hrow) as [Hrec Hgauge].
    assert (Hfresh : cat_name row ∉ map cat_name views).
    { intros Hin. apply (Hdisjoint (cat_name row)); [|exact Hin].
      apply list_elem_of_fmap. exists row. auto. }
    pose proof (upsert_rows_other_untouched w views (cat_name row) Hfresh world_v)
      as Hother.
    rewrite Hrows2 in Hother. simpl in Hother.
    destruct (other_untouched_recorded w world_v world2 row Hother) as [Hr Hg].
    split; [apply Hr; exact Hrec|apply Hg; exact Hgauge]. }
  assert (Hrows3 :
    usage_rows world' (usageSchema w) =
    delete_outdated (database world2) (sourceSchema w) rows2).
  { unfold usage_rows, world', db3. simpl. rewrite lookup_insert_eq. reflexivity. }
  assert (Hlisted : forall r,
    r ∈ delete_outdated (database world2) (sourceSchema w) rows2 ->
    exists row, row ∈ listed /\ cat_schema row = sourceSchema w /\
                cat_name row = u_table r).
  { intros r Hr. apply delete_outdated_listed in Hr as [_ Hr].
    rewrite Htables2, Hviews2, !names_in_elem_of in Hr.
    destruct Hr as [(row & Hrow & Hs & Hn)|(row & Hrow & Hs & Hn)];
      exists row; (split; [|auto]); unfold listed; apply elem_of_app; auto. }
  exists world'. split; [exact Hrun|]. split; [|split; [|split]].
  - intros row Hrow. apply Hall. exact Hrow.
  - intros row Hrow Hschema. destruct (Hall row Hrow) as [(updated_at & rate & Hrec) _].
    exists updated_at, rate. rewrite Hrows3.
    rewrite rows_of_delete_outdated.
    + unfold usage_rows in Hrec. rewrite Husage2 in Hrec. exact Hrec.
    + rewrite Htables2, Hviews2, !names_in_elem_of.
      unfold listed in Hrow. apply elem_of_app in Hrow as [Hrow|Hrow];
        [left|right]; exists row; auto.
  - intros row Hrow Hschema. rewrite Hrows3.
    apply rows_of_absent. intros Hin.
    apply list_elem_of_fmap in Hin as (r & Hname & Hr).
    destruct (Hlisted r Hr) as (row' & Hrow' & Hschema' & Hname').
    assert (row' = row).
    { apply (NoDup_names_eq listed); try assumption. congruence. }
    subst row'. contradiction.
  - intros r Hr. rewrite Hrows3 in Hr. apply Hlisted. exact Hr.
Qed.

Lemma run_records_listing_witness :
  exists world',
    run sample_worker quiet_world = (Returns None, world') /\
    forall row,
      row ∈ hypertables quiet_database ++ continuous_aggregates quiet_database ->
      gauged_in world' row.
Proof.
  assert (Hok : no_failures sample_worker quiet_world).
  { split;
      [intros k; reflexivity|eexists; vm_compute; reflexivity
      |vm_compute; reflexivity|vm_compute; reflexivity]. }
  assert (Hkeyed : keyed quiet_world) by (eapply keyed_singleton; reflexivity).
  assert (Hnames :
    NoDup (map cat_name (hypertables (database quiet_world) ++
                         continuous_aggregates (database quiet_world)))).
  { apply (bool_decide_unpack _). vm_compute. reflexivity. }
  destruct (run_records_listing sample_worker quiet_world Hok Hkeyed Hnames)
    as (world' & Hrun & Hgauged & _).
  exists world'. split; [exact Hrun|exact Hgauged].
Defined.

(** ** A cycle without its usage table *)

Lemma measurable_firstDate (world : World) (row : CatalogRow) :
  faults world (length (statements world)) = None ->
  measurable (database world) row = true ->
  exists T0, firstDate_of world (cat_schema row) (cat_name row) = Some T0.
Proof.
  intros Hfault. unfold measurable, firstDate_of, scanned. rewrite Hfault.
  destruct (select_first_time (database world) (cat_schema row) (cat_name row))
    as [[t| | |]|[| |]]; try discriminate; intros _; eexists; reflexivity.
Qed.

Lemma Exec_refused (s : Stmt) (world : World) (err : error) :
  faults world (length (statements world)) = None ->
  execute (database world) s = inr err ->
  Exec s world = (Returns (Some err), add_statement world s).
Proof.
  intros Hfault Hexec. unfold Exec, bind, send. simpl.
  rewrite Hfault. simpl. rewrite Hexec. reflexivity.
Qed.

(** The upsert of a measurable object when the usage table is missing:
    the insert is refused with the error of an undefined table, and nothing
    is changed. *)
Lemma upsert_without_usage_table (w : Worker) (world : World) (row : CatalogRow) :
  (forall k, faults world k = None) ->
  usage (database world) !! usageSchema w = None ->
  measurable (database world) row = true ->
  exists world',
    upsert w (cat_schema row) (cat_name row) (cat_size row) world =
      (Returns (Some (undefined_table (usageSchema w +:+ ".usage"))), world') /\
    same_surroundings world world' /\
    database world' = database world /\
    bytesMetrics world' = bytesMetrics world /\
    exists lines, logged world' = logged world ++ lines.
Proof.
  intros Hfaults Husage Hmeasurable.
  destruct (measurable_firstDate world row (Hfaults _) Hmeasurable) as [T0 Hfirst].
  pose proof (upsert_measured w (cat_schema row) (cat_name row) (cat_size row)
                world T0 Hfirst) as Hupsert.
  cbv zeta in Hupsert. rewrite Exec_refused with
    (err := undefined_table (usageSchema w +:+ ".usage")) in Hupsert.
  - simpl in Hupsert. eexists. split; [exact Hupsert|].
    split; [split; reflexivity|]. split; [reflexivity|]. split; [reflexivity|].
    simpl. eexists. reflexivity.
  - apply Hfaults.
  - unfold insert_of. simpl. rewrite Husage. reflexivity.
Qed.

Lemma errIsTableDoesNotExist_undefined_table (name : string) :
  errIsTableDoesNotExist (undefined_table name) = true.
Proof. apply errIsTableDoesNotExist_42P01. Qed.

Lemma upsert_rows_without_usage_table (w : Worker) (rows : list CatalogRow)
    (world : World) :
  (forall k, faults world k = None) ->
  usage (database world) !! usageSchema w = None ->
  forallb (measurable (database world)) rows = true ->
  exists world',
    upsert_rows w rows world = (Returns None, world') /\
    same_surroundings world world' /\
    database world' = database world /\
    bytesMetrics world' = bytesMetrics world /\
    exists lines,
      logged world' = logged world ++ lines /\
      forall row, row ∈ rows -> warning (cat_name row) ∈ lines.
Proof.
  revert world. induction rows as [|row rows IH]; intros world Hfaults Husage Hrows.
  - exists world. split; [reflexivity|]. split; [reflexivity|].
    split; [reflexivity|]. split; [reflexivity|].
    exists []. rewrite app_nil_r. split; [reflexivity|].
    intros row Hrow. apply elem_of_nil in Hrow. contradiction.
  - simpl in Hrows. apply andb_true_iff in Hrows as [Hrow Hrows].
    destruct (upsert_without_usage_table w world row Hfaults Husage Hrow)
      as (world1 & Hupsert & Hsame1 & Hdb1 & Hgauge1 & lines1 & Hlog1).
    set (world1' := add_logged world1 (warning (cat_name row))).
    destruct (IH world1')
      as (world2 & Hrest & Hsame2 & Hdb2 & Hgauge2 & lines2 & Hlog2 & Hwarn2).
    + intros k. simpl. rewrite <- (same_faults _ _ Hsame1). apply Hfaults.
    + simpl. rewrite Hdb1. exact Husage.
    + simpl. rewrite Hdb1. exact Hrows.
    + exists world2. rewrite upsert_rows_cons, Hupsert.
      rewrite errIsTableDoesNotExist_undefined_table. fold world1'.
      split; [exact Hrest|]. split.
      { etransitivity; [exact Hsame1|]. etransitivity; [|exact Hsame2].
        split; reflexivity. }
      split; [rewrite Hdb2; exact Hdb1|]. split; [rewrite Hgauge2; exact Hgauge1|].
      exists (lines1 ++ warning (cat_name row) :: lines2). split.
      * rewrite Hlog2. simpl. rewrite Hlog1, <- !app_assoc. reflexivity.
      * intros r Hr. apply elem_of_app. right.
        apply elem_of_cons in Hr as [->|Hr]; [apply list_elem_of_here|].
        apply list_elem_of_further. apply Hwarn2. exact Hr.
Qed.

(** X12. When the usage table is missing, and nothing else fails, every
    insert is refused with the error of an undefined table, which is taken
    for a vanished object: the cycle logs the warning that the object seems
    to no longer exist for every listed object, leaves the database and the
    gauge as they were, and returns the error of the undefined usage table
    when it comes to the reconciling delete. *)
Theorem run_without_usage_table (w : Worker) (world : World) :
  let listed :=
    hypertables (database world) ++ continuous_aggregates (database world) in
  (forall k, faults world k = None) ->
  usage (database world) !! usageSchema w = None ->
  forallb (measurable (database world)) listed = true ->
  exists world' lines,
    run w world =
      (Returns (Some (undefined_table (usageSchema w +:+ ".usage"))), world') /\
    database world' = database world /\
    bytesMetrics world' = bytesMetrics world /\
    logged world' = logged world ++ lines /\
    forall row, row ∈ listed -> warning (cat_name row) ∈ lines.
Proof.
  intros listed Hfaults Husage Hlisted. unfold listed in Hlisted.
  rewrite forallb_app in Hlisted. apply andb_true_iff in Hlisted as [Htables Hviews].
  set (world_q := add_statement (add_logged world (Text "Starting Update.."))
                                SelectHypertables).
  destruct (upsert_rows_without_usage_table w (hypertables (database world)) world_q
              Hfaults Husage Htables)
    as (world1 & Hrows1 & Hsame1 & Hdb1 & Hgauge1 & lines1 & Hlog1 & Hwarn1).
  assert (Hfaults1 : forall k, faults world1 k = None).
  { intros k. rewrite <- (same_faults _ _ Hsame1). apply Hfaults. }
  set (world_v := add_statement world1 SelectContinuousAggregates).
  destruct (upsert_rows_without_usage_table w
              (continuous_aggregates (database world)) world_v)
    as (world2 & Hrows2 & Hsame2 & Hdb2 & Hgauge2 & lines2 & Hlog2 & Hwarn2).
  { exact Hfaults1. }
  { simpl. rewrite Hdb1. exact Husage. }
  { simpl. rewrite Hdb1. exact Hviews. }
  assert (Hfaults2 : forall k, faults world2 k = None).
  { intros k. rewrite <- (same_faults _ _ Hsame2). apply Hfaults1. }
  assert (Htables_run :
    upsertTables w (add_logged world (Text "Starting Update..")) =
    (Returns None, world1)).
  { unfold upsertTables. rewrite upsertWithQuery_listing by apply Hfaults.
    exact Hrows1. }
  assert (Hviews_run : upsertViews w world1 = (Returns None, world2)).
  { unfold upsertViews. rewrite upsertWithQuery_listing by apply Hfaults1.
    rewrite Hdb1. exact Hrows2. }
  assert (Hdb : database world2 = database world).
  { rewrite Hdb2. simpl. exact Hdb1. }
  eexists. exists (Text "Starting Update.." :: lines1 ++ lines2 ++ [Text "Cleanup"]).
  split; [|split; [|split; [|split]]].
  - rewrite run_eq, Htables_run, Hviews_run.
    rewrite Exec_refused with
      (err := undefined_table (usageSchema w +:+ ".usage")); [reflexivity| |].
    + apply Hfaults2.
    + simpl. rewrite Hdb, Husage. reflexivity.
  - simpl. exact Hdb.
  - simpl. rewrite Hgauge2. simpl. exact Hgauge1.
  - simpl. rewrite Hlog2. simpl. rewrite Hlog1. simpl.
    rewrite <- !app_assoc. reflexivity.
  - intros row Hrow. apply list_elem_of_further.
    apply elem_of_app in Hrow as [Hrow|Hrow].
    + apply elem_of_app. left. apply Hwarn1. exact Hrow.
    + apply elem_of_app. right. apply elem_of_app. left. apply Hwarn2. exact Hrow.
Qed.

Lemma run_without_usage_table_witness :
  exists world' lines,
    run sample_worker bare_world =
      (Returns (Some (undefined_table "usage.usage")), world') /\
    database world' = database bare_world /\
    bytesMetrics world' = bytesMetrics bare_world /\
    logged world' = [] ++ lines /\
    forall row,
      row ∈ hypertables quiet_database ++ continuous_aggregates quiet_database ->
      warning (cat_name row) ∈ lines.
Proof.
  apply (run_without_usage_table sample_worker bare_world).
  - intros k. reflexivity.
  - vm_compute. reflexivity.
  - vm_compute. reflexivity.
Defined.

(** ** The failure of an upsert *)





(** ** The listings *)

Lemma upsertWithQuery_struck (w : Worker) (query : Stmt) (world : World)
    (e : error) :
  let k := length (statements world) in
  let rows := listing (database world) query in
  let sent := add_statement world query in
  faults world k = Some e ->
  (readings world k = AtQuery ->
   upsertWithQuery w query world = (Returns (Some e), sent)) /\
  (forall n, readings world k = AtNext n ->
             upsertWithQuery w query world = upsert_rows w (take n rows) sent) /\
  (forall n, readings world k = AtScan n -> (n < length rows)%nat ->
             upsertWithQuery w query world =
             bind (upsert_rows w (take n rows))
                  (fun err => match err with
                              | Some e' => ret (Some e')
                              | None => ret (Some e)
                              end) sent).
Proof.
  intros k rows sent Hfault. unfold upsertWithQuery. rewrite bind_Query.
  fold k rows sent. rewrite Hfault. split; [|split].
  - intros ->. reflexivity.
  - intros n ->. simpl. apply bind_handed_on.
  - intros n -> Hn. simpl. apply Nat.ltb_lt in Hn. rewrite Hn. reflexivity.
Qed.

(** X13. An error of a catalog listing ends the cycle only where the code
    looks at it.  When [conn.Query] returns the error of the listing of the
    hypertables, the cycle returns it having sent only the listing.  When the
    error comes up while the rows are read, [rows.Next()] answers false and
    the error is lost, [rows.Err()] being never read: the cycle goes on as if
    the listing had ended after the rows delivered so far, with the views and
    the reconciling delete.  When [rows.Scan] returns the error at a row, the
    cycle returns it once the rows before have been upserted.  The same holds
    of the listing of the views, in the world the tables have left. *)
Theorem run_listing_failure (w : Worker) (world : World) (e : error) :
  let start := add_logged world (Text "Starting Update..") in
  (let k := length (statements world) in
   let rows := hypertables (database world) in
   let sent := add_statement start SelectHypertables in
   faults world k = Some e ->
   (readings world k = AtQuery -> run w world = (Returns (Some e), sent)) /\
   (forall n, readings world k = AtNext n ->
              run w world =
              bind (upsert_rows w (take n rows)) (after_tables w) sent) /\
   (forall n world1,
       readings world k = AtScan n -> (n < length rows)%nat ->
       upsert_rows w (take n rows) sent = (Returns None, world1) ->
       run w world = (Returns (Some e), world1))) /\
  (forall world1,
      let k := length (statements world1) in
      let rows := continuous_aggregates (database world1) in
      let sent := add_statement world1 SelectContinuousAggregates in
      upsertTables w start = (Returns None, world1) ->
      faults world1 k = Some e ->
      (readings world1 k = AtQuery -> run w world = (Returns (Some e), sent)) /\
      (forall n, readings world1 k = AtNext n ->
                 run w world =
                 bind (upsert_rows w (take n rows)) (after_views w) sent) /\
      (forall n world2,
          readings world1 k = AtScan n -> (n < length rows)%nat ->
          upsert_rows w (take n rows) sent = (Returns None, world2) ->
          run w world = (Returns (Some e), world2))).
Proof.
  intros start. split.
  - intros k rows sent Hfault.
    destruct (upsertWithQuery_struck w SelectHypertables start e Hfault)
      as (Hquery & Hnext & Hscan).
    split; [|split].
    + intros Hreading. rewrite run_after_tables. unfold bind, upsertTables.
      fold start. rewrite (Hquery Hreading). reflexivity.
    + intros n Hreading. rewrite run_after_tables. unfold bind, upsertTables.
      fold start. rewrite (Hnext n Hreading). reflexivity.
    + intros n world1 Hreading Hn Hrows. rewrite run_after_tables.
      unfold bind at 1. unfold upsertTables. fold start.
      rewrite (Hscan n Hreading Hn). unfold bind. simpl listing.
      fold rows. fold sent. rewrite Hrows. reflexivity.
  - intros world1 k rows sent Htables Hfault.
    destruct (upsertWithQuery_struck w SelectContinuousAggregates world1 e Hfault)
      as (Hquery & Hnext & Hscan).
    assert (Hrun : run w world = bind (upsertViews w) (after_views w) world1).
    { rewrite run_after_tables. unfold bind at 1. fold start. rewrite Htables.
      reflexivity. }
    split; [|split].
    + intros Hreading. rewrite Hrun. unfold bind, upsertViews.
      rewrite (Hquery Hreading). reflexivity.
    + intros n Hreading. rewrite Hrun. unfold bind, upsertViews.
      rewrite (Hnext n Hreading). reflexivity.
    + intros n world2 Hreading Hn Hrows. rewrite Hrun.
      unfold bind at 1. unfold upsertViews.
      rewrite (Hscan n Hreading Hn). unfold bind. simpl listing.
      fold rows. fold sent. rewrite Hrows. reflexivity.
Qed.

Lemma run_listing_failure_witness :
  faults (struck_world (AtNext 1)) 0 = Some (errorString "unexpected EOF") /\
  run sample_worker (struck_world (AtNext 1)) =
  bind (upsert_rows sample_worker
          (take 1 (hypertables (database (struck_world (AtNext 1))))))
       (after_tables sample_worker)
       (add_statement (add_logged (struck_world (AtNext 1))
                                  (Text "Starting Update.."))
                      SelectHypertables).
Proof.
  assert (Hfault : faults (struck_world (AtNext 1))
                          (length (statements (struck_world (AtNext 1)))) =
                   Some (errorString "unexpected EOF")) by reflexivity.
  split; [exact Hfault|].
  exact (proj1 (proj2 (proj1 (run_listing_failure sample_worker
                                (struck_world (AtNext 1))
                                (errorString "unexpected EOF")) Hfault))
               1%nat eq_refl).
Defined.

(** The listing of the hypertables breaks off after its first row: the
    cycle ends without an error, [empty] is not measured, and the
    reconciling delete is sent. *)
Example run_struck_while_reading :
  fst (run sample_worker (struck_world (AtNext 1))) = Returns None /\
  statements (snd (run sample_worker (struck_world (AtNext 1)))) =
  [SelectHypertables; SelectFirstTime "src" "sensor_data";
   InsertUsage "usage" "sensor_data" 1048576 1700000000 (float64 524288);
   SelectContinuousAggregates; SelectFirstTime "src" "future";
   InsertUsage "usage" "future" 1024 1700000000 (float64 (-1024));
   DeleteOutdated "usage" "src"] /\
  logged (snd (run sample_worker (struck_world (AtNext 1)))) =
  [Text "Starting Update.."; Measured "sensor_data" 1048576 (float64 524288);
   Measured "future" 1024 (float64 (-1024)); Text "Cleanup"; Text "Done"].
Proof. vm_compute. repeat split; reflexivity. Qed.

(** The scan of the second row of the listing fails: the cycle returns the
    error after the upsert of the first row, and sends nothing more. *)
Example run_struck_at_scan :
  fst (run sample_worker (struck_world (AtScan 1))) =
    Returns (Some (errorString "unexpected EOF")) /\
  statements (snd (run sample_worker (struck_world (AtScan 1)))) =
  [SelectHypertables; SelectFirstTime "src" "sensor_data";
   InsertUsage "usage" "sensor_data" 1048576 1700000000 (float64 524288)].
Proof. vm_compute. repeat split; reflexivity. Qed.

(** ** What the reconciliation never deletes *)

Global Instance listed_name_kept_preorder (u source name : string) :
  PreOrder (listed_name_kept u source name).
Proof.
  split.
  - intros a. split; [reflexivity|]. split; [reflexivity|].
    intros _ rows Hrows Hname. exists rows. auto.
  - intros a b c (Ht1 & Hv1 & H1) (Ht2 & Hv2 & H2).
    split; [congruence|]. split; [congruence|].
    intros Hlisted rows Hrows Hname.
    destruct (H1 Hlisted rows Hrows Hname) as (rows1 & Hrows1 & Hname1).
    apply (H2 ltac:(rewrite Ht1, Hv1; exact Hlisted) rows1 Hrows1 Hname1).
Qed.

Lemma listed_name_kept_database (u source name : string) (a b : World) :
  database b = database a -> listed_name_kept u source name a b.
Proof.
  intros Hdb. unfold listed_name_kept. rewrite Hdb. split; [reflexivity|].
  split; [reflexivity|]. intros _ rows Hrows Hname. exists rows. auto.
Qed.

Lemma execute_listed_name_kept (u source name : string) (world : World)
    (s : Stmt) (db : Database) :
  (forall u' source', s = DeleteOutdated u' source' -> source' = source) ->
  execute (database world) s = inl db ->
  listed_name_kept u source name world (set_database world db).
Proof.
  intros Hs Hexec.
  destruct (execute_catalogs _ _ _ Hexec) as (Htables & Hviews & _).
  split; [exact Htables|]. split; [exact Hviews|].
  intros Hlisted rows Hrows Hname. simpl.
  destruct s as [u0|u0| | |sc tb|u0 tb b up r|u0 src]; simpl in Hexec;
    try (injection Hexec as <-; exists rows; auto).
  - destruct (usage (database world) !! u0) as [rows0|] eqn:Hrows0;
      injection Hexec as <-; simpl; [exists rows; auto|].
    exists rows. split; [|exact Hname].
    rewrite lookup_insert_ne; [exact Hrows|congruence].
  - destruct (usage (database world) !! u0) as [rows0|] eqn:Hrows0;
      [|discriminate]. injection Hexec as <-. simpl.
    destruct (decide (u0 = u)) as [->|Hne].
    + rewrite lookup_insert_eq. eexists. split; [reflexivity|].
      assert (rows0 = rows) by congruence. subst rows0.
      apply insert_usage_keeps_names. exact Hname.
    + rewrite lookup_insert_ne by exact Hne. exists rows. auto.
  - destruct (usage (database world) !! u0) as [rows0|] eqn:Hrows0;
      [|discriminate]. injection Hexec as <-. simpl.
    specialize (Hs u0 src eq_refl). subst src.
    destruct (decide (u0 = u)) as [->|Hne].
    + rewrite lookup_insert_eq. eexists. split; [reflexivity|].
      assert (rows0 = rows) by congruence. subst rows0.
      apply list_elem_of_fmap in Hname as (r & -> & Hr).
      apply list_elem_of_fmap. exists r. split; [reflexivity|].
      apply delete_outdated_keeps; assumption.
    + rewrite lookup_insert_ne by exact Hne. exists rows. auto.
Qed.

Ltac listed_name_kept_steps :=
  try (intros; match goal with
               | |- preserves (listed_name_kept _ _ _) _ =>
                   intros ?; apply listed_name_kept_database; reflexivity
               end);
  try (intros ? ? ? ? ?; eapply execute_listed_name_kept; eassumption);
  try (intros; discriminate);
  try (intros ? ? E; injection E as _ <-; reflexivity).

Lemma run_listed_name_kept (w : Worker) (name : string) :
  preserves (listed_name_kept (usageSchema w) (sourceSchema w) name) (run w).
Proof.
  apply (on_run (listed_name_kept (usageSchema w) (sourceSchema w) name)
           (fun s => forall u' source', s = DeleteOutdated u' source' ->
                                        source' = sourceSchema w));
    listed_name_kept_steps.
Qed.

Lemma select_loop_listed_name_kept (w : Worker) (name : string)
    (received : list Ready) :
  preserves (listed_name_kept (usageSchema w) (sourceSchema w) name)
            (select_loop w received).
Proof.
  apply (on_select_loop (listed_name_kept (usageSchema w) (sourceSchema w) name)
           (fun s => forall u' source', s = DeleteOutdated u' source' ->
                                        source' = sourceSchema w));
    listed_name_kept_steps.
Qed.

(** X14. The worker never deletes the usage row of a name that the
    catalogs list for the source schema.  If a hypertable or a continuous
    aggregate of the source schema bears the name, and the usage table has a
    row for it, then the usage table still has a row for it after a cycle,
    and after any run of the scheduler's loop, however they end, also when
    the object could not be measured in between. *)
Theorem listed_names_survive (w : Worker) (world : World) (name : string)
    (rows : list UsageRow) :
  name ∈ names_in (sourceSchema w) (hypertables (database world)) \/
  name ∈ names_in (sourceSchema w) (continuous_aggregates (database world)) ->
  usage (database world) !! usageSchema w = Some rows ->
  name ∈ map u_table rows ->
  (exists rows',
      usage (database (snd (run w world))) !! usageSchema w = Some rows' /\
      name ∈ map u_table rows') /\
  (forall received,
      exists rows',
        usage (database (snd (select_loop w received world))) !! usageSchema w =
          Some rows' /\
        name ∈ map u_table rows').
Proof.
  intros Hlisted Hrows Hname. split.
  - destruct (run_listed_name_kept w name world) as (_ & _ & Hkept).
    apply (Hkept Hlisted rows Hrows Hname).
  - intros received.
    destruct (select_loop_listed_name_kept w name received world) as (_ & _ & Hkept).
    apply (Hkept Hlisted rows Hrows Hname).
Qed.

Lemma listed_names_survive_witness :
  let world1 := snd (run sample_worker quiet_world) in
  exists rows',
    usage (database (snd (run sample_worker world1))) !! "usage" = Some rows' /\
    "sensor_data" ∈ map u_table rows'.
Proof.
  intros world1.
  assert (Hlisted :
    "sensor_data" ∈ names_in (sourceSchema sample_worker)
                             (hypertables (database world1)) \/
    "sensor_data" ∈ names_in (sourceSchema sample_worker)
                             (continuous_aggregates (database world1))).
  { left. apply (bool_decide_unpack _). vm_compute. reflexivity. }
  assert (Hrows :
    usage (database world1) !! usageSchema sample_worker =
    Some (usage_rows world1 "usage")) by (vm_compute; reflexivity).
  assert (Hname : "sensor_data" ∈ map u_table (usage_rows world1 "usage")).
  { apply (bool_decide_unpack _). vm_compute. reflexivity. }
  exact (proj1 (listed_names_survive sample_worker world1 "sensor_data" _
                  Hlisted Hrows Hname)).
Defined.

(** ** The end of the scheduler's loop *)

(** X15. The loop of the scheduler returns nil only when it has received
    the end of its context: as long as only ticks arrive it runs cycles, and
    it ends otherwise with the error or the panic of a cycle.  And every tick
    that arrives before the end of the context and before a failed cycle is
    served by a cycle: nil is returned in the world that as many cycles as
    ticks have left. *)
Theorem select_loop_nil (w : Worker) (received : list Ready) (world world' : World) :
  select_loop w received world = (Returns None, world') ->
  exists n later,
    received = repeat Tick n ++ CtxDone :: later /\
    cycles w n world = (Returns None, world').
Proof.
  revert world. induction received as [|[|] received IH]; intros world; simpl.
  - discriminate.
  - unfold bind. destruct (run w world) as [[[e|]|v|] world1] eqn:Hrun;
      try discriminate.
    intros Hloop. destruct (IH world1 Hloop) as (n & later & -> & Hcycles).
    exists (S n), later. split; [reflexivity|].
    simpl. unfold bind. rewrite Hrun. exact Hcycles.
  - intros [= <-]. exists 0, received. split; reflexivity.
Qed.

Lemma select_loop_nil_witness :
  exists n later,
    [Tick; CtxDone; Tick] = repeat Tick n ++ CtxDone :: later /\
    cycles sample_worker n quiet_world =
    (Returns None, snd (select_loop sample_worker [Tick; CtxDone; Tick] quiet_world)).
Proof.
  apply (select_loop_nil sample_worker [Tick; CtxDone; Tick] quiet_world).
  vm_compute. reflexivity.
Defined.
